(** * flac_autofix: container parser, repair planner, atomic replacement

    A shallow embedding of [flac_autofix.py].  The byte-level parser is a
    pure function of the file contents; the planner reads the table of
    installed tools; the file processor and the replacement protocol are
    written in a small state-and-exception monad over a file store. *)

From Stdlib Require Import ZArith String Ascii List Lia Bool.
From Stdlib.Strings Require Import Byte.
From stdpp Require Import base option list strings gmap pretty.

Local Open Scope string_scope.
Local Open Scope list_scope.
Local Open Scope Z_scope.

(** ** Bytes and big-endian integers *)

#[global] Instance byte_eq_dec : EqDecision byte := Byte.byte_eq_dec.

Definition byte_val (b : byte) : Z := Z.of_N (Byte.to_N b).

(** [int.from_bytes(a, 'big')] *)
Definition int_from_bytes_big (a : list byte) : Z :=
  fold_left (fun acc b => acc * 256 + byte_val b) a 0.

(** [data[i:j]] for [0 <= i <= j] *)
Definition slice {A} (i j : nat) (l : list A) : list A :=
  firstn (j - i) (skipn i l).

(** ** FLAC parsing *)

Record MetaBlock := mkMetaBlock {
  mb_type : Z;
  mb_length : Z;
  mb_offset : Z;
  mb_is_last : bool
}.

Definition TYPE_NAMES : list (Z * string) :=
  [(0, "STREAMINFO"); (1, "PADDING"); (2, "APPLICATION"); (3, "SEEKTABLE");
   (4, "VORBIS_COMMENT"); (5, "CUESHEET"); (6, "PICTURE")].

(** [btype in TYPE_NAMES] *)
Definition in_type_names (btype : Z) : bool :=
  existsb (fun kv => Z.eqb (fst kv) btype) TYPE_NAMES.

Record StreamInfo := mkStreamInfo {
  sample_rate : Z;
  channels : Z;
  bits_per_sample : Z;
  total_samples : Z
}.

Record FlacProbe := mkFlacProbe {
  ok : bool;
  reason : string;
  is_flac : bool;
  blocks : list MetaBlock;
  streaminfo : option StreamInfo;
  total_meta_bytes_with_headers : Z;
  picture_bytes_total : Z;
  unknown_block_count : Z;
  last_block_marked : bool
}.

Definition magic : list byte := [x66; x4c; x61; x43].   (* b'fLaC' *)

(** The open file: its contents and the current position.  [seek] may move
    the position past the end; a read there returns nothing. *)
Record handle := mkHandle { h_data : list byte; h_pos : nat }.

Definition f_read (n : nat) (f : handle) : list byte * handle :=
  let got := firstn n (skipn (h_pos f) (h_data f)) in
  (got, mkHandle (h_data f) (h_pos f + length got)).

Definition f_seek_cur (off : Z) (f : handle) : handle :=
  mkHandle (h_data f) (h_pos f + Z.to_nat off).

Definition f_tell (f : handle) : Z := Z.of_nat (h_pos f).

(** Lines 101-107: the four fields packed in [data[10:18]]. *)
Definition decode_streaminfo (data : list byte) : StreamInfo :=
  let a := slice 10 18 data in
  let x := int_from_bytes_big a in
  let sr := Z.land (Z.shiftr x (3 + 5 + 36)) (Z.shiftl 1 20 - 1) in
  let ch := Z.land (Z.shiftr x (5 + 36)) 7 + 1 in
  let bps := Z.land (Z.shiftr x 36) 31 + 1 in
  let total := Z.land x (Z.shiftl 1 36 - 1) in
  mkStreamInfo sr ch bps total.

(** The local variables of [parse_flac] that the loop updates. *)
Record walk_state := mkWalk {
  w_file : handle;
  w_blocks : list MetaBlock;
  w_streaminfo : option StreamInfo;
  w_total_meta : Z;
  w_picture_bytes : Z;
  w_unknown_cnt : Z;
  w_last_marked : bool
}.

(** One pass through the body of [while True]: [inl] is a [break] with the
    final variables, [inr] goes round again. *)
Definition walk_step (s : walk_state) : walk_state + walk_state :=
  let '(hdr, f) := f_read 4 (w_file s) in
  match hdr with
  | [b0; b1; b2; b3] =>
      let is_last := negb (Z.land (byte_val b0) 128 =? 0) in
      let btype := Z.land (byte_val b0) 127 in
      let length :=
        Z.lor (Z.lor (Z.shiftl (byte_val b1) 16) (Z.shiftl (byte_val b2) 8))
              (byte_val b3) in
      let offset := f_tell f - 4 in
      let blocks := w_blocks s ++ [mkMetaBlock btype length offset is_last] in
      let total_meta := w_total_meta s + (length + 4) in
      let picture_bytes :=
        if btype =? 6 then w_picture_bytes s + length else w_picture_bytes s in
      let unknown_cnt :=
        if in_type_names btype then w_unknown_cnt s else w_unknown_cnt s + 1 in
      let '(si, f') :=
        if (btype =? 0) && (length =? 34)
        then let '(data, f1) := f_read 34 f in (Some (decode_streaminfo data), f1)
        else (w_streaminfo s, f_seek_cur length f) in
      let s' := mkWalk f' blocks si total_meta picture_bytes unknown_cnt
                       (w_last_marked s) in
      if is_last
      then inl (mkWalk f' blocks si total_meta picture_bytes unknown_cnt true)
      else inr s'
  | _ => inl (mkWalk f (w_blocks s) (w_streaminfo s) (w_total_meta s)
                     (w_picture_bytes s) (w_unknown_cnt s) (w_last_marked s))
  end.

(** The loop, bounded by [fuel] iterations; [None] means the bound was
    reached before a [break]. *)
Fixpoint walk (fuel : nat) (s : walk_state) : option walk_state :=
  match fuel with
  | O => None
  | S fuel' =>
      match walk_step s with
      | inl final => Some final
      | inr s' => walk fuel' s'
      end
  end.

Definition not_flac_probe : FlacProbe :=
  mkFlacProbe false "Not native FLAC (missing fLaC magic)" false [] None 0 0 0 false.

Definition parse_flac_fuel (fuel : nat) (bs : list byte) : option FlacProbe :=
  let '(head, f) := f_read 4 (mkHandle bs 0) in
  if decide (head = magic) then
    s ← walk fuel (mkWalk f [] None 0 0 0 false);
    Some (mkFlacProbe true "OK" true (w_blocks s) (w_streaminfo s)
            (w_total_meta s) (w_picture_bytes s) (w_unknown_cnt s)
            (w_last_marked s))
  else Some not_flac_probe.

(** [parse_flac] on the contents of the file.  The walk needs at most one
    iteration per four bytes, so [length bs] iterations are enough
    ([parse_flac_fuel_enough] below); the default is never taken. *)
Definition parse_flac_bytes (bs : list byte) : FlacProbe :=
  default not_flac_probe (parse_flac_fuel (length bs) bs).

(** ** Exceptions

    Python exceptions are values: the class and the text of [str(e)].  Only
    the classes the program tells apart or raises itself are named. *)

Inductive exn_class :=
| PermissionError | FileNotFoundError | FileExistsError | SameFileError
| OSError | ValueError | OverflowError
| OtherException (name : string).

Definition class_name (c : exn_class) : string :=
  match c with
  | PermissionError => "PermissionError"
  | FileNotFoundError => "FileNotFoundError"
  | FileExistsError => "FileExistsError"
  | SameFileError => "SameFileError"
  | OSError => "OSError"
  | ValueError => "ValueError"
  | OverflowError => "OverflowError"
  | OtherException name => name
  end.

(** [isinstance(e, OSError)] *)
Definition is_OSError (c : exn_class) : bool :=
  match c with
  | PermissionError | FileNotFoundError | FileExistsError | SameFileError
  | OSError => true
  | _ => false
  end.

Definition is_PermissionError (c : exn_class) : bool :=
  match c with PermissionError => true | _ => false end.

Record exn := mkExn { e_class : exn_class; e_msg : string }.

Inductive result (A : Type) :=
| Ok (a : A)
| Raise (e : exn).
Arguments Ok {A} a.
Arguments Raise {A} e.

#[global] Instance result_ret : MRet result := fun A a => Ok a.
#[global] Instance result_bind : MBind result := fun A B k m =>
  match m with Ok a => k a | Raise e => Raise e end.

(** ** Floats and number formatting

    A float argument is a dyadic number [m * 2^e], an infinity or a NaN
    (argparse's [type=float] accepts all three). *)

Inductive pyfloat :=
| FFinite (m e : Z)
| FInf (negative : bool)
| FNan.

(** [x * 1024]: exact, unless the product leaves the binary64 range. *)
Definition fmul_1024 (x : pyfloat) : pyfloat :=
  match x with
  | FFinite m e =>
      if 2 ^ 1024 * 2 ^ Z.max (- (e + 10)) 0 <=? Z.abs m * 2 ^ Z.max (e + 10) 0
      then FInf (m <? 0)
      else FFinite m (e + 10)
  | other => other
  end.

(** [int(x)]: truncation toward zero. *)
Definition py_int (x : pyfloat) : result Z :=
  match x with
  | FFinite m e => Ok (Z.quot (m * 2 ^ Z.max e 0) (2 ^ Z.max (- e) 0))
  | FInf _ => Raise (mkExn OverflowError "cannot convert float infinity to integer")
  | FNan => Raise (mkExn ValueError "cannot convert float NaN to integer")
  end.

(** [num / den] rounded to the nearest integer, ties to even ([den > 0]). *)
Definition round_half_even (num den : Z) : Z :=
  let q := num / den in
  let r := num mod den in
  if 2 * r <? den then q
  else if den <? 2 * r then q + 1
  else if Z.even q then q else q + 1.

(** [float(n)] for an int: the nearest number with 53 significant bits,
    which is again an integer. *)
Definition float_of_int (n : Z) : result Z :=
  let a := Z.abs n in
  let sh := Z.max 0 (Z.log2 a - 52) in
  let r := round_half_even a (2 ^ sh) * 2 ^ sh in
  if 2 ^ 1024 <=? r
  then Raise (mkExn OverflowError "int too large to convert to float")
  else Ok (Z.sgn n * r).

(** [f"{v:.1f}"] for [v = num / den >= 0]. *)
Definition format_1f (num den : Z) : string :=
  let t := round_half_even (10 * num) den in
  pretty (t / 10) +:+ "." +:+ pretty (t mod 10).

(** [human_bytes]: the [for] over the four units is unrolled; [v] is
    [n0 / 1024^k] at the k-th unit, the divisions by 1024 being exact. *)
Definition human_bytes (n : Z) : result string :=
  n0 ← float_of_int n;
  if n0 <? 1024 then Ok (pretty n0 +:+ "B")
  else if n0 <? 1024 * 1024 then Ok (format_1f n0 1024 +:+ "KB")
  else if n0 <? 1024 * 1024 * 1024 then Ok (format_1f n0 (1024 * 1024) +:+ "MB")
  else Ok (format_1f n0 (1024 * 1024 * 1024) +:+ "GB").

(** ** The environment

    What the program cannot decide itself: which tools are on the PATH,
    what an external tool or the decoder does with the bytes it is given,
    which names [mkdtemp] picks, and which primitive effect fails.  The
    oracles take the number of the effect (the [tick]) so that the same
    call may behave differently when repeated. *)

Definition path := list string.          (* the components of a Path *)
Abbreviation bytes := (list byte).

Record tool_result := mkToolResult {
  exit_code : Z;
  written : option bytes        (* new contents of the output file, if any *)
}.

Record World := mkWorld {
  fault : nat -> option exn;
  which_path : string -> option string;                     (* shutil.which *)
  tmp_name : nat -> string;
  tool : nat -> list string -> list (option bytes) -> tool_result;
  sf_import : nat -> option exn;                  (* [import soundfile] *)
  sf_read : nat -> option bytes -> option exn     (* opening and reading it all *)
}.

(** ** Repair decision *)

Record FixPlan := mkFixPlan {
  needs_fix : bool;
  reasons : list string;
  action : string;              (* 'ffmpeg' | 'flac' | 'metaflac' | 'skip' *)
  keep_cover : bool
}.

(** [needle in hay] *)
Fixpoint contains (needle hay : string) : bool :=
  String.prefix needle hay ||
  match hay with
  | EmptyString => false
  | String _ hay' => contains needle hay'
  end.

(** The five anomaly texts, in the order of the [if]s. *)
Definition reason_decode : string := "解码失败/播放器拒绝播放".
Definition reason_unknown (n : Z) : string :=
  "存在 UNKNOWN 元数据块: " +:+ pretty n +:+ " 个".
Definition reason_not_last : string := "元数据未标记终止 is_last=false".
Definition reason_meta (size : string) : string := "元数据过大: " +:+ size.
Definition reason_cover (size cap : string) : string :=
  "封面过大: " +:+ size +:+ " > " +:+ cap.

Section Decide.
Context (w : World).

(** The truth value of [which(cmd)]. *)
Definition which (cmd : string) : bool :=
  match which_path w cmd with
  | Some p => negb (String.eqb p "")
  | None => false
  end.

Definition decide_fix (probe : FlacProbe) (decode_ok keep_cover : bool)
    (meta_threshold_mb : pyfloat) (max_cover_bytes : Z) : result FixPlan :=
  let reasons := [] in
  let reasons :=
    if negb decode_ok then reasons ++ [reason_decode] else reasons in
  let reasons :=
    if 0 <? unknown_block_count probe
    then reasons ++ [reason_unknown (unknown_block_count probe)] else reasons in
  let reasons :=
    if negb (last_block_marked probe)
    then reasons ++ [reason_not_last] else reasons in
  threshold ← py_int (fmul_1024 (fmul_1024 meta_threshold_mb));
  reasons ←
    (if threshold <? total_meta_bytes_with_headers probe
     then size ← human_bytes (total_meta_bytes_with_headers probe);
          Ok (reasons ++ [reason_meta size])
     else Ok reasons);
  reasons ←
    (if max_cover_bytes <? picture_bytes_total probe
     then size ← human_bytes (picture_bytes_total probe);
          cap ← human_bytes max_cover_bytes;
          Ok (reasons ++ [reason_cover size cap])
     else Ok reasons);
  let needs_fix := (0 <? length reasons)%nat in
  let action := "skip" in
  let action :=
    if needs_fix then
      if which "ffmpeg" then "ffmpeg"
      else if which "flac" then "flac"
      else if which "metaflac" then "metaflac" else "skip"
    else action in
  let action :=
    if needs_fix && contains "封面过大" (String.concat " " reasons)
       && which "metaflac" && negb (which "ffmpeg") && negb (which "flac")
    then "metaflac" else action in
  let keep_cover :=
    if keep_cover && (max_cover_bytes <? picture_bytes_total probe)
    then false else keep_cover in
  Ok (mkFixPlan needs_fix reasons action keep_cover).

End Decide.

(** ** Paths *)

Definition parent (p : path) : path := removelast p.
Definition name (p : path) : string := List.last p "".
Definition str_path (p : path) : string := String.concat "/" p.

(** [name.rfind('.')] as a split: the text before the last dot and the text
    from that dot on. *)
Fixpoint rsplit_dot (s : string) : option (string * string) :=
  match s with
  | EmptyString => None
  | String c s' =>
      match rsplit_dot s' with
      | Some (a, b) => Some (String c a, b)
      | None => if Ascii.eqb c "." then Some (EmptyString, s) else None
      end
  end.

(** The split pathlib uses for [stem] and [suffix]: a dot that is neither
    the first nor the last character of the name. *)
Definition split_suffix (nm : string) : string * string :=
  match rsplit_dot nm with
  | Some (a, b) =>
      if (0 <? String.length a)%nat && (1 <? String.length b)%nat
      then (a, b) else (nm, EmptyString)
  | None => (nm, EmptyString)
  end.

Definition stem (p : path) : string := fst (split_suffix (name p)).
Definition suffix (p : path) : string := snd (split_suffix (name p)).

(** [p.with_suffix(sfx)] for a [sfx] that starts with a dot. *)
Definition with_suffix (p : path) (sfx : string) : result path :=
  if String.eqb (name p) "" then
    Raise (mkExn ValueError (str_path p +:+ " has an empty name"))
  else Ok (parent p ++ [stem p +:+ sfx]).

(** ** State and effects *)

Record ProcessResult := mkResult {
  r_file : string;
  r_status : string;
  r_reasons : string;
  r_action : string;
  r_message : string
}.

(** The decode checks that were made, oldest first (not program state: a
    record of what happened, for the statements below). *)
Inductive event :=
| EvDecode (p : path) (passed : bool).

Record state := mkState {
  fs : gmap path bytes;          (* the regular files *)
  tick : nat;                    (* primitive effects so far *)
  log : list event;
  st_result : ProcessResult      (* the [result] dict of [process_one] *)
}.

Definition set_fs (m : gmap path bytes) (s : state) : state :=
  mkState m (tick s) (log s) (st_result s).
Definition set_result (r : ProcessResult) (s : state) : state :=
  mkState (fs s) (tick s) (log s) r.

Definition M (A : Type) : Type := state -> result A * state.

#[global] Instance M_ret : MRet M := fun A a s => (Ok a, s).
#[global] Instance M_bind : MBind M := fun A B k m s =>
  match m s with
  | (Ok a, s') => k a s'
  | (Raise e, s') => (Raise e, s')
  end.

Definition raise {A} (e : exn) : M A := fun s => (Raise e, s).
Definition lift {A} (r : result A) : M A := fun s => (r, s).
Definition get_fs : M (gmap path bytes) := fun s => (Ok (fs s), s).
Definition put_fs (m : gmap path bytes) : M unit := fun s => (Ok tt, set_fs m s).
Definition modify_result (f : ProcessResult -> ProcessResult) : M unit :=
  fun s => (Ok tt, set_result (f (st_result s)) s).

(** [try: body / except <classes>: handler] *)
Definition try_except {A} (body : M A) (catches : exn_class -> bool)
    (handler : exn -> M A) : M A := fun s =>
  match body s with
  | (Raise e, s') => if catches (e_class e) then handler e s' else (Raise e, s')
  | done => done
  end.

Definition any_Exception (c : exn_class) : bool := true.

Definition under (d : path) (kv : path * bytes) : Prop := d `prefix_of` kv.1.
#[global] Instance under_dec d kv : Decision (under d kv).
Proof. unfold under. apply _. Defined.

Section Effects.
Context (w : World).

(** The next primitive effect: its number, or the failure the environment
    has for it. *)
Definition effect : M nat := fun s =>
  let s' := mkState (fs s) (S (tick s)) (log s) (st_result s) in
  match fault w (tick s) with
  | Some e => (Raise e, s')
  | None => (Ok (tick s), s')
  end.

Definition no_such_file {A} (p : path) : M A :=
  raise (mkExn FileNotFoundError
           ("[Errno 2] No such file or directory: '" +:+ str_path p +:+ "'")).

Definition path_exists (p : path) : M bool :=
  m ← get_fs; mret (bool_decide (is_Some (m !! p))).

Definition unlink (p : path) : M unit :=
  _ ← effect; m ← get_fs;
  match m !! p with
  | Some _ => put_fs (delete p m)
  | None => no_such_file p
  end.

(** [os.replace] and [os.rename]: the source takes the place of the
    target, whatever was there. *)
Definition os_rename (src dst : path) : M unit :=
  _ ← effect; m ← get_fs;
  match m !! src with
  | Some b => put_fs (<[dst := b]> (delete src m))
  | None => no_such_file src
  end.

Definition copy2 (src dst : path) : M unit :=
  _ ← effect; m ← get_fs;
  if decide (src = dst) then
    raise (mkExn SameFileError (str_path src +:+ " and " +:+ str_path dst
                                  +:+ " are the same file"))
  else match m !! src with
       | Some b => put_fs (<[dst := b]> m)
       | None => no_such_file src
       end.

(** [shutil.move] of a regular file: a rename, or a copy and a delete when
    the rename fails with an [OSError]. *)
Definition shutil_move (src dst : path) : M unit :=
  try_except (os_rename src dst) is_OSError
    (fun _ => _ ← copy2 src dst; unlink src).

Definition mkdir (p : path) : M unit := _ ← effect; mret tt.

(** [tempfile.mkdtemp(dir=...)]: a name under which nothing exists yet. *)
Definition mkdtemp (dir : path) : M path :=
  n ← effect; m ← get_fs;
  let td := dir ++ [tmp_name w n] in
  if decide (filter (under td) m = ∅) then mret td
  else raise (mkExn FileExistsError "No usable temporary directory name found").

Definition rmtree (td : path) : M unit :=
  _ ← effect; m ← get_fs;
  put_fs (filter (fun kv => ¬ under td kv) m).

(** [with tempfile.TemporaryDirectory(dir=...) as td: body]: the directory
    is removed on every way out of the body; a failure of the removal
    replaces the outcome of the body. *)
Definition with_TemporaryDirectory {A} (dir : path) (body : path -> M A) : M A :=
  td ← mkdtemp dir;
  ((fun s =>
      let '(r, s1) := body td s in
      match rmtree td s1 with
      | (Ok _, s2) => (r, s2)
      | (Raise e, s2) => (Raise e, s2)
      end) : M A).

(** [run(cmd)], returning the exit code.  What the process does to the
    file store is the tool's contract: it reads [inputs] and may write
    [output]; the contents come from the environment. *)
Definition run (cmd : list string) (inputs : list path) (output : option path) : M Z :=
  n ← effect; m ← get_fs;
  let r := tool w n cmd ((fun p => m !! p) <$> inputs) in
  _ ← match output, written r with
      | Some p, Some b => put_fs (<[p := b]> m)
      | _, _ => mret tt
      end;
  mret (exit_code r).

(** [soundfile_decode_ok]: every exception is turned into a message. *)
Definition soundfile_decode_ok (p : path) : M (bool * string) := fun s =>
  let n := tick s in
  let answer :=
    match sf_import w n with
    | Some e => (false, "soundfile import failed: " +:+ e_msg e)
    | None =>
        match sf_read w n (fs s !! p) with
        | None => (true, "OK (soundfile)")
        | Some e => (false, "DECODE_FAIL (soundfile): " +:+ class_name (e_class e)
                              +:+ ": " +:+ e_msg e)
        end
    end in
  (Ok answer, mkState (fs s) (S n) (log s ++ [EvDecode p answer.1]) (st_result s)).

(** ** The tool adapters *)

Definition export_cover_with_metaflac (src tmpdir : path) : M (option path) :=
  if negb (which w "metaflac") then mret None
  else
    let out := tmpdir ++ ["cover.export"] in
    code ← run ["metaflac"; "--export-picture-to=" +:+ str_path out; str_path src]
               [src] (Some out);
    if negb (code =? 0) then mret None
    else
      there ← path_exists out;
      if (there : bool) then mret (Some out) else mret None.

Definition import_cover_with_metaflac (dst cover_path : path) : M bool :=
  if negb (which w "metaflac") then mret false
  else
    code ← run ["metaflac"; "--import-picture-from=" +:+ str_path cover_path;
                str_path dst] [dst; cover_path] (Some dst);
    mret (code =? 0).

Definition strip_all_metadata_with_metaflac (p : path) : M bool :=
  if negb (which w "metaflac") then mret false
  else
    code ← run ["metaflac"; "--remove-all"; "--dont-use-padding"; str_path p]
               [p] (Some p);
    mret (code =? 0).

Definition reencode_with_ffmpeg (src dst : path) : M bool :=
  code ← run ["ffmpeg"; "-y"; "-hide_banner"; "-loglevel"; "error"; "-i";
              str_path src; "-map_metadata"; "0"; "-vn"; "-sn"; "-c:a"; "flac";
              "-compression_level"; "5"; str_path dst] [src] (Some dst);
  mret (code =? 0).

Definition reencode_with_flac_cli (src dst : path) : M bool :=
  with_TemporaryDirectory (parent src) (fun td =>
    let wav := td ++ ["tmp.wav"] in
    code ← run ["flac"; "-d"; "-f"; "-o"; str_path wav; str_path src]
               [src] (Some wav);
    missing ← (if negb (code =? 0) then mret true
               else there ← path_exists wav; mret (negb there));
    if (missing : bool) then mret false
    else
      code ← run ["flac"; "-f"; "-o"; str_path dst; str_path wav]
                 [wav] (Some dst);
      if code =? 0 then path_exists dst else mret false).

(** ** File replacement *)

Definition atomic_replace (src dst : path) : M unit :=
  try_except
    (there ← path_exists dst;
     _ ← (if (there : bool) then unlink dst else mret tt);
     os_rename src dst)
    is_PermissionError
    (fun _ =>
       bak ← lift (with_suffix dst (suffix dst +:+ ".old"));
       try_except
         (there ← path_exists dst;
          _ ← (if (there : bool) then os_rename dst bak else mret tt);
          _ ← shutil_move src dst;
          there ← path_exists bak;
          if (there : bool)
          then try_except (unlink bak) any_Exception (fun _ => mret tt)
          else mret tt)
         any_Exception
         (fun e =>
            there ← path_exists dst;
            kept ← (if negb (there : bool) then path_exists bak else mret false);
            _ ← (if (kept : bool)
                 then try_except (os_rename bak dst) any_Exception
                        (fun _ => mret tt)
                 else mret tt);
            raise e)).

(** ** Core processing *)

Record Args := mkArgs {
  a_dry_run : bool;
  a_backup : bool;
  a_backup_dir : path;
  a_keep_cover : bool;
  a_max_cover_mb : pyfloat;
  a_meta_threshold_mb : pyfloat
}.

(** [parse_flac(path)]: opening the file is the one effect. *)
Definition parse_flac (p : path) : M FlacProbe :=
  _ ← effect; m ← get_fs;
  match m !! p with
  | Some bs => mret (parse_flac_bytes bs)
  | None => no_such_file p
  end.

Definition set_status (v : string) : M unit :=
  modify_result (fun r => mkResult (r_file r) v (r_reasons r) (r_action r) (r_message r)).
Definition set_reasons (v : string) : M unit :=
  modify_result (fun r => mkResult (r_file r) (r_status r) v (r_action r) (r_message r)).
Definition set_action (v : string) : M unit :=
  modify_result (fun r => mkResult (r_file r) (r_status r) (r_reasons r) v (r_message r)).
Definition set_message (v : string) : M unit :=
  modify_result (fun r => mkResult (r_file r) (r_status r) (r_reasons r) (r_action r) v).
Definition append_message (v : string) : M unit :=
  modify_result (fun r => mkResult (r_file r) (r_status r) (r_reasons r) (r_action r)
                            (r_message r +:+ v)).

(** Lines 288-302, where the two re-encode branches (and a failed strip)
    continue. *)
Definition check_and_replace (p out_tmp : path) (plan : FixPlan)
    (cover_tmp : option path) (ok : bool) : M unit :=
  failed ← (if negb ok then mret true
            else there ← path_exists out_tmp; mret (negb there));
  if (failed : bool) then
    _ ← set_status "FAIL"; set_message (action plan +:+ " 生成失败")
  else
    _ ← (if keep_cover plan then
           match cover_tmp with
           | Some cover =>
               if which w "metaflac" then
                 import_ok ← import_cover_with_metaflac out_tmp cover;
                 if (import_ok : bool) then mret tt
                 else append_message "（封面导入失败）"
               else mret tt
           | None => mret tt
           end
         else mret tt);
    dec2 ← soundfile_decode_ok out_tmp;
    if negb dec2.1 then
      _ ← set_status "FAIL"; set_message ("修复后验证失败: " +:+ dec2.2)
    else
      _ ← atomic_replace out_tmp p;
      _ ← set_status "FIXED";
      set_message ("完成 " +:+ action plan +:+ " 修复并验证成功").

(** The body of the [try]. *)
Definition process_one_body (p : path) (args : Args) : M unit :=
  probe ← parse_flac p;
  if negb (is_flac probe) then
    _ ← set_status "SKIP"; set_message (reason probe)
  else
    dec ← soundfile_decode_ok p;
    max_cover_bytes ← lift (py_int (fmul_1024 (fmul_1024 (a_max_cover_mb args))));
    plan ← lift (decide_fix w probe dec.1 (a_keep_cover args)
                   (a_meta_threshold_mb args) max_cover_bytes);
    _ ← set_reasons (match reasons plan with
                     | [] => "（无）"
                     | _ => String.concat "; " (reasons plan)
                     end);
    _ ← set_action (action plan);
    if negb (needs_fix plan) then
      _ ← set_status "OK"; set_message dec.2
    else if a_dry_run args then
      _ ← set_status "DRYRUN"; set_message ("将执行: " +:+ action plan)
    else
      _ ← (if a_backup args then
             _ ← mkdir (a_backup_dir args);
             copy2 p (a_backup_dir args ++ [name p])
           else mret tt);
      with_TemporaryDirectory (parent p) (fun tmpdir =>
        cover_tmp ← (if keep_cover plan && which w "metaflac"
                     then export_cover_with_metaflac p tmpdir
                     else mret None);
        let out_tmp := tmpdir ++ [stem p +:+ ".__fixed__.flac"] in
        if String.eqb (action plan) "ffmpeg" then
          ok ← reencode_with_ffmpeg p out_tmp;
          check_and_replace p out_tmp plan cover_tmp ok
        else if String.eqb (action plan) "flac" then
          ok ← reencode_with_flac_cli p out_tmp;
          check_and_replace p out_tmp plan cover_tmp ok
        else if String.eqb (action plan) "metaflac" then
          ok ← strip_all_metadata_with_metaflac p;
          if (ok : bool) then
            dec2 ← soundfile_decode_ok p;
            let dec2_ok : bool := dec2.1 in
            _ ← set_status (if dec2_ok then "FIXED" else "FAIL");
            set_message (if dec2_ok then "metaflac 清空元数据后验证"
                         else "metaflac 清空后仍不可读")
          else check_and_replace p out_tmp plan cover_tmp ok
        else
          _ ← set_status "FAIL";
          set_message "无可用修复工具（请安装 ffmpeg 或 flac）").

Definition initial_result (p : path) : ProcessResult :=
  mkResult (str_path p) "SKIP" "" "" "".

(** [process_one]: the [try] and its [except Exception]; the dict that is
    returned is the one the body has been filling in. *)
Definition process_one (p : path) (args : Args) (s : state) : ProcessResult * state :=
  let s0 := set_result (initial_result p) s in
  let '(_, s1) :=
    try_except (process_one_body p args) any_Exception
      (fun e =>
         _ ← set_status "ERROR";
         set_message (class_name (e_class e) +:+ ": " +:+ e_msg e)) s0 in
  (st_result s1, s1).

End Effects.

Definition start (files : gmap path bytes) : state :=
  mkState files 0 [] (mkResult "" "" "" "" "").

(** ** Vocabulary for the statements about [decide_fix] *)

(** The text of a size, empty where the formatting fails. *)
Definition size_text (n : Z) : string :=
  match human_bytes n with Ok s => s | Raise _ => "" end.

(** The five checks in the order of the [if]s, each with the text it
    appends when it applies. *)
Definition anomaly_checks (probe : FlacProbe) (decode_ok : bool)
    (threshold max_cover_bytes : Z) : list (bool * string) :=
  [ (negb decode_ok, reason_decode);
    (0 <? unknown_block_count probe, reason_unknown (unknown_block_count probe));
    (negb (last_block_marked probe), reason_not_last);
    (threshold <? total_meta_bytes_with_headers probe,
       reason_meta (size_text (total_meta_bytes_with_headers probe)));
    (max_cover_bytes <? picture_bytes_total probe,
       reason_cover (size_text (picture_bytes_total probe))
                    (size_text max_cover_bytes)) ].

Definition is_meta_reason (r : string) : bool := String.prefix "元数据过大" r.

(** The tool choice of [decide_fix], given whether anything needs fixing. *)
Definition chosen_action (w : World) (needs : bool) (reasons : list string) : string :=
  let action :=
    if needs then
      if which w "ffmpeg" then "ffmpeg"
      else if which w "flac" then "flac"
      else if which w "metaflac" then "metaflac" else "skip"
    else "skip" in
  if needs && contains "封面过大" (String.concat " " reasons)
     && which w "metaflac" && negb (which w "ffmpeg") && negb (which w "flac")
  then "metaflac" else action.

(** ** Vocabulary for the statements about effects *)

(** A computation keeps an invariant of the state, whether it returns or
    raises. *)
Definition keeps {A} (Inv : state -> Prop) (m : M A) : Prop :=
  forall s, Inv s -> Inv (m s).2.

(** The original file still has the bytes [b]. *)
Definition original_kept (p : path) (b : bytes) (s : state) : Prop :=
  fs s !! p = Some b.

(** A decode check of a file other than the original has failed: the
    validation of a repaired candidate. *)
Definition failed_candidate (p : path) (s : state) : Prop :=
  exists q, q <> p /\ In (EvDecode q false) (log s).

(** Original in place and no candidate rejected so far. *)
Definition untouched (p : path) (b : bytes) (s : state) : Prop :=
  original_kept p b s /\ ~ failed_candidate p s.

(** What [process_one_body] guarantees for an original with bytes [b]: no
    candidate was rejected, or the original is in place and the status is
    [FAIL]; in that case the body returned, or was interrupted by a failure
    of the environment. *)
Definition verdict (w : World) (p : path) (b : bytes) (r : result unit)
    (s : state) : Prop :=
  ~ failed_candidate p s \/
  (original_kept p b s /\ r_status (st_result s) = "FAIL" /\
   (r = Ok tt \/ exists n e, fault w n = Some e /\ r = Raise e)).

Definition achieves (w : World) (p : path) (b : bytes) (m : M unit) : Prop :=
  forall s, untouched p b s -> verdict w p b (m s).1 (m s).2.

(** A computation started where [P] holds ends where [Q] holds if it
    returns and where [E] holds if it raises. *)
Definition triple {A} (P : state -> Prop) (m : M A) (Q : A -> state -> Prop)
    (E : state -> Prop) : Prop :=
  forall s, P s ->
    match m s with
    | (Ok a, s') => Q a s'
    | (Raise _, s') => E s'
    end.

(** The file at [q] has the bytes [c]. *)
Definition holds (q : path) (c : bytes) (s : state) : Prop := fs s !! q = Some c.

(** A block that [parse_flac] decodes as STREAMINFO. *)
Definition is_streaminfo_34 (b : MetaBlock) : Prop :=
  mb_type b = 0 /\ mb_length b = 34.

(** The loop invariant behind the presence of [streaminfo]. *)
Definition streaminfo_tracks_blocks (s : walk_state) : Prop :=
  w_streaminfo s <> None <-> Exists is_streaminfo_34 (w_blocks s).

(** The files a repair may write while the original stays put, and the
    files a replacement may write. *)
Definition other_than (p q : path) : Prop := q <> p.
Definition any_file (q : path) : Prop := True.

Definition no_failed_candidate (p : path) (s : state) : Prop :=
  ~ failed_candidate p s.

(** ** Vocabulary for the statements about the walk *)

(** The sums [parse_flac] keeps while it appends blocks. *)
Definition meta_bytes (bl : list MetaBlock) : Z :=
  fold_right (fun b acc => mb_length b + 4 + acc) 0 bl.
Definition picture_bytes (bl : list MetaBlock) : Z :=
  fold_right (fun b acc => if mb_type b =? 6 then mb_length b + acc else acc) 0 bl.
Definition unknown_blocks (bl : list MetaBlock) : Z :=
  fold_right (fun b acc => if in_type_names (mb_type b) then acc else acc + 1) 0 bl.

(** Where the header after the block [b] is read: right after the payload
    that was skipped, or after as much of the 34 STREAMINFO bytes as the
    file still had. *)
Definition follows (b b' : MetaBlock) : Prop :=
  mb_offset b + 4 <= mb_offset b' /\
  (~ is_streaminfo_34 b -> mb_offset b' = mb_offset b + 4 + mb_length b) /\
  (is_streaminfo_34 b -> mb_offset b' <= mb_offset b + 38).

Fixpoint chained (bl : list MetaBlock) : Prop :=
  match bl with
  | b :: (b' :: _) as rest => follows b b' /\ chained rest
  | _ => True
  end.

(** A recorded block: its fields as the header bytes allow them, and the
    header inside a file of [size] bytes, after the magic. *)
Definition block_in_range (size : nat) (b : MetaBlock) : Prop :=
  0 <= mb_type b <= 127 /\ 0 <= mb_length b < 2 ^ 24 /\
  4 <= mb_offset b /\ mb_offset b + 4 <= Z.of_nat size.

Definition unmarked (b : MetaBlock) : Prop := mb_is_last b = false.

(** What the loop variables of [parse_flac] always satisfy. *)
Definition walk_shape (size : nat) (s : walk_state) : Prop :=
  w_total_meta s = meta_bytes (w_blocks s) /\
  w_picture_bytes s = picture_bytes (w_blocks s) /\
  w_unknown_cnt s = unknown_blocks (w_blocks s) /\
  Forall (block_in_range size) (w_blocks s) /\
  chained (w_blocks s) /\
  (forall b, head (w_blocks s) = Some b -> mb_offset b = 4).

(** Where the file position is when the next header is about to be read. *)
Definition walk_position (bs : list byte) (s : walk_state) : Prop :=
  h_data (w_file s) = bs /\
  match last (w_blocks s) with
  | None => h_pos (w_file s) = 4%nat
  | Some b =>
      mb_offset b + 4 <= Z.of_nat (h_pos (w_file s)) /\
      (is_streaminfo_34 b -> Z.of_nat (h_pos (w_file s)) <= mb_offset b + 38) /\
      (~ is_streaminfo_34 b ->
         Z.of_nat (h_pos (w_file s)) = mb_offset b + 4 + mb_length b)
  end.

(** The terminator flag and the blocks: the flag of the probe is set
    exactly when the last recorded block carries the is-last bit, and no
    earlier block carries it. *)
Definition marked_by_last (marked : bool) (bl : list MetaBlock) : Prop :=
  (marked = true /\
   exists bl' b, bl = bl' ++ [b] /\ mb_is_last b = true /\ Forall unmarked bl') \/
  (marked = false /\ Forall unmarked bl).

(** ** Vocabulary for the statements about outcomes *)

(** The file store is [files]. *)
Definition store_is (files : gmap path bytes) (s : state) : Prop := fs s = files.
Definition no_file (q : path) : Prop := False.

(** The decoder accepts, at some check, what the file at [p] holds. *)
Definition accepted (w : World) (p : path) (s : state) : Prop :=
  exists n, sf_import w n = None /\ sf_read w n (fs s !! p) = None.

(** A re-encoder is installed, or no tool at all: the installed tools do
    not leave the in-place strip as the only repair. *)
Definition no_strip (w : World) : Prop :=
  which w "ffmpeg" = true \/ which w "flac" = true \/ which w "metaflac" = false.

(** How a repair that was attempted can end when the body returns. *)
Definition repair_outcome (w : World) (p : path) (b : bytes) (s : state) : Prop :=
  (r_status (st_result s) = "FAIL" /\ (no_strip w -> original_kept p b s)) \/
  (r_status (st_result s) = "FIXED" /\ accepted w p s).

(** How [process_one_body] can end when it returns, for an original with
    bytes [b] in the store [files]. *)
Definition outcome (w : World) (p : path) (b : bytes) (files : gmap path bytes)
    (s : state) : Prop :=
  (r_status (st_result s) = "SKIP" /\ store_is files s /\ firstn 4 b <> magic) \/
  (r_status (st_result s) = "OK" /\ store_is files s /\ accepted w p s /\
   r_reasons (st_result s) = "（无）" /\ r_action (st_result s) = "skip") \/
  (r_status (st_result s) = "DRYRUN" /\ store_is files s) \/
  repair_outcome w p b s.

(** ** Vocabulary for the statements about [atomic_replace] *)

(** The sibling with [.old] appended to the name, which the fallback uses. *)
Definition old_sibling (dst : path) : path := parent dst ++ [name dst +:+ ".old"].

(** The candidate has been moved to the target: its bytes are there and
    the candidate path is empty. *)
Definition moved (src dst : path) (c : bytes) (s : state) : Prop :=
  fs s !! dst = Some c /\ fs s !! src = None.

(** ** The summary of [main] *)

(** [r['status'] in names] *)
Definition status_in (names : list string) (r : ProcessResult) : bool :=
  existsb (String.eqb (r_status r)) names.

(** [sum(1 for r in results if f(r))] *)
Fixpoint count_if (f : ProcessResult -> bool) (results : list ProcessResult) : nat :=
  match results with
  | [] => 0%nat
  | r :: rest => ((if f r then 1 else 0) + count_if f rest)%nat
  end.

Record Summary := mkSummary {
  sm_total : nat;
  sm_ok : nat;
  sm_fixed : nat;
  sm_fail : nat
}.

(** The four numbers of the summary line. *)
Definition summary (results : list ProcessResult) : Summary :=
  mkSummary (length results)
    (count_if (status_in ["OK"; "DRYRUN"]) results)
    (count_if (fun r => String.eqb (r_status r) "FIXED") results)
    (count_if (status_in ["FAIL"; "ERROR"]) results).

(** ** Vocabulary for the statements about the files of a run *)

(** Where [--backup] copies the original. *)
Definition backup_path (args : Args) (p : path) : path :=
  a_backup_dir args ++ [name p].

(** Nothing exists at [q]. *)
Definition absent (q : path) (s : state) : Prop := fs s !! q = None.

(** ** Re-encoding of the packed fields *)

Definition byte_of_Z (z : Z) : byte :=
  default x00 (Byte.of_N (Z.to_N (z mod 256))).

(** [x.to_bytes(n, 'big')] *)
Definition int_to_bytes_big (n : nat) (x : Z) : list byte :=
  map (fun i => byte_of_Z (x / 256 ^ Z.of_nat i)) (rev (seq 0 n)).

(** Modelled from the spec: the re-encoder of the round-trip property in
    section 8, which the source does not contain.  It packs the four fields
    of a [StreamInfo] in the STREAMINFO layout (20, 3, 5 and 36 bits, the
    channel count and the bit depth stored less one) and writes the 64-bit
    word big-endian. *)
Definition encode_streaminfo (si : StreamInfo) : list byte :=
  int_to_bytes_big 8
    (Z.shiftl (sample_rate si) 44 + Z.shiftl (channels si - 1) 41
     + Z.shiftl (bits_per_sample si - 1) 36 + total_samples si).

(** ** Sample files *)

(** A PADDING block followed by a last, 34-byte STREAMINFO block. *)
Definition padding_then_streaminfo : bytes :=
  magic ++ [x01; x00; x00; x00] ++ [x80; x00; x00; x22] ++ repeat x00 34.

(** A STREAMINFO block, a last PICTURE block with a 1-byte payload, and two
    bytes of audio. *)
Definition cover_heavy_file : bytes :=
  magic ++ [x00; x00; x00; x22] ++ repeat x00 34
        ++ [x86; x00; x00; x01; x00] ++ [xff; xf8].

(** What the tools of the sample environments write: the magic and a last
    STREAMINFO block, no audio. *)
Definition rewritten_file : bytes :=
  magic ++ [x80; x00; x00; x22] ++ repeat x00 34.

Definition song : path := ["music"; "a.flac"].

(** ** Sample environments *)

(** Nothing fails, nothing is installed, the decoder accepts everything. *)
Definition quiet_world : World :=
  mkWorld (fun _ => None) (fun _ => None) (fun _ => "tmp0")
    (fun _ _ _ => mkToolResult 0 None) (fun _ => None) (fun _ _ => None).

(** Only [metaflac] is installed. *)
Definition metaflac_only (cmd : string) : option string :=
  if String.eqb cmd "metaflac" then Some "/usr/bin/metaflac" else None.

(** Only [metaflac] is installed; what it leaves of the file is refused by
    the decoder. *)
Definition strip_then_unreadable : World :=
  mkWorld (fun _ => None) metaflac_only (fun _ => "tmp0")
    (fun _ _ _ => mkToolResult 0 (Some rewritten_file)) (fun _ => None)
    (fun _ content =>
       if decide (content = Some rewritten_file)
       then Some (mkExn (OtherException "LibsndfileError")
                    "Error opening: Format not recognised.")
       else None).

(** [--max-cover-mb 0], every switch off. *)
Definition no_cover_args : Args :=
  mkArgs false false ["bak"] false (FFinite 0 0) (FFinite 8 0).

(** Nothing is installed and the [n]-th effect fails with [e]. *)
Definition failing_at (n : nat) (e : exn) (which_tool : string -> option string)
    : World :=
  mkWorld (fun k => if (k =? n)%nat then Some e else None) which_tool
    (fun _ => "tmp0") (fun _ _ _ => mkToolResult 0 (Some rewritten_file))
    (fun _ => None) (fun _ _ => None).

(** Only [ffmpeg] is installed; what it writes is refused by the decoder. *)
Definition ffmpeg_only (cmd : string) : option string :=
  if String.eqb cmd "ffmpeg" then Some "/usr/bin/ffmpeg" else None.

Definition reencode_then_unreadable : World :=
  mkWorld (fun _ => None) ffmpeg_only (fun _ => "tmp0")
    (fun _ _ _ => mkToolResult 0 (Some rewritten_file)) (fun _ => None)
    (fun _ content =>
       if decide (content = Some rewritten_file)
       then Some (mkExn (OtherException "LibsndfileError")
                    "Error opening: Format not recognised.")
       else None).

(** [--backup --backup-dir bak --max-cover-mb 0] *)
Definition backup_args : Args :=
  mkArgs false true ["bak"] false (FFinite 0 0) (FFinite 8 0).

(** * Properties *)

(** ** The metadata walk *)

Section WalkFacts.

Lemma walk_S (fuel : nat) (s : walk_state) :
  walk (S fuel) s =
  match walk_step s with inl final => Some final | inr s' => walk fuel s' end.
Proof. reflexivity. Qed.

(** A pass that goes round again has read a whole header inside the file
    and left the position at least four bytes further. *)
Lemma walk_step_consumes (s s' : walk_state) :
  walk_step s = inr s' ->
  h_data (w_file s') = h_data (w_file s) /\
  (h_pos (w_file s) + 4 <= length (h_data (w_file s)))%nat /\
  (h_pos (w_file s) + 4 <= h_pos (w_file s'))%nat.
Proof.
  unfold walk_step, f_read. cbn zeta.
  destruct (firstn 4 (skipn (h_pos (w_file s)) (h_data (w_file s)))) as
    [|b0 [|b1 [|b2 [|b3 [|b4 rest]]]]] eqn:Hhdr; try discriminate.
  assert (Hlen : length (firstn 4 (skipn (h_pos (w_file s)) (h_data (w_file s)))) = 4%nat)
    by (rewrite Hhdr; reflexivity).
  rewrite length_firstn, length_skipn in Hlen.
  destruct ((Z.land (byte_val b0) 127 =? 0) && _);
    destruct (negb (Z.land (byte_val b0) 128 =? 0)); try discriminate;
    intros [= <-]; cbn; repeat split; lia.
Qed.

Lemma walk_enough (fuel : nat) : forall s,
  (length (h_data (w_file s)) - h_pos (w_file s) < 4 * fuel)%nat ->
  exists final, walk fuel s = Some final.
Proof.
  induction fuel as [|fuel IH]; intros s Hfuel; [lia|].
  rewrite walk_S. destruct (walk_step s) as [final|s'] eqn:Hstep; [eauto|].
  apply walk_step_consumes in Hstep as (Hdata & Hin & Hadv).
  apply IH. rewrite Hdata. lia.
Qed.

Lemma walk_more_fuel (fuel fuel' : nat) : forall s final,
  walk fuel s = Some final -> (fuel <= fuel')%nat -> walk fuel' s = Some final.
Proof.
  revert fuel'. induction fuel as [|fuel IH]; intros fuel' s final; [discriminate|].
  destruct fuel' as [|fuel']; [lia|]. rewrite !walk_S.
  destruct (walk_step s); [easy|]. intros H Hle. apply (IH fuel'); [easy|lia].
Qed.

Lemma parse_flac_fuel_enough (bs : bytes) (fuel : nat) :
  (length bs <= 4 * fuel)%nat ->
  parse_flac_fuel fuel bs = Some (parse_flac_bytes bs).
Proof.
  intros Hfuel. unfold parse_flac_bytes, parse_flac_fuel, f_read. cbn.
  change (skipn 0 bs) with bs.
  destruct (decide (firstn 4 bs = magic)) as [Hmagic|]; [|reflexivity].
  assert (Hlen : (4 <= length bs)%nat).
  { apply (f_equal length) in Hmagic. rewrite length_firstn in Hmagic.
    change (length magic) with 4%nat in Hmagic. lia. }
  rewrite Hmagic. cbn [length Nat.add].
  set (s0 := mkWalk _ _ _ _ _ _ _).
  destruct (walk_enough (length bs) s0) as [final Hfinal]; [cbn; lia|].
  rewrite Hfinal.
  destruct (walk_enough fuel s0) as [final' Hfinal']; [cbn; lia|].
  rewrite Hfinal'. cbn.
  destruct (Nat.le_ge_cases fuel (length bs)) as [Hle|Hle].
  - rewrite (walk_more_fuel _ _ _ _ Hfinal' Hle) in Hfinal. congruence.
  - rewrite (walk_more_fuel _ _ _ _ Hfinal Hle) in Hfinal'. congruence.
Qed.

End WalkFacts.

(** C10: on every finite byte sequence the parser returns a probe.  One
    loop iteration per four bytes of the file is enough fuel for the walk
    to reach its [break], because an iteration that goes round again has
    read a complete 4-byte header inside the file and left the position at
    least four bytes further on (whatever the payload length, zero or past
    the end of the file).  Nothing in the parser can raise: a short read
    yields a short list. *)
Theorem parse_flac_terminates (bs : bytes) :
  (forall fuel, (length bs <= 4 * fuel)%nat ->
     parse_flac_fuel fuel bs = Some (parse_flac_bytes bs)) /\
  (forall s s', walk_step s = inr s' ->
     (h_pos (w_file s) + 4 <= length (h_data (w_file s)))%nat /\
     (h_pos (w_file s) + 4 <= h_pos (w_file s'))%nat).
Proof.
  split.
  - intros fuel. apply parse_flac_fuel_enough.
  - intros s s' Hstep. apply walk_step_consumes in Hstep. tauto.
Qed.

Lemma parse_flac_terminates_witness :
  parse_flac_fuel 3 (magic ++ [x01; x00; x00; x00; x81; x00; x00; x00]) =
  Some (parse_flac_bytes (magic ++ [x01; x00; x00; x00; x81; x00; x00; x00])).
Proof.
  apply (proj1 (parse_flac_terminates _) 3%nat). cbn. lia.
Defined.

(** The cases the walk has to survive, on small files: zero-length blocks,
    a header cut short, a STREAMINFO payload cut short, and a payload
    length that points past the end of the file. *)
Example walk_zero_length_blocks :
  let p := parse_flac_bytes (magic ++ [x01; x00; x00; x00; x81; x00; x00; x00]) in
  map mb_length (blocks p) = [0; 0] /\ last_block_marked p = true.
Proof. vm_compute. split; reflexivity. Qed.

Example walk_short_header :
  let p := parse_flac_bytes (magic ++ [x01; x00; x00; x00; x81; x00]) in
  map mb_offset (blocks p) = [4] /\ last_block_marked p = false.
Proof. vm_compute. split; reflexivity. Qed.

Example walk_truncated_streaminfo :
  let p := parse_flac_bytes (magic ++ [x00; x00; x00; x22] ++ repeat xff 12) in
  streaminfo p = Some (mkStreamInfo 0 1 1 65535) /\ last_block_marked p = false.
Proof. vm_compute. split; reflexivity. Qed.

Example walk_seek_past_eof :
  let p := parse_flac_bytes (magic ++ [x04; xff; xff; xff; x00]) in
  map mb_length (blocks p) = [16777215] /\
  total_meta_bytes_with_headers p = 16777219 /\ last_block_marked p = false.
Proof. vm_compute. repeat split; reflexivity. Qed.

(** ** STREAMINFO presence *)

Lemma walk_step_streaminfo (s : walk_state) :
  streaminfo_tracks_blocks s ->
  match walk_step s with
  | inl s' | inr s' => streaminfo_tracks_blocks s'
  end.
Proof.
  unfold streaminfo_tracks_blocks, walk_step, f_read. cbn zeta. intros Hinv.
  destruct (firstn 4 (skipn (h_pos (w_file s)) (h_data (w_file s)))) as
    [|b0 [|b1 [|b2 [|b3 [|b4 rest]]]]]; try exact Hinv.
  set (btype := Z.land (byte_val b0) 127).
  set (len := Z.lor _ (byte_val b3)).
  assert (Hnew : forall (si : option StreamInfo) is_last,
    (si <> None <-> (w_streaminfo s <> None \/ (btype = 0 /\ len = 34))) ->
    si <> None <->
    Exists is_streaminfo_34 (w_blocks s ++ [mkMetaBlock btype len
      (f_tell (mkHandle (h_data (w_file s)) (h_pos (w_file s) + length [b0; b1; b2; b3])) - 4)
      is_last])).
  { intros si is_last ->. rewrite Exists_app, Exists_cons, Exists_nil, Hinv.
    unfold is_streaminfo_34. cbn. tauto. }
  destruct (btype =? 0) eqn:Ht; destruct (len =? 34) eqn:Hl; cbn [andb];
    destruct (negb (Z.land (byte_val b0) 128 =? 0)); cbn;
    apply Hnew; split; try (intros _; right; lia); try tauto;
    try (intros _; discriminate); try (intros [H|[H1 H2]]; [exact H|lia]).
Qed.

Lemma walk_streaminfo (fuel : nat) : forall s final,
  streaminfo_tracks_blocks s -> walk fuel s = Some final ->
  streaminfo_tracks_blocks final.
Proof.
  induction fuel as [|fuel IH]; intros s final Hinv; [discriminate|].
  rewrite walk_S. pose proof (walk_step_streaminfo s Hinv) as Hstep.
  destruct (walk_step s) as [s'|s'].
  - intros [= <-]. exact Hstep.
  - apply IH, Hstep.
Qed.

Lemma parse_flac_streaminfo (bs : bytes) :
  streaminfo (parse_flac_bytes bs) <> None <->
  Exists is_streaminfo_34 (blocks (parse_flac_bytes bs)).
Proof.
  pose proof (parse_flac_fuel_enough bs (length bs) ltac:(lia)) as Hrun.
  destruct (parse_flac_bytes bs) as [o r f b si t pb u l].
  unfold parse_flac_fuel in Hrun. cbn [streaminfo blocks].
  destruct (f_read 4 _) as [head f0].
  destruct (decide (head = magic)).
  - destruct (walk _ _) as [final|] eqn:Hwalk; [|discriminate].
    cbn in Hrun. injection Hrun as <- <- <- <- <- <- <- <- <-.
    refine (walk_streaminfo _ _ _ _ Hwalk).
    unfold streaminfo_tracks_blocks. cbn. rewrite Exists_nil. tauto.
  - injection Hrun as <- <- <- <- <- <- <- <- <-. rewrite Exists_nil. tauto.
Qed.

(** C3 (as amended): [streaminfo] is present exactly when some block that
    the walk recorded, the first or a later one, has type 0 and payload
    length 34; so it is present when the first block is such a block, and
    absent when no recorded block is. *)
Theorem streaminfo_present_iff_some_block (bs : bytes) :
  let p := parse_flac_bytes bs in
  (streaminfo p <> None <-> Exists is_streaminfo_34 (blocks p)) /\
  (forall b, head (blocks p) = Some b -> is_streaminfo_34 b ->
     streaminfo p <> None).
Proof.
  cbn zeta. split; [apply parse_flac_streaminfo|].
  intros b Hhead Hb. apply parse_flac_streaminfo.
  destruct (blocks (parse_flac_bytes bs)) as [|b' bl]; [discriminate|].
  injection Hhead as ->. apply Exists_cons_hd, Hb.
Qed.

Lemma streaminfo_present_iff_some_block_witness :
  streaminfo (parse_flac_bytes (magic ++ [x80; x00; x00; x22] ++ repeat x00 34))
  <> None.
Proof.
  apply (proj2 (streaminfo_present_iff_some_block
                  (magic ++ [x80; x00; x00; x22] ++ repeat x00 34))
               (mkMetaBlock 0 34 4 true)).
  - reflexivity.
  - split; reflexivity.
Defined.

(** C3 (as stated) fails: here the first block is a PADDING block, and the
    STREAMINFO block that follows it is decoded all the same. *)
Lemma streaminfo_after_padding :
  let p := parse_flac_bytes padding_then_streaminfo in
  head (blocks p) = Some (mkMetaBlock 1 0 4 false) /\
  ~ is_streaminfo_34 (mkMetaBlock 1 0 4 false) /\
  streaminfo p = Some (mkStreamInfo 0 1 1 0).
Proof.
  vm_compute. split; [reflexivity|]. split; [|reflexivity].
  intros [H _]. discriminate H.
Qed.

(** ** The packed field region *)

Lemma byte_val_range (b : byte) : 0 <= byte_val b < 256.
Proof.
  unfold byte_val. pose proof (Byte.to_N_bounded b). lia.
Qed.

Lemma byte_of_Z_val (b : byte) : byte_of_Z (byte_val b) = b.
Proof.
  unfold byte_of_Z. rewrite Z.mod_small by apply byte_val_range.
  unfold byte_val. rewrite N2Z.id, Byte.of_to_N. reflexivity.
Qed.

Lemma byte_of_Z_mod (z : Z) : byte_of_Z (z mod 256) = byte_of_Z z.
Proof. unfold byte_of_Z. rewrite Z.mod_mod by lia. reflexivity. Qed.

Lemma int_from_bytes_big_8 (b0 b1 b2 b3 b4 b5 b6 b7 : byte) :
  int_from_bytes_big [b0; b1; b2; b3; b4; b5; b6; b7] =
  ((((((byte_val b0 * 256 + byte_val b1) * 256 + byte_val b2) * 256
      + byte_val b3) * 256 + byte_val b4) * 256 + byte_val b5) * 256
      + byte_val b6) * 256 + byte_val b7.
Proof. reflexivity. Qed.

Lemma int_to_from_bytes_big_8 (a : list byte) :
  length a = 8%nat -> int_to_bytes_big 8 (int_from_bytes_big a) = a.
Proof.
  destruct a as [|b0 [|b1 [|b2 [|b3 [|b4 [|b5 [|b6 [|b7 [|b8 rest]]]]]]]]];
    try discriminate.
  intros _. rewrite int_from_bytes_big_8.
  pose proof (byte_val_range b0). pose proof (byte_val_range b1).
  pose proof (byte_val_range b2). pose proof (byte_val_range b3).
  pose proof (byte_val_range b4). pose proof (byte_val_range b5).
  pose proof (byte_val_range b6). pose proof (byte_val_range b7).
  unfold int_to_bytes_big. cbn [seq rev app map].
  repeat match goal with
  | |- (byte_of_Z ?e :: _) = (?b :: _) =>
      replace (byte_of_Z e) with (byte_of_Z (byte_val b));
      [rewrite byte_of_Z_val; f_equal
      |rewrite <- (byte_of_Z_mod e); f_equal;
       change (Z.of_nat 7) with 7; change (Z.of_nat 6) with 6;
       change (Z.of_nat 5) with 5; change (Z.of_nat 4) with 4;
       change (Z.of_nat 3) with 3; change (Z.of_nat 2) with 2;
       change (Z.of_nat 1) with 1; change (Z.of_nat 0) with 0;
       Z.div_mod_to_equations; lia]
  end.
Qed.

Lemma int_from_bytes_big_bound (a : list byte) :
  0 <= int_from_bytes_big a < 256 ^ Z.of_nat (length a).
Proof.
  unfold int_from_bytes_big.
  assert (H : forall acc, 0 <= acc ->
            0 <= fold_left (fun acc b => acc * 256 + byte_val b) a acc
            < (acc + 1) * 256 ^ Z.of_nat (length a)).
  { induction a as [|b a IH]; intros acc Hacc; [cbn; lia|].
    cbn [fold_left length]. pose proof (byte_val_range b).
    specialize (IH (acc * 256 + byte_val b) ltac:(lia)).
    rewrite Nat2Z.inj_succ, Z.pow_succ_r by lia. nia. }
  specialize (H 0 ltac:(lia)). lia.
Qed.

Lemma fields_repack (x : Z) :
  0 <= x < 2 ^ 64 ->
  Z.shiftl (Z.land (Z.shiftr x (3 + 5 + 36)) (Z.shiftl 1 20 - 1)) 44
  + Z.shiftl (Z.land (Z.shiftr x (5 + 36)) 7 + 1 - 1) 41
  + Z.shiftl (Z.land (Z.shiftr x 36) 31 + 1 - 1) 36
  + Z.land x (Z.shiftl 1 36 - 1) = x.
Proof.
  intros Hx.
  change (Z.shiftl 1 20 - 1) with (Z.ones 20).
  change (Z.shiftl 1 36 - 1) with (Z.ones 36).
  change 7 with (Z.ones 3). change 31 with (Z.ones 5).
  rewrite !Z.land_ones, !Z.shiftr_div_pow2, !Z.shiftl_mul_pow2 by lia.
  change (3 + 5 + 36) with 44. change (5 + 36) with 41.
  change (2 ^ 44) with 17592186044416. change (2 ^ 41) with 2199023255552.
  change (2 ^ 36) with 68719476736. change (2 ^ 20) with 1048576.
  change (2 ^ 3) with 8. change (2 ^ 5) with 32.
  change (2 ^ 64) with 18446744073709551616 in Hx.
  Z.div_mod_to_equations. lia.
Qed.

Lemma length_slice_10_18 (data : list byte) :
  length data = 34%nat -> length (slice 10 18 data) = 8%nat.
Proof.
  intros H. unfold slice. rewrite length_firstn, length_skipn, H. reflexivity.
Qed.

(** C8 (as amended): for a STREAMINFO payload of exactly 34 bytes, decoding
    the packed fields and re-encoding them reproduces the 8 raw bytes the
    fields are read from, [data[10:18]] (64 bits, not 18 bytes). *)
Theorem streaminfo_fields_roundtrip (data : list byte) :
  length data = 34%nat ->
  encode_streaminfo (decode_streaminfo data) = slice 10 18 data.
Proof.
  intros Hlen. apply length_slice_10_18 in Hlen.
  unfold encode_streaminfo, decode_streaminfo.
  cbn [sample_rate channels bits_per_sample total_samples].
  pose proof (int_from_bytes_big_bound (slice 10 18 data)) as Hx.
  rewrite Hlen in Hx. change (256 ^ Z.of_nat 8) with (2 ^ 64) in Hx.
  rewrite (fields_repack _ Hx). apply int_to_from_bytes_big_8, Hlen.
Qed.

Lemma streaminfo_fields_roundtrip_witness :
  encode_streaminfo (decode_streaminfo (repeat xa5 34)) = repeat xa5 8.
Proof.
  apply (streaminfo_fields_roundtrip (repeat xa5 34)). reflexivity.
Defined.

(** C8 (as stated) fails: 18 raw bytes cannot come back from the four
    fields.  Whatever the re-encoder and whichever 18-byte window of the
    payload is meant, two payloads that differ only outside [data[10:18]]
    decode to the same fields. *)
Lemma no_encoder_restores_18_bytes :
  ~ exists (enc : StreamInfo -> list byte) (first : nat),
      (first + 18 <= 34)%nat /\
      forall data, length data = 34%nat ->
        enc (decode_streaminfo data) = slice first (first + 18) data.
Proof.
  intros (enc & first & Hwin & Henc).
  pose proof (Henc (repeat x00 34) eq_refl) as H0.
  assert (Hcase : (first <= 9 \/ 10 <= first <= 16)%nat) by lia.
  destruct Hcase as [Hlow|Hhigh].
  - pose proof (Henc (repeat x00 first ++ [x01] ++ repeat x00 (33 - first))) as H1.
    do 10 (destruct first as [|first];
           [specialize (H1 eq_refl); vm_compute in H0, H1;
            rewrite H0 in H1; discriminate H1|]).
    lia.
  - pose proof (Henc (repeat x00 (first + 17) ++ [x01]
                        ++ repeat x00 (16 - first))) as H1.
    do 17 (destruct first as [|first];
           [try lia; specialize (H1 eq_refl); vm_compute in H0, H1;
            rewrite H0 in H1; discriminate H1|]).
    lia.
Qed.

(** ** The repair decision *)

Lemma round_half_even_le (num den : Z) :
  0 < den -> round_half_even num den * den <= num + den.
Proof.
  intros Hden. unfold round_half_even.
  pose proof (Z.div_mod num den ltac:(lia)) as Hdm.
  pose proof (Z.mod_pos_bound num den Hden) as Hmod.
  repeat match goal with |- context [if ?c then _ else _] => destruct c end; nia.
Qed.

Lemma float_of_int_ok (n : Z) :
  Z.abs n < 2 ^ 1023 -> exists v, float_of_int n = Ok v.
Proof.
  intros Hn. unfold float_of_int.
  set (a := Z.abs n) in *. set (sh := Z.max 0 (Z.log2 a - 52)).
  assert (Hsh : 0 <= sh) by (unfold sh; lia).
  assert (Hd : 0 < 2 ^ sh) by (apply Z.pow_pos_nonneg; lia).
  assert (Hda : 2 ^ sh <= Z.max 1 a).
  { destruct (Z.le_gt_cases (Z.log2 a - 52) 0) as [Hle|Hgt].
    - replace sh with 0 by (unfold sh; lia). change (2 ^ 0) with 1. lia.
    - assert (Ha : 0 < a).
      { destruct (Z.le_gt_cases a 0) as [H0|H0]; [|lia].
        rewrite (Z.log2_nonpos a H0) in Hgt. lia. }
      pose proof (Z.log2_spec a Ha) as [Hlo _].
      assert (2 ^ sh <= 2 ^ Z.log2 a)
        by (apply Z.pow_le_mono_r; unfold sh; lia).
      lia. }
  pose proof (round_half_even_le a (2 ^ sh) Hd) as Hr.
  assert (Hpow : 2 ^ 1024 = 2 * 2 ^ 1023) by reflexivity.
  destruct (2 ^ 1024 <=? round_half_even a (2 ^ sh) * 2 ^ sh) eqn:Hov; [|eauto].
  apply Z.leb_le in Hov. lia.
Qed.

Lemma human_bytes_ok (n : Z) :
  Z.abs n < 2 ^ 1023 -> human_bytes n = Ok (size_text n).
Proof.
  intros Hn. unfold size_text, human_bytes.
  destruct (float_of_int_ok n Hn) as [v ->]. cbn.
  repeat match goal with |- context [if ?c then _ else _] => destruct c end;
    reflexivity.
Qed.

Lemma size_text_ok (n : Z) (s : string) :
  human_bytes n = Ok s -> size_text n = s.
Proof. unfold size_text. intros ->. reflexivity. Qed.

Section DecideFacts.
Context (w : World).

(** What a returned plan looks like. *)
Lemma decide_fix_inv probe decode_ok keep thr_mb maxc plan :
  decide_fix w probe decode_ok keep thr_mb maxc = Ok plan ->
  exists threshold,
    py_int (fmul_1024 (fmul_1024 thr_mb)) = Ok threshold /\
    reasons plan =
      map snd (List.filter fst (anomaly_checks probe decode_ok threshold maxc)) /\
    needs_fix plan = (0 <? length (reasons plan))%nat /\
    action plan = chosen_action w (needs_fix plan) (reasons plan) /\
    ((maxc <? picture_bytes_total probe) = true ->
       (exists s, human_bytes (picture_bytes_total probe) = Ok s) /\
       (exists s, human_bytes maxc = Ok s)).
Proof.
  unfold decide_fix, anomaly_checks, chosen_action.
  destruct (py_int _) as [threshold|e]; [|discriminate]. cbn [mbind result_bind].
  intros H. exists threshold. split; [reflexivity|].
  destruct (threshold <? total_meta_bytes_with_headers probe);
    [destruct (human_bytes (total_meta_bytes_with_headers probe)) as [sz|] eqn:Hsz;
       [rewrite (size_text_ok _ _ Hsz)|discriminate]|];
    (destruct (maxc <? picture_bytes_total probe);
      [destruct (human_bytes (picture_bytes_total probe)) as [psz|] eqn:Hpsz;
         [rewrite (size_text_ok _ _ Hpsz)|discriminate];
       destruct (human_bytes maxc) as [cap|] eqn:Hcap;
         [rewrite (size_text_ok _ _ Hcap)|discriminate]|]);
    cbn [mbind result_bind] in H; injection H as <-;
    cbn [reasons needs_fix action];
    destruct decode_ok, (0 <? unknown_block_count probe),
      (last_block_marked probe); cbn [negb List.filter fst snd map app];
    repeat split; eauto; discriminate.
Qed.

(** When [decide_fix] returns. *)
Lemma decide_fix_ok probe decode_ok keep thr_mb maxc threshold :
  py_int (fmul_1024 (fmul_1024 thr_mb)) = Ok threshold ->
  ((threshold <? total_meta_bytes_with_headers probe) = true ->
     exists s, human_bytes (total_meta_bytes_with_headers probe) = Ok s) ->
  ((maxc <? picture_bytes_total probe) = true ->
     (exists s, human_bytes (picture_bytes_total probe) = Ok s) /\
     (exists s, human_bytes maxc = Ok s)) ->
  exists plan, decide_fix w probe decode_ok keep thr_mb maxc = Ok plan.
Proof.
  intros Hthr Hmeta Hcover. unfold decide_fix. rewrite Hthr.
  cbn [mbind result_bind].
  destruct (threshold <? total_meta_bytes_with_headers probe);
    [destruct (Hmeta eq_refl) as [sz ->]|];
    (destruct (maxc <? picture_bytes_total probe);
      [destruct (Hcover eq_refl) as [[psz ->] [cap ->]]|]);
    cbn [mbind result_bind]; eauto.
Qed.

End DecideFacts.

Lemma is_meta_reason_decode : is_meta_reason reason_decode = false.
Proof. reflexivity. Qed.
Lemma is_meta_reason_unknown n : is_meta_reason (reason_unknown n) = false.
Proof. reflexivity. Qed.
Lemma is_meta_reason_not_last : is_meta_reason reason_not_last = false.
Proof. reflexivity. Qed.
Lemma is_meta_reason_meta s : is_meta_reason (reason_meta s) = true.
Proof. reflexivity. Qed.
Lemma is_meta_reason_cover s c : is_meta_reason (reason_cover s c) = false.
Proof. reflexivity. Qed.

(** C5: [decide_fix] evaluates the five anomaly checks independently.  The
    reasons of a returned plan are the texts of exactly the checks that
    apply, in the fixed detection order (decode failure, unknown blocks,
    missing terminator, oversized metadata, oversized cover), and
    [needs_fix] holds exactly when that list is not empty.  A plan is
    returned whenever the threshold is a finite number and the sizes are
    in the range of a float. *)
Theorem decide_fix_records_all_checks (w : World) (probe : FlacProbe)
    (decode_ok keep : bool) (thr_mb : pyfloat) (maxc : Z) :
  (forall plan, decide_fix w probe decode_ok keep thr_mb maxc = Ok plan ->
     exists threshold,
       py_int (fmul_1024 (fmul_1024 thr_mb)) = Ok threshold /\
       reasons plan =
         map snd (List.filter fst (anomaly_checks probe decode_ok threshold maxc)) /\
       (forall c t, In (c, t) (anomaly_checks probe decode_ok threshold maxc) ->
          c = true -> In t (reasons plan)) /\
       (needs_fix plan = true <-> reasons plan <> [])) /\
  (forall threshold,
     py_int (fmul_1024 (fmul_1024 thr_mb)) = Ok threshold ->
     Z.abs (total_meta_bytes_with_headers probe) < 2 ^ 1023 ->
     Z.abs (picture_bytes_total probe) < 2 ^ 1023 ->
     Z.abs maxc < 2 ^ 1023 ->
     exists plan, decide_fix w probe decode_ok keep thr_mb maxc = Ok plan).
Proof.
  split.
  - intros plan Hplan.
    destruct (decide_fix_inv w _ _ _ _ _ _ Hplan)
      as (threshold & Hthr & Hreasons & Hneeds & _).
    exists threshold. repeat split; try assumption.
    + intros c t Hin ->. rewrite Hreasons.
      apply (in_map snd _ (true, t)), filter_In. split; [exact Hin|reflexivity].
    + rewrite Hneeds. destruct (reasons plan); [discriminate|easy].
    + rewrite Hneeds. destruct (reasons plan); [easy|reflexivity].
  - intros threshold Hthr Htotal Hpic Hmaxc.
    apply (decide_fix_ok w _ _ _ _ _ threshold Hthr);
      intros _; repeat split; eauto using human_bytes_ok.
Qed.

Lemma decide_fix_records_all_checks_witness :
  exists plan,
    decide_fix quiet_world
      (mkFlacProbe true "OK" true [] None 100 3000000 2 false) false true
      (FFinite 1 (-30)) 1000 = Ok plan.
Proof.
  apply (proj2 (decide_fix_records_all_checks _ _ _ _ _ _) 0).
  - reflexivity.
  - cbn. lia.
  - cbn. lia.
  - cbn. lia.
Defined.

(** C9: raising the metadata threshold strictly above the file's
    [total_meta_bytes_with_headers], all else equal, removes the
    oversized-metadata reason: the new plan has the old reasons without
    that one, and none of its reasons is the oversized-metadata text. *)
Theorem raising_threshold_removes_meta_reason (w : World) (probe : FlacProbe)
    (decode_ok keep : bool) (thr_mb thr_mb' : pyfloat) (maxc threshold' : Z)
    (plan : FixPlan) :
  decide_fix w probe decode_ok keep thr_mb maxc = Ok plan ->
  py_int (fmul_1024 (fmul_1024 thr_mb')) = Ok threshold' ->
  total_meta_bytes_with_headers probe < threshold' ->
  exists plan',
    decide_fix w probe decode_ok keep thr_mb' maxc = Ok plan' /\
    reasons plan' = List.filter (fun r => negb (is_meta_reason r)) (reasons plan) /\
    forallb (fun r => negb (is_meta_reason r)) (reasons plan') = true.
Proof.
  intros Hplan Hthr' Hraise.
  destruct (decide_fix_inv w _ _ _ _ _ _ Hplan)
    as (threshold & Hthr & Hreasons & _ & _ & Hcover).
  assert (Hoff : (threshold' <? total_meta_bytes_with_headers probe) = false)
    by (apply Z.ltb_ge; lia).
  destruct (decide_fix_ok w probe decode_ok keep thr_mb' maxc threshold' Hthr')
    as [plan' Hplan']; [rewrite Hoff; discriminate|exact Hcover|].
  exists plan'. split; [exact Hplan'|].
  destruct (decide_fix_inv w _ _ _ _ _ _ Hplan')
    as (t' & Ht' & Hreasons' & _).
  rewrite Hthr' in Ht'. injection Ht' as <-.
  rewrite Hreasons', Hreasons. unfold anomaly_checks. rewrite Hoff.
  destruct decode_ok, (0 <? unknown_block_count probe),
    (last_block_marked probe), (threshold <? total_meta_bytes_with_headers probe),
    (maxc <? picture_bytes_total probe);
    cbn [negb List.filter fst snd map forallb andb];
    rewrite ?is_meta_reason_decode, ?is_meta_reason_unknown,
      ?is_meta_reason_not_last, ?is_meta_reason_meta, ?is_meta_reason_cover;
    cbn [negb List.filter fst snd map forallb andb];
    rewrite ?is_meta_reason_decode, ?is_meta_reason_unknown,
      ?is_meta_reason_not_last, ?is_meta_reason_meta, ?is_meta_reason_cover;
    split; reflexivity.
Qed.

Lemma raising_threshold_removes_meta_reason_witness :
  exists plan',
    decide_fix quiet_world (mkFlacProbe true "OK" true [] None 9000000 0 0 true)
      true false (FFinite 9 0) 1572864 = Ok plan' /\
    reasons plan' =
      List.filter (fun r => negb (is_meta_reason r)) [reason_meta "8.6MB"] /\
    forallb (fun r => negb (is_meta_reason r)) (reasons plan') = true.
Proof.
  apply (raising_threshold_removes_meta_reason quiet_world
           (mkFlacProbe true "OK" true [] None 9000000 0 0 true)
           true false (FFinite 8 0) (FFinite 9 0) 1572864 9437184
           (mkFixPlan true [reason_meta "8.6MB"] "skip" false)).
  - reflexivity.
  - reflexivity.
  - cbn. lia.
Defined.

(** C4: when the cover is over the cap and every other check passes, and
    [metaflac] is installed while neither [ffmpeg] nor [flac] is,
    [decide_fix] returns the strip action [metaflac], not [skip]. *)
Theorem cover_only_prefers_strip (w : World) (probe : FlacProbe) (keep : bool)
    (thr_mb : pyfloat) (threshold maxc : Z) :
  which w "metaflac" = true -> which w "ffmpeg" = false ->
  which w "flac" = false ->
  maxc < picture_bytes_total probe ->
  unknown_block_count probe <= 0 ->
  last_block_marked probe = true ->
  py_int (fmul_1024 (fmul_1024 thr_mb)) = Ok threshold ->
  total_meta_bytes_with_headers probe <= threshold ->
  Z.abs (picture_bytes_total probe) < 2 ^ 1023 ->
  Z.abs maxc < 2 ^ 1023 ->
  exists plan,
    decide_fix w probe true keep thr_mb maxc = Ok plan /\
    action plan = "metaflac" /\
    needs_fix plan = true /\
    reasons plan = [reason_cover (size_text (picture_bytes_total probe))
                                 (size_text maxc)].
Proof.
  intros Hmeta Hffmpeg Hflac Hcover Hunknown Hlast Hthr Htotal Hpic Hmaxc.
  assert (Hc1 : (maxc <? picture_bytes_total probe) = true) by (apply Z.ltb_lt; lia).
  assert (Hc2 : (threshold <? total_meta_bytes_with_headers probe) = false)
    by (apply Z.ltb_ge; lia).
  assert (Hc3 : (0 <? unknown_block_count probe) = false) by (apply Z.ltb_ge; lia).
  destruct (decide_fix_ok w probe true keep thr_mb maxc threshold Hthr)
    as [plan Hplan].
  { rewrite Hc2. discriminate. }
  { intros _. split; eauto using human_bytes_ok. }
  exists plan. split; [exact Hplan|].
  destruct (decide_fix_inv w _ _ _ _ _ _ Hplan)
    as (t & Ht & Hreasons & Hneeds & Haction & _).
  rewrite Hthr in Ht. injection Ht as <-.
  unfold anomaly_checks in Hreasons. rewrite Hc1, Hc2, Hc3, Hlast in Hreasons.
  cbn in Hreasons. rewrite Hreasons in Hneeds. cbn in Hneeds.
  rewrite Hneeds in Haction. unfold chosen_action in Haction.
  rewrite Hmeta, Hffmpeg, Hflac in Haction. cbn [negb andb] in Haction.
  repeat split; try assumption.
  rewrite Haction. destruct (_ && _); reflexivity.
Qed.

Lemma cover_only_prefers_strip_witness :
  exists plan,
    decide_fix (mkWorld (fun _ => None) metaflac_only (fun _ => "tmp0")
                  (fun _ _ _ => mkToolResult 0 None) (fun _ => None)
                  (fun _ _ => None))
      (mkFlacProbe true "OK" true [] None 5000 3000000 0 true) true true
      (FFinite 8 0) 1572864 = Ok plan /\
    action plan = "metaflac" /\
    needs_fix plan = true /\
    reasons plan = [reason_cover (size_text 3000000) (size_text 1572864)].
Proof.
  apply (cover_only_prefers_strip _
           (mkFlacProbe true "OK" true [] None 5000 3000000 0 true) true
           (FFinite 8 0) 8388608 1572864); try reflexivity; cbn; lia.
Defined.

(** ** Invariants of the effects *)

Lemma bind_run {A B} (m : M A) (k : A -> M B) (s : state) :
  (m ≫= k) s =
  match m s with
  | (Ok a, s') => k a s'
  | (Raise e, s') => (Raise e, s')
  end.
Proof. reflexivity. Qed.

Section Frame.
Context (w : World).
Variable Inv : state -> Prop.
Variable W : path -> Prop.          (* the files that may change *)
Hypothesis Inv_tick : forall s t r, Inv s -> Inv (mkState (fs s) t (log s) r).
Hypothesis Inv_fs : forall s m',
  (forall q, ~ W q -> m' !! q = fs s !! q) -> Inv s -> Inv (set_fs m' s).
Hypothesis Inv_fresh : forall s td,
  Inv s -> filter (under td) (fs s) = ∅ -> forall q, td `prefix_of` q -> W q.

Lemma keeps_ret {A} (a : A) : keeps Inv (mret a).
Proof. intros s H. exact H. Qed.

Lemma keeps_raise {A} (e : exn) : keeps Inv (@raise A e).
Proof. intros s H. exact H. Qed.

Lemma keeps_lift {A} (r : result A) : keeps Inv (lift r).
Proof. intros s H. exact H. Qed.

Lemma keeps_bind {A B} (m : M A) (k : A -> M B) :
  keeps Inv m -> (forall a, keeps Inv (k a)) -> keeps Inv (m ≫= k).
Proof.
  intros Hm Hk s H. rewrite bind_run. specialize (Hm s H).
  destruct (m s) as [[a|e] s']; [apply Hk|]; exact Hm.
Qed.

Lemma keeps_try_except {A} (body : M A) catches handler :
  keeps Inv body -> (forall e, keeps Inv (handler e)) ->
  keeps Inv (try_except body catches handler).
Proof.
  intros Hb Hh s H. unfold try_except. specialize (Hb s H).
  destruct (body s) as [[a|e] s']; [exact Hb|].
  destruct (catches (e_class e)); [apply Hh|]; exact Hb.
Qed.

Lemma keeps_get_fs : keeps Inv get_fs.
Proof. intros s H. exact H. Qed.

Lemma keeps_modify_result f : keeps Inv (modify_result f).
Proof. intros s H. apply (Inv_tick s (tick s) (f (st_result s))), H. Qed.

Lemma keeps_effect : keeps Inv (effect w).
Proof.
  intros s H. unfold effect.
  destruct (fault w (tick s)); apply (Inv_tick s (S (tick s)) (st_result s)), H.
Qed.

Lemma keeps_path_exists q : keeps Inv (path_exists q).
Proof. intros s H. exact H. Qed.

Lemma keeps_put_fs_when (m' : gmap path bytes) (s : state) :
  (forall q, ~ W q -> m' !! q = fs s !! q) -> Inv s -> Inv (put_fs m' s).2.
Proof. apply Inv_fs. Qed.

(** An effect followed by an update of the store computed from it. *)
Lemma keeps_effect_fs {A} (k : nat -> gmap path bytes -> M A) :
  (forall n s, Inv s -> Inv (k n (fs s) s).2) ->
  keeps Inv (n ← effect w; m ← get_fs; k n m).
Proof.
  intros Hk s H. rewrite bind_run.
  pose proof (keeps_effect s H) as H1.
  destruct (effect w s) as [[n|e] s1]; [|exact H1].
  rewrite bind_run. cbn. apply Hk, H1.
Qed.

Lemma keeps_unlink q : W q -> keeps Inv (unlink w q).
Proof.
  intros Hq. apply (keeps_effect_fs (fun _ m => _)). intros _ s H.
  destruct (fs s !! q); [|exact H].
  apply Inv_fs; [|exact H]. intros q' Hq'. apply lookup_delete_ne. congruence.
Qed.

Lemma keeps_os_rename src dst : W src -> W dst -> keeps Inv (os_rename w src dst).
Proof.
  intros Hsrc Hdst. apply (keeps_effect_fs (fun _ m => _)). intros _ s H.
  destruct (fs s !! src); [|exact H].
  apply Inv_fs; [|exact H]. intros q' Hq'.
  rewrite lookup_insert_ne, lookup_delete_ne; congruence.
Qed.

Lemma keeps_copy2 src dst : W dst -> keeps Inv (copy2 w src dst).
Proof.
  intros Hdst. apply (keeps_effect_fs (fun _ m => _)). intros _ s H.
  destruct (decide (src = dst)); [exact H|].
  destruct (fs s !! src); [|exact H].
  apply Inv_fs; [|exact H]. intros q' Hq'.
  rewrite lookup_insert_ne; congruence.
Qed.

Lemma keeps_shutil_move src dst : W src -> W dst -> keeps Inv (shutil_move w src dst).
Proof.
  intros Hsrc Hdst. apply keeps_try_except; [apply keeps_os_rename; assumption|].
  intros _. apply keeps_bind; [apply keeps_copy2; assumption|].
  intros _. apply keeps_unlink; assumption.
Qed.

Lemma keeps_mkdir q : keeps Inv (mkdir w q).
Proof. apply keeps_bind; [apply keeps_effect|intros _; apply keeps_ret]. Qed.

Lemma keeps_rmtree td : (forall q, td `prefix_of` q -> W q) -> keeps Inv (rmtree w td).
Proof.
  intros Htd. apply (keeps_effect_fs (fun _ m => _)). intros _ s H.
  apply Inv_fs; [|exact H]. intros q Hq.
  rewrite map_lookup_filter. destruct (fs s !! q) as [v|]; [|reflexivity].
  cbn. rewrite option_guard_True; [reflexivity|].
  unfold under. cbn. intros Hp. apply Hq, Htd, Hp.
Qed.

Lemma keeps_with_TemporaryDirectory {A} dir (body : path -> M A) :
  (forall td, (forall q, td `prefix_of` q -> W q) -> keeps Inv (body td)) ->
  keeps Inv (with_TemporaryDirectory w dir body).
Proof.
  intros Hbody s H. unfold with_TemporaryDirectory, mkdtemp.
  rewrite !bind_run.
  pose proof (keeps_effect s H) as H1.
  destruct (effect w s) as [[n|e] s1]; [|exact H1].
  rewrite bind_run. cbn [get_fs].
  destruct (decide (filter (under (dir ++ [tmp_name w n])) (fs s1) = ∅))
    as [Hfresh|]; [|exact H1].
  cbn. pose proof (Inv_fresh s1 _ H1 Hfresh) as Htd.
  specialize (Hbody _ Htd s1 H1).
  destruct (body (dir ++ [tmp_name w n]) s1) as [r s2]. cbn in Hbody.
  pose proof (keeps_rmtree _ Htd s2 Hbody) as H3.
  destruct (rmtree w (dir ++ [tmp_name w n]) s2) as [[u|e] s3]; exact H3.
Qed.

Lemma keeps_run cmd inputs output :
  (forall q, output = Some q -> W q) -> keeps Inv (run w cmd inputs output).
Proof.
  intros Hout. unfold run. apply (keeps_effect_fs (fun n m => _)). intros n s H.
  rewrite bind_run.
  destruct output as [q|]; [destruct (written (tool w n cmd _)) as [b|]|]; cbn;
    try exact H.
  apply Inv_fs; [|exact H]. intros q' Hq'.
  rewrite lookup_insert_ne; [reflexivity|].
  intros ->. apply Hq', Hout. reflexivity.
Qed.

Lemma keeps_if {A} (c : bool) (m1 m2 : M A) :
  keeps Inv m1 -> keeps Inv m2 -> keeps Inv (if c then m1 else m2).
Proof. destruct c; tauto. Qed.

Lemma keeps_export_cover src tmpdir :
  (forall q, tmpdir `prefix_of` q -> W q) ->
  keeps Inv (export_cover_with_metaflac w src tmpdir).
Proof.
  intros Htd. unfold export_cover_with_metaflac.
  apply keeps_if; [apply keeps_ret|].
  apply keeps_bind.
  - apply keeps_run. intros q [= <-]. apply Htd. by exists ["cover.export"].
  - intros code. apply keeps_if; [apply keeps_ret|].
    apply keeps_bind; [apply keeps_path_exists|].
    intros there. apply keeps_if; apply keeps_ret.
Qed.

Lemma keeps_import_cover dst cover :
  W dst -> keeps Inv (import_cover_with_metaflac w dst cover).
Proof.
  intros Hdst. unfold import_cover_with_metaflac.
  apply keeps_if; [apply keeps_ret|].
  apply keeps_bind; [|intros; apply keeps_ret].
  apply keeps_run. intros q [= <-]. exact Hdst.
Qed.

Lemma keeps_strip q :
  W q -> keeps Inv (strip_all_metadata_with_metaflac w q).
Proof.
  intros Hq. unfold strip_all_metadata_with_metaflac.
  apply keeps_if; [apply keeps_ret|].
  apply keeps_bind; [|intros; apply keeps_ret].
  apply keeps_run. intros q' [= <-]. exact Hq.
Qed.

Lemma keeps_reencode_ffmpeg src dst :
  W dst -> keeps Inv (reencode_with_ffmpeg w src dst).
Proof.
  intros Hdst. unfold reencode_with_ffmpeg.
  apply keeps_bind; [|intros; apply keeps_ret].
  apply keeps_run. intros q [= <-]. exact Hdst.
Qed.

Lemma keeps_reencode_flac_cli src dst :
  W dst -> keeps Inv (reencode_with_flac_cli w src dst).
Proof.
  intros Hdst. unfold reencode_with_flac_cli.
  apply keeps_with_TemporaryDirectory. intros td Htd.
  apply keeps_bind.
  { apply keeps_run. intros q [= <-]. apply Htd. by exists ["tmp.wav"]. }
  intros code. apply keeps_bind.
  { apply keeps_if; [apply keeps_ret|].
    apply keeps_bind; [apply keeps_path_exists|intros; apply keeps_ret]. }
  intros missing. apply keeps_if; [apply keeps_ret|].
  apply keeps_bind.
  { apply keeps_run. intros q [= <-]. exact Hdst. }
  intros code2. apply keeps_if; [apply keeps_path_exists|apply keeps_ret].
Qed.

Lemma keeps_atomic_replace src dst :
  (forall q, W q) -> keeps Inv (atomic_replace w src dst).
Proof.
  intros HW. unfold atomic_replace.
  apply keeps_try_except.
  - apply keeps_bind; [apply keeps_path_exists|]. intros there.
    apply keeps_bind; [apply keeps_if; [apply keeps_unlink, HW|apply keeps_ret]|].
    intros _. apply keeps_os_rename; apply HW.
  - intros _. apply keeps_bind; [apply keeps_lift|]. intros bak.
    apply keeps_try_except.
    + apply keeps_bind; [apply keeps_path_exists|]. intros there.
      apply keeps_bind;
        [apply keeps_if; [apply keeps_os_rename; apply HW|apply keeps_ret]|].
      intros _. apply keeps_bind; [apply keeps_shutil_move; apply HW|].
      intros _. apply keeps_bind; [apply keeps_path_exists|]. intros kept.
      apply keeps_if; [|apply keeps_ret].
      apply keeps_try_except; [apply keeps_unlink, HW|intros; apply keeps_ret].
    + intros e. apply keeps_bind; [apply keeps_path_exists|]. intros there.
      apply keeps_bind;
        [apply keeps_if; [apply keeps_path_exists|apply keeps_ret]|].
      intros kept. apply keeps_bind; [|intros; apply keeps_raise].
      apply keeps_if; [|apply keeps_ret].
      apply keeps_try_except;
        [apply keeps_os_rename; apply HW|intros; apply keeps_ret].
Qed.

Lemma keeps_parse_flac q : keeps Inv (parse_flac w q).
Proof.
  apply (keeps_effect_fs (fun _ m => _)). intros _ s H.
  destruct (fs s !! q); exact H.
Qed.

Lemma keeps_set_status v : keeps Inv (set_status v).
Proof. apply keeps_modify_result. Qed.
Lemma keeps_set_reasons v : keeps Inv (set_reasons v).
Proof. apply keeps_modify_result. Qed.
Lemma keeps_set_action v : keeps Inv (set_action v).
Proof. apply keeps_modify_result. Qed.
Lemma keeps_set_message v : keeps Inv (set_message v).
Proof. apply keeps_modify_result. Qed.
Lemma keeps_append_message v : keeps Inv (append_message v).
Proof. apply keeps_modify_result. Qed.

End Frame.

(** ** The original file during a repair *)

Section Original.
Context (w : World) (p : path) (b : bytes).

Local Abbreviation other := (other_than p).
Local Abbreviation anything := any_file.
Local Abbreviation quiet := (no_failed_candidate p).

Lemma untouched_tick s t r :
  untouched p b s -> untouched p b (mkState (fs s) t (log s) r).
Proof. exact id. Qed.

Lemma untouched_fs s m' :
  (forall q, ~ other q -> m' !! q = fs s !! q) ->
  untouched p b s -> untouched p b (set_fs m' s).
Proof.
  intros Hsame [Hkept Hquiet]. split; [|exact Hquiet].
  unfold original_kept. cbn. rewrite Hsame; [exact Hkept|].
  unfold other_than. intros H. apply H. reflexivity.
Qed.

Lemma untouched_fresh s td :
  untouched p b s -> filter (under td) (fs s) = ∅ ->
  forall q, td `prefix_of` q -> other q.
Proof.
  intros [Hkept _] Hfresh q Hq ->.
  assert (Hin : filter (under td) (fs s) !! p = Some b)
    by (apply map_lookup_filter_Some; split; [exact Hkept|exact Hq]).
  rewrite Hfresh, lookup_empty in Hin. discriminate.
Qed.

Lemma quiet_tick s t r : quiet s -> quiet (mkState (fs s) t (log s) r).
Proof. exact id. Qed.

Lemma quiet_fs s m' :
  (forall q, ~ anything q -> m' !! q = fs s !! q) -> quiet s -> quiet (set_fs m' s).
Proof. intros _. exact id. Qed.

Lemma quiet_fresh s td :
  quiet s -> filter (under td) (fs s) = ∅ ->
  forall q, td `prefix_of` q -> anything q.
Proof. intros. exact I. Qed.

(** A decode check changes nothing but the log. *)
Lemma decode_run q s :
  exists passed msg,
    soundfile_decode_ok w q s =
    (Ok (passed, msg),
     mkState (fs s) (S (tick s)) (log s ++ [EvDecode q passed]) (st_result s)).
Proof.
  unfold soundfile_decode_ok.
  destruct (sf_import w (tick s)); [|destruct (sf_read w (tick s) _)]; eauto.
Qed.

Lemma failed_candidate_snoc q passed s t r :
  failed_candidate p (mkState (fs s) t (log s ++ [EvDecode q passed]) r) <->
  failed_candidate p s \/ (q <> p /\ passed = false).
Proof.
  unfold failed_candidate. cbn. split.
  - intros (q' & Hq' & Hin). apply in_app_or in Hin as [Hin|[[= <- <-]|[]]]; eauto.
  - intros [(q' & Hq' & Hin)|[Hq ->]].
    + exists q'. split; [exact Hq'|]. apply in_or_app. eauto.
    + exists q. split; [exact Hq|]. apply in_or_app. right. left. reflexivity.
Qed.

Lemma keeps_untouched_decode_original :
  keeps (untouched p b) (soundfile_decode_ok w p).
Proof.
  intros s [Hkept Hquiet]. destruct (decode_run p s) as (passed & msg & ->).
  split; [exact Hkept|]. cbn. rewrite failed_candidate_snoc.
  intros [H|[H _]]; [exact (Hquiet H)|exact (H eq_refl)].
Qed.

Lemma keeps_quiet_decode_original : keeps quiet (soundfile_decode_ok w p).
Proof.
  intros s Hquiet. destruct (decode_run p s) as (passed & msg & ->).
  unfold no_failed_candidate. cbn. rewrite failed_candidate_snoc.
  intros [H|[H _]]; [exact (Hquiet H)|exact (H eq_refl)].
Qed.

Local Ltac frame_side :=
  solve [ exact (untouched_tick) | exact (untouched_fs) | exact (untouched_fresh)
        | exact (quiet_tick) | exact (quiet_fs) | exact (quiet_fresh) ].

(** [keeps_with L]: apply the invariant lemma [L] and discharge the closure
    conditions of the invariant at hand. *)
Local Ltac keeps_with L := eapply L; try frame_side.

Lemma untouched_quiet s : untouched p b s -> quiet s.
Proof. intros [_ H]. exact H. Qed.

Lemma achieves_keeps (m : M unit) : keeps (untouched p b) m -> achieves w p b m.
Proof. intros Hm s H. left. apply (untouched_quiet _ (Hm s H)). Qed.

Lemma achieves_bind {A} (m : M A) (k : A -> M unit) :
  keeps (untouched p b) m -> (forall a, achieves w p b (k a)) ->
  achieves w p b (m ≫= k).
Proof.
  intros Hm Hk s H. rewrite bind_run. specialize (Hm s H).
  destruct (m s) as [[a|e] s']; [apply Hk, Hm|].
  left. apply (untouched_quiet _ Hm).
Qed.

Lemma achieves_if (c : bool) (m1 m2 : M unit) :
  achieves w p b m1 -> achieves w p b m2 -> achieves w p b (if c then m1 else m2).
Proof. destruct c; tauto. Qed.

Lemma keeps_quiet_finish (src : path) (msg : string) :
  keeps quiet (_ ← atomic_replace w src p; _ ← set_status "FIXED"; set_message msg).
Proof.
  keeps_with keeps_bind.
  - keeps_with keeps_atomic_replace. intros q. exact I.
  - intros _. keeps_with keeps_bind; [keeps_with keeps_set_status|].
    intros _. keeps_with keeps_set_message.
Qed.

Lemma achieves_check_and_replace out plan cover ok :
  out <> p -> achieves w p b (check_and_replace w p out plan cover ok).
Proof.
  intros Hout. unfold check_and_replace.
  apply achieves_bind.
  { keeps_with keeps_if; [keeps_with keeps_ret|].
    keeps_with keeps_bind; [keeps_with keeps_path_exists|].
    intros there. keeps_with keeps_ret. }
  intros failed. apply achieves_if.
  { apply achieves_keeps. keeps_with keeps_bind; [keeps_with keeps_set_status|].
    intros _. keeps_with keeps_set_message. }
  apply achieves_bind.
  { keeps_with keeps_if; [|keeps_with keeps_ret].
    destruct cover as [c|]; [|keeps_with keeps_ret].
    keeps_with keeps_if; [|keeps_with keeps_ret].
    keeps_with keeps_bind; [keeps_with keeps_import_cover; exact Hout|].
    intros import_ok. keeps_with keeps_if;
      [keeps_with keeps_ret|keeps_with keeps_append_message]. }
  intros _ s [Hkept Hquiet]. rewrite bind_run.
  destruct (decode_run out s) as (passed & msg & ->).
  destruct passed; cbn [fst snd negb].
  - left. apply keeps_quiet_finish. unfold no_failed_candidate.
    rewrite failed_candidate_snoc. intros [H|[_ [=]]]. exact (Hquiet H).
  - right. cbn. repeat split; [exact Hkept|left; reflexivity].
Qed.

Lemma effect_run s :
  effect w s =
  (match fault w (tick s) with Some e => Raise e | None => Ok (tick s) end,
   mkState (fs s) (S (tick s)) (log s) (st_result s)).
Proof. unfold effect. destruct (fault w (tick s)); reflexivity. Qed.

Lemma achieves_with_TemporaryDirectory dir (body : path -> M unit) :
  (forall td, (forall q, td `prefix_of` q -> q <> p) -> achieves w p b (body td)) ->
  achieves w p b (with_TemporaryDirectory w dir body).
Proof.
  intros Hbody s H. unfold with_TemporaryDirectory, mkdtemp.
  rewrite !bind_run, effect_run.
  assert (H1 : untouched p b (mkState (fs s) (S (tick s)) (log s) (st_result s)))
    by exact H.
  destruct (fault w (tick s)) as [e|]; [left; exact (untouched_quiet _ H1)|].
  set (s1 := mkState _ _ _ _) in *. set (td := dir ++ [tmp_name w (tick s)]).
  rewrite bind_run. cbn [get_fs].
  destruct (decide (filter (under td) (fs s1) = ∅)) as [Hfresh|];
    [|left; exact (untouched_quiet _ H1)].
  cbn. pose proof (untouched_fresh s1 td H1 Hfresh) as Htd.
  specialize (Hbody td Htd s1 H1).
  destruct (body td s1) as [r s2]. cbn [fst snd] in Hbody.
  unfold rmtree. rewrite bind_run, effect_run.
  destruct (fault w (tick s2)) as [e|] eqn:Hfault.
  - destruct Hbody as [Hq|(Hkept & Hstatus & _)]; [left; exact Hq|].
    right. repeat split; [exact Hkept|exact Hstatus|]. right. eauto.
  - rewrite bind_run. cbn.
    destruct Hbody as [Hq|(Hkept & Hstatus & Hr)]; [left; exact Hq|].
    right. repeat split; [|exact Hstatus|exact Hr].
    unfold original_kept. cbn.
    apply map_lookup_filter_Some. split; [exact Hkept|].
    unfold under. cbn. intros Hp. exact (Htd p Hp eq_refl).
Qed.

Lemma achieves_quiet (m : M unit) : keeps quiet m -> achieves w p b m.
Proof. intros Hm s H. left. apply Hm, (untouched_quiet _ H). Qed.

Lemma keeps_untouched_backup dst : keeps (untouched p b) (copy2 w p dst).
Proof.
  destruct (decide (dst = p)) as [->|Hdst]; [|keeps_with keeps_copy2; exact Hdst].
  intros s H. unfold copy2. rewrite !bind_run, effect_run.
  destruct (fault w (tick s)); [exact H|]. rewrite bind_run. cbn [get_fs].
  destruct (decide (p = p)); [exact H|congruence].
Qed.

Lemma keeps_quiet_strip_branch out plan cover :
  keeps quiet
    (ok ← strip_all_metadata_with_metaflac w p;
     if (ok : bool) then
       dec2 ← soundfile_decode_ok w p;
       let dec2_ok : bool := dec2.1 in
       _ ← set_status (if dec2_ok then "FIXED" else "FAIL");
       set_message (if dec2_ok then "metaflac 清空元数据后验证"
                    else "metaflac 清空后仍不可读")
     else check_and_replace w p out plan cover ok).
Proof.
  keeps_with keeps_bind; [keeps_with keeps_strip; exact I|].
  intros [|].
  - keeps_with keeps_bind; [apply keeps_quiet_decode_original|]. intros dec2.
    keeps_with keeps_bind; [keeps_with keeps_set_status|].
    intros _. keeps_with keeps_set_message.
  - unfold check_and_replace. cbn [negb].
    change (keeps quiet
              (_ ← set_status "FAIL"; set_message (action plan +:+ " 生成失败"))).
    keeps_with keeps_bind; [keeps_with keeps_set_status|].
    intros _. keeps_with keeps_set_message.
Qed.

Lemma achieves_process_one_body args :
  achieves w p b (process_one_body w p args).
Proof.
  unfold process_one_body.
  apply achieves_bind; [keeps_with keeps_parse_flac|]. intros probe.
  apply achieves_if.
  { apply achieves_keeps. keeps_with keeps_bind; [keeps_with keeps_set_status|].
    intros _. keeps_with keeps_set_message. }
  apply achieves_bind; [apply keeps_untouched_decode_original|]. intros dec.
  apply achieves_bind; [keeps_with keeps_lift|]. intros max_cover_bytes.
  apply achieves_bind; [keeps_with keeps_lift|]. intros plan.
  apply achieves_bind; [keeps_with keeps_set_reasons|]. intros _.
  apply achieves_bind; [keeps_with keeps_set_action|]. intros _.
  apply achieves_if.
  { apply achieves_keeps. keeps_with keeps_bind; [keeps_with keeps_set_status|].
    intros _. keeps_with keeps_set_message. }
  apply achieves_if.
  { apply achieves_keeps. keeps_with keeps_bind; [keeps_with keeps_set_status|].
    intros _. keeps_with keeps_set_message. }
  apply achieves_bind.
  { keeps_with keeps_if; [|keeps_with keeps_ret].
    keeps_with keeps_bind; [keeps_with keeps_mkdir|].
    intros _. apply keeps_untouched_backup. }
  intros _. apply achieves_with_TemporaryDirectory. intros td Htd.
  assert (Hout : td ++ [stem p +:+ ".__fixed__.flac"] <> p)
    by (apply Htd; eexists; reflexivity).
  apply achieves_bind.
  { keeps_with keeps_if; [|keeps_with keeps_ret].
    keeps_with keeps_export_cover. exact Htd. }
  intros cover_tmp.
  apply achieves_if.
  { apply achieves_bind; [keeps_with keeps_reencode_ffmpeg; exact Hout|].
    intros ok. apply achieves_check_and_replace, Hout. }
  apply achieves_if.
  { apply achieves_bind; [keeps_with keeps_reencode_flac_cli; exact Hout|].
    intros ok. apply achieves_check_and_replace, Hout. }
  apply achieves_if.
  { apply achieves_quiet, keeps_quiet_strip_branch. }
  apply achieves_keeps. keeps_with keeps_bind; [keeps_with keeps_set_status|].
  intros _. keeps_with keeps_set_message.
Qed.

End Original.

Lemma process_one_run (w : World) (p : path) (args : Args) (s : state) :
  process_one w p args s =
  match process_one_body w p args (set_result (initial_result p) s) with
  | (Ok _, s1) => (st_result s1, s1)
  | (Raise e, s1) =>
      let r := st_result s1 in
      let r' := mkResult (r_file r) "ERROR" (r_reasons r) (r_action r)
                  (class_name (e_class e) +:+ ": " +:+ e_msg e) in
      (r', mkState (fs s1) (tick s1) (log s1) r')
  end.
Proof.
  unfold process_one, try_except.
  destruct (process_one_body _ _ _ _) as [[u|e] s1]; reflexivity.
Qed.

Lemma parse_flac_missing (w : World) (p : path) (s : state) :
  fs s !! p = None ->
  exists e, parse_flac w p s =
            (Raise e, mkState (fs s) (S (tick s)) (log s) (st_result s)).
Proof.
  intros Hmiss. unfold parse_flac. rewrite !bind_run, effect_run.
  destruct (fault w (tick s)); [eauto|]. rewrite bind_run. cbn [get_fs fs].
  rewrite Hmiss. unfold no_such_file, raise. eauto.
Qed.

(** C1 (as amended): when the decode validation of a repaired candidate (a
    file other than the original, so a re-encode by [ffmpeg] or [flac])
    fails, the original path holds the bytes it had before, and the status
    is [FAIL]; it is [ERROR], with the failure in the message, only if the
    environment then fails the removal of the scratch directory.  (The
    [metaflac] action has no candidate: it rewrites the original in place
    before the check.) *)
Theorem failed_validation_keeps_original (w : World) (p : path) (args : Args)
    (files : gmap path bytes) :
  let out := process_one w p args (start files) in
  failed_candidate p out.2 ->
  fs out.2 !! p = files !! p /\
  (r_status out.1 = "FAIL" \/
   (r_status out.1 = "ERROR" /\
    exists n e, fault w n = Some e /\
      r_message out.1 = class_name (e_class e) +:+ ": " +:+ e_msg e)).
Proof.
  cbn zeta. rewrite process_one_run.
  set (s0 := set_result (initial_result p) (start files)).
  destruct (files !! p) as [b|] eqn:Hfile.
  - assert (H0 : untouched p b s0).
    { split; [exact Hfile|]. intros (q & _ & []). }
    pose proof (achieves_process_one_body w p b args s0 H0) as Hv.
    destruct (process_one_body w p args s0) as [[[]|e] s1]; cbn [fst snd] in *.
    + intros Hfailed. destruct Hv as [Hq|(Hkept & Hstatus & _)]; [tauto|].
      split; [exact Hkept|left; exact Hstatus].
    + intros Hfailed.
      destruct Hv as [Hq|(Hkept & Hstatus & [[=]|(n & e' & Hfault & [= ->])])];
        [tauto|].
      split; [exact Hkept|]. right. split; [reflexivity|eauto].
  - unfold process_one_body. rewrite bind_run.
    destruct (parse_flac_missing w p s0 Hfile) as [e ->].
    cbn. intros (q & _ & []).
Qed.

Lemma failed_validation_keeps_original_witness :
  let out := process_one reencode_then_unreadable song no_cover_args
               (start {[ song := cover_heavy_file ]}) in
  fs out.2 !! song = ({[ song := cover_heavy_file ]} : gmap path bytes) !! song /\
  (r_status out.1 = "FAIL" \/
   (r_status out.1 = "ERROR" /\
    exists n e, fault reencode_then_unreadable n = Some e /\
      r_message out.1 = class_name (e_class e) +:+ ": " +:+ e_msg e)).
Proof.
  apply (failed_validation_keeps_original reencode_then_unreadable song
           no_cover_args {[ song := cover_heavy_file ]}).
  exists ["music"; "tmp0"; "a.__fixed__.flac"]. split; [discriminate|].
  vm_compute. right. left. reflexivity.
Defined.

(** C1 (as stated) fails for the [metaflac] action: the strip has already
    rewritten the original when the decode check fails.  The status is
    [FAIL], and the path holds what [metaflac] left, not the bytes it had. *)
Lemma strip_failure_changes_original :
  let out := process_one strip_then_unreadable song no_cover_args
               (start {[ song := cover_heavy_file ]}) in
  r_action out.1 = "metaflac" /\
  log out.2 = [EvDecode song true; EvDecode song false] /\
  r_status out.1 = "FAIL" /\
  fs out.2 !! song = Some rewritten_file /\
  fs out.2 !! song <> ({[ song := cover_heavy_file ]} : gmap path bytes) !! song.
Proof.
  vm_compute. repeat split. discriminate.
Qed.

(** ** Files that are not native FLAC *)

Lemma parse_flac_fuel_not_magic (bs : bytes) (fuel : nat) :
  firstn 4 bs <> magic -> parse_flac_fuel fuel bs = Some not_flac_probe.
Proof.
  intros Hmagic. unfold parse_flac_fuel, f_read. cbn.
  change (skipn 0 bs) with bs.
  destruct (decide (firstn 4 bs = magic)); [contradiction|reflexivity].
Qed.

Lemma parse_flac_bytes_not_magic (bs : bytes) :
  firstn 4 bs <> magic -> parse_flac_bytes bs = not_flac_probe.
Proof.
  intros Hmagic. unfold parse_flac_bytes.
  rewrite parse_flac_fuel_not_magic by exact Hmagic. reflexivity.
Qed.

Lemma parse_flac_found (w : World) (p : path) (s : state) (bs : bytes) :
  fs s !! p = Some bs -> fault w (tick s) = None ->
  parse_flac w p s =
  (Ok (parse_flac_bytes bs), mkState (fs s) (S (tick s)) (log s) (st_result s)).
Proof.
  intros Hfile Hopen. unfold parse_flac. rewrite !bind_run, effect_run, Hopen.
  rewrite bind_run. cbn [get_fs fs]. rewrite Hfile. reflexivity.
Qed.

(** C7: a file whose first four bytes are not [fLaC] gives a probe with
    [is_flac] false, the rejection reason, and every other field empty or
    zero.  The answer is there before the block walk starts (no fuel is
    used) and is the same for every file with the same first four bytes,
    so nothing beyond them is consulted.  When the file can be opened,
    [process_one] returns [SKIP] with that reason and leaves the files as
    they were. *)
Theorem not_flac_is_skipped (w : World) (p : path) (args : Args)
    (files : gmap path bytes) (bs : bytes) :
  firstn 4 bs <> magic ->
  parse_flac_bytes bs =
    mkFlacProbe false "Not native FLAC (missing fLaC magic)" false [] None
      0 0 0 false /\
  parse_flac_fuel 0 bs = Some (parse_flac_bytes bs) /\
  (forall bs', firstn 4 bs' = firstn 4 bs ->
     parse_flac_bytes bs' = parse_flac_bytes bs) /\
  (files !! p = Some bs -> fault w 0 = None ->
   let out := process_one w p args (start files) in
   r_status out.1 = "SKIP" /\
   r_message out.1 = "Not native FLAC (missing fLaC magic)" /\
   fs out.2 = files).
Proof.
  intros Hmagic. pose proof (parse_flac_bytes_not_magic bs Hmagic) as Hprobe.
  split; [exact Hprobe|]. split.
  { rewrite Hprobe. apply parse_flac_fuel_not_magic, Hmagic. }
  split.
  { intros bs' Hsame. rewrite Hprobe.
    apply parse_flac_bytes_not_magic. rewrite Hsame. exact Hmagic. }
  intros Hfile Hopen. cbn zeta. rewrite process_one_run.
  unfold process_one_body. rewrite bind_run.
  rewrite (parse_flac_found w p (set_result (initial_result p) (start files))
             bs Hfile Hopen), Hprobe.
  cbn. repeat split.
Qed.

Lemma not_flac_is_skipped_witness :
  let out := process_one quiet_world song no_cover_args
               (start {[ song := [x52; x49; x46; x46] ]}) in
  r_status out.1 = "SKIP" /\
  r_message out.1 = "Not native FLAC (missing fLaC magic)" /\
  fs out.2 = {[ song := [x52; x49; x46; x46] ]}.
Proof.
  apply (not_flac_is_skipped quiet_world song no_cover_args
           {[ song := [x52; x49; x46; x46] ]} [x52; x49; x46; x46]).
  - discriminate.
  - apply lookup_singleton_eq.
  - reflexivity.
Defined.

(** ** Replacement *)

Lemma string_app_cons (c : ascii) (a t : string) :
  String c a +:+ t = String c (a +:+ t).
Proof. reflexivity. Qed.

Lemma string_app_nil_r (a : string) : a +:+ "" = a.
Proof. induction a as [|c a IH]; [reflexivity|]. rewrite string_app_cons, IH. reflexivity. Qed.

Lemma string_app_assoc (a t u : string) : a +:+ (t +:+ u) = (a +:+ t) +:+ u.
Proof.
  induction a as [|c a IH]; [reflexivity|]. rewrite !string_app_cons, IH. reflexivity.
Qed.

Lemma string_app_length (a t : string) :
  String.length (a +:+ t) = (String.length a + String.length t)%nat.
Proof.
  induction a as [|c a IH]; [reflexivity|]. rewrite string_app_cons. cbn.
  rewrite IH. reflexivity.
Qed.

Lemma split_suffix_join (nm : string) :
  (split_suffix nm).1 +:+ (split_suffix nm).2 = nm.
Proof.
  assert (Hsplit : forall s a t, rsplit_dot s = Some (a, t) -> a +:+ t = s).
  { induction s as [|c s IH]; intros a t; [discriminate|]. cbn.
    destruct (rsplit_dot s) as [[a' t']|].
    - intros [= <- <-]. rewrite string_app_cons, (IH a' t' eq_refl). reflexivity.
    - destruct (Ascii.eqb c "."); [|discriminate]. intros [= <- <-]. reflexivity. }
  unfold split_suffix. destruct (rsplit_dot nm) as [[a t]|] eqn:Hr.
  - destruct (_ && _); cbn [fst snd]; [apply Hsplit, Hr|apply string_app_nil_r].
  - apply string_app_nil_r.
Qed.

(** [dst.with_suffix(dst.suffix + '.old')] appends [.old] to the name. *)
Lemma with_suffix_old (dst bak : path) :
  with_suffix dst (suffix dst +:+ ".old") = Ok bak ->
  bak = parent dst ++ [name dst +:+ ".old"] /\ bak <> dst.
Proof.
  unfold with_suffix. destruct (String.eqb (name dst) "") eqn:Hname; [discriminate|].
  intros [= <-]. unfold stem, suffix.
  rewrite string_app_assoc, split_suffix_join. split; [reflexivity|].
  intros Heq. apply (f_equal (fun l => List.last l "")) in Heq.
  rewrite last_last in Heq. fold (name dst) in Heq.
  apply (f_equal String.length) in Heq.
  rewrite string_app_length in Heq. cbn in Heq. lia.
Qed.


Section Replace.
Context (w : World) (src dst bak : path) (c : bytes).
Hypothesis src_dst : src <> dst.
Hypothesis src_bak : src <> bak.
Hypothesis bak_dst : bak <> dst.

Lemma triple_ret {A} (a : A) (P : state -> Prop) E :
  triple P (mret a) (fun _ => P) E.
Proof. intros s H. exact H. Qed.

Lemma triple_bind {A B} (m : M A) (k : A -> M B) P R Q E :
  triple P m R E -> (forall a, triple (R a) (k a) Q E) -> triple P (m ≫= k) Q E.
Proof.
  intros Hm Hk s H. rewrite bind_run. specialize (Hm s H).
  destruct (m s) as [[a|e] s']; [apply Hk|]; exact Hm.
Qed.

Lemma triple_weaken {A} (m : M A) (P P' : state -> Prop) (Q Q' : A -> state -> Prop)
    (E E' : state -> Prop) :
  triple P m Q E -> (forall s, P' s -> P s) -> (forall a s, Q a s -> Q' a s) ->
  (forall s, E s -> E' s) -> triple P' m Q' E'.
Proof.
  intros Hm HP HQ HE s H. specialize (Hm s (HP s H)).
  destruct (m s) as [[a|e] s']; auto.
Qed.

Lemma triple_try_except {A} (body : M A) catches handler P Q E1 E :
  triple P body Q E1 -> (forall e, triple E1 (handler e) Q E) ->
  (forall s, E1 s -> E s) -> triple P (try_except body catches handler) Q E.
Proof.
  intros Hb Hh HE s H. unfold try_except. specialize (Hb s H).
  destruct (body s) as [[a|e] s']; [exact Hb|].
  destruct (catches (e_class e)); [apply Hh, Hb|apply HE, Hb].
Qed.

Lemma triple_if {A} (cond : bool) (m1 m2 : M A) P Q E :
  triple P m1 Q E -> triple P m2 Q E -> triple P (if cond then m1 else m2) Q E.
Proof. destruct cond; tauto. Qed.

(** An effect followed by a step that depends on the store. *)
Lemma triple_effect_fs {A} (k : nat -> gmap path bytes -> M A)
    (P : gmap path bytes -> Prop) (Q : A -> state -> Prop) (E : state -> Prop) :
  (forall s t, P (fs s) -> E (mkState (fs s) t (log s) (st_result s))) ->
  (forall n s, P (fs s) ->
     match k n (fs s) s with (Ok a, s') => Q a s' | (Raise _, s') => E s' end) ->
  triple (fun s => P (fs s)) (n ← effect w; m ← get_fs; k n m) Q E.
Proof.
  intros HE Hk s H. rewrite bind_run, effect_run.
  destruct (fault w (tick s)); [apply HE, H|].
  rewrite bind_run. cbn [get_fs fs]. apply (Hk _ (mkState _ _ _ _)), H.
Qed.

Lemma triple_path_exists q (P : state -> Prop) E :
  triple P (path_exists q) (fun _ => P) E.
Proof. intros s H. exact H. Qed.

Lemma triple_unlink_other q :
  q <> src -> triple (holds src c) (unlink w q) (fun _ => holds src c) (holds src c).
Proof.
  intros Hq. apply (triple_effect_fs (fun _ m => _) (fun m => m !! src = Some c)).
  - intros s t H. exact H.
  - intros _ s H. destruct (fs s !! q); [|exact H].
    unfold holds. cbn. rewrite lookup_delete_ne by exact Hq. exact H.
Qed.

Lemma triple_rename_aside :
  triple (holds src c) (os_rename w dst bak) (fun _ => holds src c) (holds src c).
Proof.
  apply (triple_effect_fs (fun _ m => _) (fun m => m !! src = Some c)).
  - intros s t H. exact H.
  - intros _ s H. destruct (fs s !! dst); [|exact H].
    unfold holds. cbn.
    rewrite lookup_insert_ne, lookup_delete_ne by congruence. exact H.
Qed.

Lemma triple_rename_into_place :
  triple (holds src c) (os_rename w src dst) (fun _ => holds dst c) (holds src c).
Proof.
  apply (triple_effect_fs (fun _ m => _) (fun m => m !! src = Some c)).
  - intros s t H. exact H.
  - intros _ s H. rewrite H. unfold holds. cbn. apply lookup_insert_eq.
Qed.

Lemma triple_copy_into_place :
  triple (holds src c) (copy2 w src dst)
    (fun _ s => holds src c s /\ holds dst c s) (fun _ => True).
Proof.
  apply (triple_effect_fs (fun _ m => _) (fun m => m !! src = Some c)).
  - intros s t H. exact I.
  - intros _ s H. destruct (decide (src = dst)); [exact I|].
    rewrite H. unfold holds. cbn.
    rewrite lookup_insert_ne, lookup_insert_eq by congruence. tauto.
Qed.

Lemma triple_unlink_source :
  triple (fun s => holds src c s /\ holds dst c s) (unlink w src)
    (fun _ => holds dst c) (fun _ => True).
Proof.
  apply (triple_effect_fs (fun _ m => _)
           (fun m => m !! src = Some c /\ m !! dst = Some c)).
  - intros s t H. exact I.
  - intros _ s [Hs Hd]. rewrite Hs. unfold holds. cbn.
    rewrite lookup_delete_ne by exact src_dst. exact Hd.
Qed.

Lemma triple_shutil_move :
  triple (holds src c) (shutil_move w src dst) (fun _ => holds dst c) (fun _ => True).
Proof.
  apply (triple_try_except _ _ _ _ _ (holds src c)).
  - apply triple_rename_into_place.
  - intros _. eapply triple_bind; [apply triple_copy_into_place|].
    intros u. apply triple_unlink_source.
  - intros s _. exact I.
Qed.

Lemma triple_drop_aside :
  triple (holds dst c)
    (try_except (unlink w bak) any_Exception (fun _ => mret tt))
    (fun _ => holds dst c) (fun _ => True).
Proof.
  apply (triple_try_except _ _ _ _ _ (holds dst c)).
  - apply (triple_effect_fs (fun _ m => _) (fun m => m !! dst = Some c)).
    + intros s t H. exact H.
    + intros _ s H. destruct (fs s !! bak); [|exact H].
      unfold holds. cbn. rewrite lookup_delete_ne by exact bak_dst. exact H.
  - intros _. apply triple_ret.
  - intros s _. exact I.
Qed.

End Replace.

Lemma triple_trivial {A} (m : M A) (P : state -> Prop) :
  triple P m (fun _ _ => True) (fun _ => True).
Proof. intros s _. destruct (m s) as [[a|e] s']; exact I. Qed.

Lemma triple_then_raise {A B} (m : M A) (e : exn) (P : state -> Prop)
    (Q : B -> state -> Prop) :
  triple P (m ≫= fun _ => raise e) Q (fun _ => True).
Proof.
  intros s _. rewrite bind_run. destruct (m s) as [[a|e'] s']; exact I.
Qed.

(** The success path of [atomic_replace]: when the call returns, the target
    has the bytes the candidate had (for a candidate that is neither the
    target nor its [.old] sibling). *)
Lemma atomic_replace_installs_candidate (w : World) (src dst : path) (c : bytes) :
  src <> dst -> src <> parent dst ++ [name dst +:+ ".old"] ->
  triple (holds src c) (atomic_replace w src dst) (fun _ => holds dst c)
    (fun _ => True).
Proof.
  intros Hsd Hsb. unfold atomic_replace.
  apply (triple_try_except _ _ _ _ _ (holds src c)); [| |intros s _; exact I].
  - eapply triple_bind; [apply triple_path_exists|]. intros there.
    eapply triple_bind.
    + apply triple_if; [apply triple_unlink_other; congruence|].
      apply triple_ret.
    + intros u. apply triple_rename_into_place.
  - intros _ s H. rewrite bind_run. unfold lift.
    destruct (with_suffix dst (suffix dst +:+ ".old")) as [bak|e] eqn:Hbak;
      [|exact I].
    apply with_suffix_old in Hbak as [-> Hbd].
    revert s H. apply (triple_try_except _ _ _ _ _ (fun _ => True));
      [| |intros s _; exact I].
    + apply (triple_bind _ _ _ (fun _ => holds src c));
        [apply triple_path_exists|]. intros there.
      apply (triple_bind _ _ _ (fun _ => holds src c)).
      { apply triple_if.
        - eapply triple_weaken;
            [apply (triple_rename_aside w src dst _ c); assumption
            |auto|auto|intros; exact I].
        - apply triple_ret. }
      intros u. apply (triple_bind _ _ _ (fun _ => holds dst c));
        [apply triple_shutil_move; exact Hsd|].
      intros u'. apply (triple_bind _ _ _ (fun _ => holds dst c));
        [apply triple_path_exists|]. intros kept.
      apply triple_if; [apply triple_drop_aside; exact Hbd|apply triple_ret].
    + intros e. eapply triple_bind; [apply triple_trivial|]. intros there.
      eapply triple_bind; [apply triple_trivial|]. intros kept.
      apply triple_then_raise.
Qed.

(** The direct path removes the target before it looks at the candidate:
    with a candidate that does not exist, the target is gone and
    [FileNotFoundError] comes out. *)
Lemma atomic_replace_missing_candidate (w : World) (src dst : path) (c : bytes)
    (s : state) :
  fs s !! src = None -> fs s !! dst = Some c ->
  fault w (tick s) = None -> fault w (S (tick s)) = None ->
  exists e s', atomic_replace w src dst s = (Raise e, s') /\
               e_class e = FileNotFoundError /\ fs s' !! dst = None.
Proof.
  intros Hsrc Hdst Hf0 Hf1.
  assert (Hne : src <> dst) by congruence.
  unfold atomic_replace, try_except.
  rewrite bind_run. unfold path_exists at 1. rewrite bind_run. cbn [get_fs mret M_ret].
  rewrite bool_decide_eq_true_2 by (rewrite Hdst; eauto).
  rewrite bind_run. unfold unlink. rewrite !bind_run, effect_run, Hf0.
  rewrite bind_run. cbn [get_fs fs]. rewrite Hdst.
  unfold put_fs, set_fs. cbn [fs tick log st_result].
  unfold os_rename. rewrite !bind_run, effect_run. cbn [fs tick log st_result].
  rewrite Hf1. rewrite bind_run. cbn [get_fs fs].
  rewrite lookup_delete_ne by congruence. rewrite Hsrc.
  unfold no_such_file, raise. cbn [e_class is_PermissionError].
  eexists _, _. split; [reflexivity|]. split; [reflexivity|].
  cbn. apply lookup_delete_eq.
Qed.

(** C2 (the code misses it): with a candidate that never existed,
    [atomic_replace] does not leave the target as it was.  The existing
    target is unlinked before the rename looks for the candidate, the
    rename raises [FileNotFoundError] (not a [PermissionError], so no
    fallback and no restore), and the target is missing afterwards. *)
Theorem atomic_replace_loses_target_without_candidate :
  let before := start {[ song := cover_heavy_file ]} in
  let out := atomic_replace quiet_world ["music"; "tmp0"; "a.__fixed__.flac"]
               song before in
  fs before !! ["music"; "tmp0"; "a.__fixed__.flac"] = None /\
  fs before !! song = Some cover_heavy_file /\
  out.1 = Raise (mkExn FileNotFoundError
            "[Errno 2] No such file or directory: 'music/tmp0/a.__fixed__.flac'") /\
  fs out.2 !! song = None.
Proof. vm_compute. repeat split. Qed.

(** ** The single-file boundary *)

(** C6: [process_one] always returns a record.  Whatever exception leaves
    the body of the [try], at whatever stage, the record returned has
    status [ERROR] and the message is the class name of the exception, a
    colon, and its text; the other fields are as the body left them. *)
Theorem process_one_records_exceptions (w : World) (p : path) (args : Args)
    (s s1 : state) (e : exn) :
  process_one_body w p args (set_result (initial_result p) s) = (Raise e, s1) ->
  let out := process_one w p args s in
  r_status out.1 = "ERROR" /\
  r_message out.1 = class_name (e_class e) +:+ ": " +:+ e_msg e /\
  r_file out.1 = r_file (st_result s1) /\
  r_reasons out.1 = r_reasons (st_result s1) /\
  r_action out.1 = r_action (st_result s1) /\
  fs out.2 = fs s1.
Proof.
  intros Hbody. cbn zeta. rewrite process_one_run, Hbody. cbn. repeat split.
Qed.

Lemma process_one_records_exceptions_witness :
  let out := process_one (failing_at 0 (mkExn PermissionError "denied") ffmpeg_only)
               song backup_args (start {[ song := cover_heavy_file ]}) in
  r_status out.1 = "ERROR" /\
  r_message out.1 = "PermissionError: denied" /\
  r_file out.1 = "music/a.flac" /\
  r_reasons out.1 = "" /\
  r_action out.1 = "" /\
  fs out.2 = {[ song := cover_heavy_file ]}.
Proof.
  exact (process_one_records_exceptions
           (failing_at 0 (mkExn PermissionError "denied") ffmpeg_only)
           song backup_args (start {[ song := cover_heavy_file ]})
           (mkState {[ song := cover_heavy_file ]} 1 []
              (initial_result song))
           (mkExn PermissionError "denied") eq_refl).
Defined.

(** Failures at three other stages: the backup copy, the launch of the
    re-encoder, and the removal of the scratch directory. *)
Example error_in_backup :
  let out := process_one (failing_at 3 (mkExn OSError "No space left on device")
                            ffmpeg_only)
               song backup_args (start {[ song := cover_heavy_file ]}) in
  r_status out.1 = "ERROR" /\
  r_message out.1 = "OSError: No space left on device" /\
  r_action out.1 = "ffmpeg" /\
  fs out.2 !! song = Some cover_heavy_file.
Proof. vm_compute. repeat split. Qed.

Example error_launching_tool :
  let out := process_one (failing_at 5 (mkExn FileNotFoundError "ffmpeg")
                            ffmpeg_only)
               song backup_args (start {[ song := cover_heavy_file ]}) in
  r_status out.1 = "ERROR" /\
  r_message out.1 = "FileNotFoundError: ffmpeg" /\
  fs out.2 !! song = Some cover_heavy_file.
Proof. vm_compute. repeat split. Qed.

Example error_in_cleanup :
  let out := process_one (failing_at 9 (mkExn PermissionError "locked")
                            ffmpeg_only)
               song backup_args (start {[ song := cover_heavy_file ]}) in
  r_status out.1 = "ERROR" /\
  r_message out.1 = "PermissionError: locked" /\
  fs out.2 !! song = Some rewritten_file.
Proof. vm_compute. repeat split. Qed.

(** A target that is in use is replaced through the [.old] sibling. *)
Example locked_target_is_replaced :
  let out := process_one (failing_at 7 (mkExn PermissionError "in use")
                            ffmpeg_only)
               song backup_args (start {[ song := cover_heavy_file ]}) in
  r_status out.1 = "FIXED" /\
  fs out.2 !! song = Some rewritten_file /\
  fs out.2 !! ["music"; "a.flac.old"] = None.
Proof. vm_compute. repeat split. Qed.

(** The same early unlink inside a repair: the candidate passed its check,
    the target was removed, and the rename then fails with an error that is
    not a [PermissionError].  The run ends in [ERROR] and the original path
    is empty; only the backup copy is left. *)
Example rename_failure_loses_original :
  let out := process_one (failing_at 8 (mkExn OSError "Input/output error")
                            ffmpeg_only)
               song backup_args (start {[ song := cover_heavy_file ]}) in
  r_status out.1 = "ERROR" /\
  r_message out.1 = "OSError: Input/output error" /\
  fs out.2 !! song = None /\
  fs out.2 !! ["bak"; "a.flac"] = Some cover_heavy_file.
Proof. vm_compute. repeat split. Qed.

(** * Further properties *)

(** ** Block headers *)

Lemma lor_shiftl_add (a b k : Z) :
  0 <= k -> 0 <= b < 2 ^ k -> Z.lor (Z.shiftl a k) b = a * 2 ^ k + b.
Proof.
  intros Hk Hb. rewrite Z.shiftl_mul_pow2 by exact Hk.
  assert (Hdisj : Z.land (a * 2 ^ k) b = 0).
  { apply Z.bits_inj'. intros n Hn. rewrite Z.land_spec, Z.bits_0.
    destruct (Z.lt_ge_cases n k) as [Hlow|Hhigh].
    - rewrite Z.mul_pow2_bits_low by exact Hlow. reflexivity.
    - destruct (Z.eq_dec b 0) as [->|Hnz].
      + rewrite Z.bits_0. apply andb_false_r.
      + rewrite (Z.bits_above_log2 b n), andb_false_r; [reflexivity|lia|].
        apply Z.log2_lt_pow2; [lia|].
        assert (2 ^ k <= 2 ^ n) by (apply Z.pow_le_mono_r; lia). lia. }
  rewrite <- Z.lxor_lor by exact Hdisj. symmetry.
  apply Z.add_nocarry_lxor, Hdisj.
Qed.

(** The payload length of a header: the three bytes as a big-endian
    number. *)
Lemma header_length_value (b1 b2 b3 : byte) :
  Z.lor (Z.lor (Z.shiftl (byte_val b1) 16) (Z.shiftl (byte_val b2) 8)) (byte_val b3)
  = byte_val b1 * 65536 + byte_val b2 * 256 + byte_val b3.
Proof.
  pose proof (byte_val_range b1). pose proof (byte_val_range b2).
  pose proof (byte_val_range b3).
  replace (Z.shiftl (byte_val b1) 16) with (Z.shiftl (Z.shiftl (byte_val b1) 8) 8)
    by (rewrite Z.shiftl_shiftl by lia; reflexivity).
  rewrite <- Z.shiftl_lor.
  rewrite (lor_shiftl_add (byte_val b1) (byte_val b2) 8) by (change (2 ^ 8) with 256; lia).
  rewrite lor_shiftl_add by (change (2 ^ 8) with 256; lia).
  change (2 ^ 8) with 256. lia.
Qed.

Lemma header_type_range (b0 : byte) : 0 <= Z.land (byte_val b0) 127 <= 127.
Proof.
  assert (H : Z.land (byte_val b0) 127 = byte_val b0 mod 128)
    by (change 127 with (Z.ones 7); rewrite Z.land_ones by lia; reflexivity).
  rewrite H. pose proof (Z.mod_pos_bound (byte_val b0) 128). lia.
Qed.

(** One pass of the loop, spelled out: a short header ends the walk with
    the variables as they are; a full header appends one block, whose
    fields are in range. *)
Lemma walk_step_spec (s : walk_state) :
  let f := w_file s in
  (exists f', walk_step s =
     inl (mkWalk f' (w_blocks s) (w_streaminfo s) (w_total_meta s)
            (w_picture_bytes s) (w_unknown_cnt s) (w_last_marked s)) /\
     (length (h_data f) < h_pos f + 4)%nat)
  \/
  (exists b f' si,
     (h_pos f + 4 <= length (h_data f))%nat /\
     0 <= mb_type b <= 127 /\ 0 <= mb_length b < 2 ^ 24 /\
     mb_offset b = Z.of_nat (h_pos f) /\
     h_data f' = h_data f /\
     (is_streaminfo_34 b ->
        (h_pos f + 4 <= h_pos f' <= h_pos f + 38)%nat /\ si <> None) /\
     (~ is_streaminfo_34 b ->
        Z.of_nat (h_pos f') = Z.of_nat (h_pos f) + 4 + mb_length b /\
        si = w_streaminfo s) /\
     walk_step s =
       (if mb_is_last b then inl else inr)
         (mkWalk f' (w_blocks s ++ [b]) si
            (w_total_meta s + (mb_length b + 4))
            (if mb_type b =? 6 then w_picture_bytes s + mb_length b
             else w_picture_bytes s)
            (if in_type_names (mb_type b) then w_unknown_cnt s
             else w_unknown_cnt s + 1)
            (if mb_is_last b then true else w_last_marked s))).
Proof.
  cbn zeta. unfold walk_step, f_read. cbn zeta.
  destruct (firstn 4 (skipn (h_pos (w_file s)) (h_data (w_file s)))) as
    [|b0 [|b1 [|b2 [|b3 [|b4 rest]]]]] eqn:Hhdr;
    pose proof (f_equal length Hhdr) as Hlen;
    rewrite length_firstn, length_skipn in Hlen; cbn [length] in Hlen;
    try (left; eexists; split; [reflexivity|lia]).
  right.
  set (btype := Z.land (byte_val b0) 127).
  set (len := Z.lor _ (byte_val b3)).
  set (is_last := negb (Z.land (byte_val b0) 128 =? 0)).
  set (f1 := mkHandle _ _).
  assert (Hlenv : 0 <= len < 2 ^ 24).
  { unfold len. rewrite header_length_value.
    pose proof (byte_val_range b1). pose proof (byte_val_range b2).
    pose proof (byte_val_range b3). change (2 ^ 24) with 16777216. lia. }
  pose proof (header_type_range b0) as Htype. fold btype in Htype.
  destruct ((btype =? 0) && (len =? 34)) eqn:Hsi.
  - apply andb_prop in Hsi as [Ht Hl].
    apply Z.eqb_eq in Ht. apply Z.eqb_eq in Hl.
    exists (mkMetaBlock btype len (f_tell f1 - 4) is_last),
      (mkHandle (h_data f1)
         (h_pos f1 + length (firstn 34 (skipn (h_pos f1) (h_data f1))))),
      (Some (decode_streaminfo (firstn 34 (skipn (h_pos f1) (h_data f1))))).
    cbn [mb_type mb_length mb_offset mb_is_last h_data].
    split; [lia|]. split; [exact Htype|]. split; [exact Hlenv|].
    split; [unfold f_tell, f1; cbn; lia|]. split; [reflexivity|].
    split; [|split].
    + intros _. cbn [h_pos]. rewrite length_firstn, length_skipn.
      unfold f1. cbn [h_pos h_data length]. split; [lia|discriminate].
    + intros Hno. exfalso. apply Hno. split; assumption.
    + destruct is_last; reflexivity.
  - exists (mkMetaBlock btype len (f_tell f1 - 4) is_last),
      (f_seek_cur len f1), (w_streaminfo s).
    cbn [mb_type mb_length mb_offset mb_is_last].
    split; [lia|]. split; [exact Htype|]. split; [exact Hlenv|].
    split; [unfold f_tell, f1; cbn; lia|]. split; [reflexivity|].
    split; [|split].
    + intros [Ht Hl]. cbn in Ht, Hl.
      rewrite Ht, Hl in Hsi. discriminate.
    + intros _. unfold f_seek_cur, f1. cbn [h_pos h_data length].
      split; [lia|reflexivity].
    + destruct is_last; reflexivity.
Qed.

(** An invariant of the passes that go round again gives what holds at the
    [break]. *)
Lemma walk_rule (I F : walk_state -> Prop) :
  (forall s, I s ->
     match walk_step s with inl final => F final | inr s' => I s' end) ->
  forall fuel s final, I s -> walk fuel s = Some final -> F final.
Proof.
  intros Hstep. induction fuel as [|fuel IH]; intros s final Hs; [discriminate|].
  rewrite walk_S. specialize (Hstep s Hs).
  destruct (walk_step s) as [f|s'].
  - intros [= <-]. exact Hstep.
  - apply IH, Hstep.
Qed.

(** The probe of a file with the magic is the state in which the walk
    breaks. *)
Lemma parse_flac_bytes_walk (bs : bytes) :
  firstn 4 bs = magic ->
  exists final,
    walk (length bs) (mkWalk (mkHandle bs 4) [] None 0 0 0 false) = Some final /\
    parse_flac_bytes bs =
      mkFlacProbe true "OK" true (w_blocks final) (w_streaminfo final)
        (w_total_meta final) (w_picture_bytes final) (w_unknown_cnt final)
        (w_last_marked final).
Proof.
  intros Hmagic.
  assert (Hlen : (4 <= length bs)%nat).
  { apply (f_equal length) in Hmagic. rewrite length_firstn in Hmagic.
    change (length magic) with 4%nat in Hmagic. lia. }
  destruct (walk_enough (length bs) (mkWalk (mkHandle bs 4) [] None 0 0 0 false))
    as [final Hfinal]; [cbn; lia|].
  exists final. split; [exact Hfinal|].
  unfold parse_flac_bytes, parse_flac_fuel, f_read. cbn [h_pos h_data].
  change (skipn 0 bs) with bs.
  destruct (decide (firstn 4 bs = magic)) as [_|]; [|contradiction].
  rewrite Hmagic. change (0 + length magic)%nat with 4%nat.
  rewrite Hfinal. reflexivity.
Qed.

(** ** What the walk records *)

Lemma meta_bytes_snoc bl b : meta_bytes (bl ++ [b]) = meta_bytes bl + (mb_length b + 4).
Proof. induction bl as [|b' bl IH]; cbn; [lia|]. unfold meta_bytes in IH. rewrite IH. lia. Qed.

Lemma picture_bytes_snoc bl b :
  picture_bytes (bl ++ [b]) =
  if mb_type b =? 6 then picture_bytes bl + mb_length b else picture_bytes bl.
Proof.
  induction bl as [|b' bl IH]; cbn.
  - destruct (mb_type b =? 6); lia.
  - unfold picture_bytes in IH. rewrite IH.
    destruct (mb_type b' =? 6), (mb_type b =? 6); lia.
Qed.

Lemma unknown_blocks_snoc bl b :
  unknown_blocks (bl ++ [b]) =
  if in_type_names (mb_type b) then unknown_blocks bl else unknown_blocks bl + 1.
Proof.
  induction bl as [|b' bl IH].
  - unfold unknown_blocks. cbn [app fold_right].
    destruct (in_type_names (mb_type b)); lia.
  - change (unknown_blocks ((b' :: bl) ++ [b]))
      with (if in_type_names (mb_type b') then unknown_blocks (bl ++ [b])
            else unknown_blocks (bl ++ [b]) + 1).
    change (unknown_blocks (b' :: bl))
      with (if in_type_names (mb_type b') then unknown_blocks bl
            else unknown_blocks bl + 1).
    rewrite IH.
    destruct (in_type_names (mb_type b')), (in_type_names (mb_type b)); lia.
Qed.

Lemma chained_snoc bl b' :
  chained (bl ++ [b']) <->
  chained bl /\ match last bl with Some b => follows b b' | None => True end.
Proof.
  induction bl as [|b [|b2 rest] IH].
  - cbn. tauto.
  - cbn. tauto.
  - change (chained ((b :: b2 :: rest) ++ [b']))
      with (follows b b2 /\ chained ((b2 :: rest) ++ [b'])).
    rewrite IH. rewrite last_cons_cons.
    change (chained (b :: b2 :: rest)) with (follows b b2 /\ chained (b2 :: rest)).
    tauto.
Qed.

(** Shape and position are kept by a pass that goes round again, and the
    shape holds at the [break]. *)
Lemma walk_step_shape (bs : list byte) (s : walk_state) :
  walk_shape (length bs) s /\ walk_position bs s ->
  match walk_step s with
  | inl final => walk_shape (length bs) final
  | inr s' => walk_shape (length bs) s' /\ walk_position bs s'
  end.
Proof.
  intros [(Htot & Hpic & Hunk & Hrange & Hchain & Hhead) [Hdata Hpos]].
  destruct (walk_step_spec s) as
    [(f' & -> & _)
    |(b & f' & si & Hin & Htype & Hlen & Hoff & Hdata' & Hsi & Hnosi & ->)].
  { repeat split; assumption. }
  assert (Hshape : forall marked,
    walk_shape (length bs)
      (mkWalk f' (w_blocks s ++ [b]) si (w_total_meta s + (mb_length b + 4))
         (if mb_type b =? 6 then w_picture_bytes s + mb_length b
          else w_picture_bytes s)
         (if in_type_names (mb_type b) then w_unknown_cnt s
          else w_unknown_cnt s + 1) marked)).
  { intros marked. unfold walk_shape. cbn [w_blocks w_total_meta w_picture_bytes
                                           w_unknown_cnt].
    rewrite meta_bytes_snoc, picture_bytes_snoc, unknown_blocks_snoc,
      Htot, Hpic, Hunk.
    split; [reflexivity|]. split; [reflexivity|]. split; [reflexivity|].
    assert (Hoff4 : 4 <= mb_offset b).
    { destruct (last (w_blocks s)) as [b'|] eqn:Hlast; [|lia].
      apply last_Some in Hlast as [bl' Hbl']. rewrite Hbl' in Hrange.
      apply Forall_app in Hrange as [_ Hb'].
      apply Forall_cons in Hb' as [(_ & _ & Hb' & _) _]. lia. }
    split; [|split].
    - apply Forall_app. split; [exact Hrange|].
      apply Forall_cons. split; [|apply Forall_nil; exact I].
      unfold block_in_range. rewrite <- Hdata in *. lia.
    - apply chained_snoc. split; [exact Hchain|].
      destruct (last (w_blocks s)) as [b'|] eqn:Hlast; [|exact I].
      destruct Hpos as (Hge & Hst & Hnst). unfold follows.
      rewrite Hoff. split; [lia|]. split; [intros Hn; apply Hnst, Hn|exact Hst].
    - intros b0. destruct (w_blocks s) as [|b1 bl] eqn:Hbl.
      + cbn. intros [= <-]. cbn in Hpos. lia.
      + cbn. intros [= <-]. apply Hhead. reflexivity. }
  destruct (mb_is_last b); [apply Hshape|].
  split; [apply Hshape|].
  split; [cbn; congruence|]. cbn [w_blocks w_file].
  rewrite last_snoc. rewrite Hoff.
  split; [|split].
  - destruct (decide (is_streaminfo_34 b)) as [Hb|Hb].
    + destruct (Hsi Hb) as [? _]. lia.
    + destruct (Hnosi Hb) as [? _]. lia.
  - intros Hb. destruct (Hsi Hb) as [? _]. lia.
  - intros Hb. destruct (Hnosi Hb) as [? _]. lia.
Qed.

Lemma probe_shape (bs : bytes) :
  let p := parse_flac_bytes bs in
  total_meta_bytes_with_headers p = meta_bytes (blocks p) /\
  picture_bytes_total p = picture_bytes (blocks p) /\
  unknown_block_count p = unknown_blocks (blocks p) /\
  Forall (block_in_range (length bs)) (blocks p) /\
  chained (blocks p) /\
  (forall b, head (blocks p) = Some b -> mb_offset b = 4).
Proof.
  cbn zeta. destruct (decide (firstn 4 bs = magic)) as [Hmagic|Hmagic].
  - destruct (parse_flac_bytes_walk bs Hmagic) as (final & Hwalk & ->).
    cbn [total_meta_bytes_with_headers picture_bytes_total unknown_block_count
         blocks].
    refine (walk_rule (fun s => walk_shape (length bs) s /\ walk_position bs s)
              (walk_shape (length bs)) (walk_step_shape bs) _ _ _ _ Hwalk).
    split; [|split; reflexivity].
    repeat split; try reflexivity; [apply Forall_nil; exact I|discriminate].
  - rewrite (parse_flac_bytes_not_magic bs Hmagic).
    repeat split; try reflexivity; [apply Forall_nil; exact I|discriminate].
Qed.

Lemma walk_step_marks (s : walk_state) :
  w_last_marked s = false /\ Forall unmarked (w_blocks s) ->
  match walk_step s with
  | inl final => marked_by_last (w_last_marked final) (w_blocks final)
  | inr s' => w_last_marked s' = false /\ Forall unmarked (w_blocks s')
  end.
Proof.
  intros [Hflag Hblocks].
  destruct (walk_step_spec s) as
    [(f' & -> & _)|(b & f' & si & _ & _ & _ & _ & _ & _ & _ & ->)].
  { right. split; assumption. }
  destruct (mb_is_last b) eqn:Hb; cbn [w_last_marked w_blocks].
  - left. split; [reflexivity|]. exists (w_blocks s), b. repeat split; assumption.
  - split; [exact Hflag|]. apply Forall_app. split; [exact Hblocks|].
    apply Forall_cons. split; [exact Hb|apply Forall_nil; exact I].
Qed.


(** X1: the three counters of a probe are sums over the blocks it lists:
    four header bytes plus the payload length for every block, the payload
    lengths of the PICTURE blocks, and one for every block whose type is
    not in [TYPE_NAMES]. *)
Theorem probe_counters_match_blocks (bs : bytes) :
  let p := parse_flac_bytes bs in
  total_meta_bytes_with_headers p = meta_bytes (blocks p) /\
  picture_bytes_total p = picture_bytes (blocks p) /\
  unknown_block_count p = unknown_blocks (blocks p).
Proof. pose proof (probe_shape bs) as H. cbn zeta in *. tauto. Qed.

(** X2: every recorded block has a type in 0..127 and a length below
    2^24, and its four header bytes lie inside the file, after the magic. *)
Theorem probe_blocks_in_range (bs : bytes) :
  Forall (block_in_range (length bs)) (blocks (parse_flac_bytes bs)).
Proof. pose proof (probe_shape bs) as H. cbn zeta in *. tauto. Qed.


(** X4: [last_block_marked] is true exactly when the walk stopped at a
    block with the is-last bit; that block is the last one recorded, and
    no block before it has the bit.  A chain that runs into the end of the
    file has no marked block at all. *)
Theorem last_block_marked_iff (bs : bytes) :
  let p := parse_flac_bytes bs in
  marked_by_last (last_block_marked p) (blocks p).
Proof.
  cbn zeta. destruct (decide (firstn 4 bs = magic)) as [Hmagic|Hmagic].
  - destruct (parse_flac_bytes_walk bs Hmagic) as (final & Hwalk & ->).
    cbn [last_block_marked blocks].
    refine (walk_rule _ _ walk_step_marks _ _ _ _ Hwalk).
    split; [reflexivity|apply Forall_nil; exact I].
  - rewrite (parse_flac_bytes_not_magic bs Hmagic).
    right. split; [reflexivity|apply Forall_nil; exact I].
Qed.

(** ** The decoded fields *)

(** X5: whatever the payload, the decoded fields are in the range of their
    bit widths: a 20-bit sample rate, 1 to 8 channels, 1 to 32 bits per
    sample and a 36-bit sample count. *)
Theorem streaminfo_field_ranges (data : list byte) :
  let si := decode_streaminfo data in
  0 <= sample_rate si < 2 ^ 20 /\
  1 <= channels si <= 8 /\
  1 <= bits_per_sample si <= 32 /\
  0 <= total_samples si < 2 ^ 36.
Proof.
  cbn zeta. unfold decode_streaminfo.
  cbn [sample_rate channels bits_per_sample total_samples].
  set (x := int_from_bytes_big (slice 10 18 data)).
  change (Z.shiftl 1 20 - 1) with (Z.ones 20).
  change (Z.shiftl 1 36 - 1) with (Z.ones 36).
  change 7 with (Z.ones 3). change 31 with (Z.ones 5).
  rewrite !Z.land_ones by lia.
  pose proof (Z.mod_pos_bound (Z.shiftr x (3 + 5 + 36)) (2 ^ 20) ltac:(lia)).
  pose proof (Z.mod_pos_bound (Z.shiftr x (5 + 36)) (2 ^ 3) ltac:(lia)).
  pose proof (Z.mod_pos_bound (Z.shiftr x 36) (2 ^ 5) ltac:(lia)).
  pose proof (Z.mod_pos_bound x (2 ^ 36) ltac:(lia)).
  change (2 ^ 3) with 8 in *. change (2 ^ 5) with 32 in *. lia.
Qed.

Lemma int_from_bytes_big_inj_8 (a a' : list byte) :
  length a = 8%nat -> length a' = 8%nat ->
  int_from_bytes_big a = int_from_bytes_big a' -> a = a'.
Proof.
  intros Ha Ha' Heq.
  rewrite <- (int_to_from_bytes_big_8 a Ha), <- (int_to_from_bytes_big_8 a' Ha').
  rewrite Heq. reflexivity.
Qed.

(** X6: the four fields carry the whole of [data[10:18]]: two payloads of
    at least 18 bytes that decode to the same fields have the same eight
    bytes there. *)
Theorem streaminfo_fields_determine_bytes (data data' : list byte) :
  (18 <= length data)%nat -> (18 <= length data')%nat ->
  decode_streaminfo data = decode_streaminfo data' ->
  slice 10 18 data = slice 10 18 data'.
Proof.
  intros Hlen Hlen' Heq.
  assert (H8 : forall d : list byte, (18 <= length d)%nat ->
                 length (slice 10 18 d) = 8%nat).
  { intros d Hd. unfold slice. rewrite length_firstn, length_skipn. lia. }
  apply int_from_bytes_big_inj_8; [apply H8, Hlen|apply H8, Hlen'|].
  pose proof (int_from_bytes_big_bound (slice 10 18 data)) as Hx.
  pose proof (int_from_bytes_big_bound (slice 10 18 data')) as Hx'.
  rewrite (H8 data Hlen) in Hx. rewrite (H8 data' Hlen') in Hx'.
  change (256 ^ Z.of_nat 8) with (2 ^ 64) in *.
  rewrite <- (fields_repack _ Hx), <- (fields_repack _ Hx').
  unfold decode_streaminfo in Heq. injection Heq as -> Hch Hbps ->.
  assert (Hch' : Z.land (Z.shiftr (int_from_bytes_big (slice 10 18 data)) (5 + 36)) 7
                 = Z.land (Z.shiftr (int_from_bytes_big (slice 10 18 data')) (5 + 36)) 7)
    by lia.
  assert (Hbps' : Z.land (Z.shiftr (int_from_bytes_big (slice 10 18 data)) 36) 31
                  = Z.land (Z.shiftr (int_from_bytes_big (slice 10 18 data')) 36) 31)
    by lia.
  rewrite Hch', Hbps'. reflexivity.
Qed.

Lemma streaminfo_fields_determine_bytes_witness :
  slice 10 18 (repeat x00 10 ++ repeat xa5 8) = slice 10 18 (repeat xff 10 ++ repeat xa5 10).
Proof.
  apply (streaminfo_fields_determine_bytes (repeat x00 10 ++ repeat xa5 8)
           (repeat xff 10 ++ repeat xa5 10)).
  - cbn. lia.
  - cbn. lia.
  - reflexivity.
Defined.

(** ** Sizes and thresholds *)

Lemma round_half_even_ge (num den : Z) : num / den <= round_half_even num den.
Proof.
  unfold round_half_even.
  repeat match goal with |- context [if ?c then _ else _] => destruct c end; lia.
Qed.

Lemma float_of_int_exact (n : Z) : Z.abs n < 2 ^ 53 -> float_of_int n = Ok n.
Proof.
  intros Hn. unfold float_of_int.
  assert (Hlog : Z.log2 (Z.abs n) <= 52).
  { destruct (Z.eq_dec (Z.abs n) 0) as [->|Hne]; [cbn; lia|].
    assert (Z.log2 (Z.abs n) < 53) by (apply Z.log2_lt_pow2; lia). lia. }
  replace (Z.max 0 (Z.log2 (Z.abs n) - 52)) with 0 by lia.
  change (2 ^ 0) with 1. unfold round_half_even.
  rewrite Z.div_1_r, Z.mod_1_r.
  change (2 * 0 <? 1) with true. cbn iota. rewrite Z.mul_1_r.
  destruct (2 ^ 1024 <=? Z.abs n) eqn:Hov.
  - apply Z.leb_le in Hov.
    assert (2 ^ 53 <= 2 ^ 1024) by (apply Z.pow_le_mono_r; lia). lia.
  - f_equal. lia.
Qed.

Lemma float_of_int_overflow (n : Z) :
  2 ^ 1024 <= Z.abs n ->
  float_of_int n = Raise (mkExn OverflowError "int too large to convert to float").
Proof.
  intros Hn. unfold float_of_int.
  set (a := Z.abs n) in *.
  assert (Hpos : 0 < a) by (assert (0 < 2 ^ 1024) by (apply Z.pow_pos_nonneg; lia); lia).
  pose proof (Z.log2_spec a Hpos) as [Hlo Hhi].
  assert (Hlog : 1024 <= Z.log2 a).
  { apply Z.log2_le_pow2; [exact Hpos|exact Hn]. }
  replace (Z.max 0 (Z.log2 a - 52)) with (Z.log2 a - 52) by lia.
  set (sh := Z.log2 a - 52).
  assert (Hd : 0 < 2 ^ sh) by (apply Z.pow_pos_nonneg; unfold sh; lia).
  assert (Hsplit : 2 ^ Z.log2 a = 2 ^ 52 * 2 ^ sh).
  { rewrite <- Z.pow_add_r by (unfold sh; lia). f_equal. unfold sh. lia. }
  assert (Hq : 2 ^ 52 <= a / 2 ^ sh).
  { apply Z.div_le_lower_bound; [exact Hd|]. rewrite Z.mul_comm. lia. }
  pose proof (round_half_even_ge a (2 ^ sh)) as Hr.
  assert (Hbig : 2 ^ 1024 <= round_half_even a (2 ^ sh) * 2 ^ sh).
  { assert (2 ^ 1024 <= 2 ^ Z.log2 a) by (apply Z.pow_le_mono_r; lia). nia. }
  apply Z.leb_le in Hbig. rewrite Hbig. reflexivity.
Qed.

Lemma human_bytes_raises (n : Z) (e : exn) :
  human_bytes n = Raise e -> e_class e = OverflowError.
Proof.
  unfold human_bytes, float_of_int.
  destruct (2 ^ 1024 <=? _); cbn [mbind result_bind].
  - intros [= <-]. reflexivity.
  - repeat match goal with |- context [if ?c then _ else _] => destruct c end;
      discriminate.
Qed.

(** X7: a size of less than 1024 bytes is printed as the number itself
    followed by [B], with no digit lost in the conversion to a float. *)
Theorem human_bytes_below_1024 (n : Z) :
  0 <= n < 1024 -> human_bytes n = Ok (pretty n +:+ "B").
Proof.
  intros Hn. unfold human_bytes.
  assert (H53 : 1024 < 2 ^ 53) by reflexivity.
  rewrite float_of_int_exact by lia. cbn [mbind result_bind].
  destruct (n <? 1024) eqn:Hlt; [reflexivity|]. apply Z.ltb_ge in Hlt. lia.
Qed.

Lemma human_bytes_below_1024_witness : human_bytes 1023 = Ok "1023B".
Proof. apply (human_bytes_below_1024 1023). lia. Defined.

(** X8: [human_bytes] has no unit above GB and no guard on its argument:
    a size of 2^1024 or more does not fit a float and the call raises
    OverflowError. *)
Theorem human_bytes_overflow (n : Z) :
  2 ^ 1024 <= Z.abs n ->
  exists msg, human_bytes n = Raise (mkExn OverflowError msg).
Proof.
  intros Hn. unfold human_bytes. rewrite (float_of_int_overflow n Hn).
  eexists. reflexivity.
Qed.

Lemma human_bytes_overflow_witness :
  exists msg, human_bytes (2 ^ 1024) = Raise (mkExn OverflowError msg).
Proof. apply (human_bytes_overflow (2 ^ 1024)). cbn. lia. Defined.

(** X9: a threshold in MB that is a whole number of bytes ([m * 2^e] with
    [e >= -20]) and in the float range becomes exactly that number of
    bytes: [int(x * 1024 * 1024)] truncates nothing. *)
Theorem threshold_bytes_exact (m e : Z) :
  - 20 <= e -> Z.abs m * 2 ^ (e + 20) < 2 ^ 1024 ->
  py_int (fmul_1024 (fmul_1024 (FFinite m e))) = Ok (m * 2 ^ (e + 20)).
Proof.
  intros He Hfit.
  assert (Hsplit : 2 ^ (e + 20) = 2 ^ (e + 20 - Z.max (e + 10) 0) * 2 ^ Z.max (e + 10) 0).
  { rewrite <- Z.pow_add_r by lia. f_equal. lia. }
  assert (Hp : 0 < 2 ^ (e + 20 - Z.max (e + 10) 0)) by (apply Z.pow_pos_nonneg; lia).
  assert (Hq : 0 < 2 ^ Z.max (e + 10) 0) by (apply Z.pow_pos_nonneg; lia).
  assert (Hr : 0 < 2 ^ Z.max (- (e + 10)) 0) by (apply Z.pow_pos_nonneg; lia).
  assert (H1024 : 0 < 2 ^ 1024) by (apply Z.pow_pos_nonneg; lia).
  cbn [fmul_1024].
  destruct (_ <=? _) eqn:Hov1.
  { apply Z.leb_le in Hov1. exfalso. nia. }
  cbn [fmul_1024].
  replace (e + 10 + 10) with (e + 20) by lia.
  replace (Z.max (- (e + 20)) 0) with 0 by lia.
  replace (Z.max (e + 20) 0) with (e + 20) by lia.
  change (2 ^ 0) with 1. rewrite Z.mul_1_r.
  clear Hov1.
  destruct (2 ^ 1024 <=? Z.abs m * 2 ^ (e + 20)) eqn:Hov2.
  { apply Z.leb_le in Hov2. lia. }
  cbn [py_int].
  replace (Z.max (e + 20) 0) with (e + 20) by lia.
  replace (Z.max (- (e + 20)) 0) with 0 by lia.
  change (2 ^ 0) with 1. rewrite Z.quot_1_r. reflexivity.
Qed.

Lemma threshold_bytes_exact_witness :
  py_int (fmul_1024 (fmul_1024 (FFinite 3 (-1)))) = Ok (3 * 2 ^ (-1 + 20)).
Proof. apply (threshold_bytes_exact 3 (-1)); cbn; lia. Defined.

(** ** The plan *)

Lemma decide_fix_keep_cover (w : World) probe decode_ok keep thr_mb maxc plan :
  decide_fix w probe decode_ok keep thr_mb maxc = Ok plan ->
  keep_cover plan = keep && negb (maxc <? picture_bytes_total probe).
Proof.
  unfold decide_fix.
  destruct (py_int _) as [threshold|e]; [|discriminate]. cbn [mbind result_bind].
  destruct (threshold <? total_meta_bytes_with_headers probe);
    [destruct (human_bytes (total_meta_bytes_with_headers probe)); [|discriminate]|];
    (destruct (maxc <? picture_bytes_total probe);
      [destruct (human_bytes (picture_bytes_total probe)); [|discriminate];
       destruct (human_bytes maxc); [|discriminate]|]);
    cbn [mbind result_bind]; intros [= <-]; cbn [keep_cover];
    destruct keep; reflexivity.
Qed.

Lemma decide_fix_action (w : World) probe decode_ok keep thr_mb maxc plan :
  decide_fix w probe decode_ok keep thr_mb maxc = Ok plan ->
  action plan =
    (if needs_fix plan then
       if which w "ffmpeg" then "ffmpeg"
       else if which w "flac" then "flac"
       else if which w "metaflac" then "metaflac" else "skip"
     else "skip").
Proof.
  intros Hplan.
  destruct (decide_fix_inv w _ _ _ _ _ _ Hplan) as (_ & _ & _ & _ & Haction & _).
  rewrite Haction. unfold chosen_action.
  destruct (needs_fix plan), (contains _ _), (which w "metaflac"),
    (which w "ffmpeg"), (which w "flac"); reflexivity.
Qed.

(** A plan that needs no fix: the decode check had passed, there are no
    reasons and the action is [skip]. *)
Lemma decide_fix_clean (w : World) probe decode_ok keep thr_mb maxc plan :
  decide_fix w probe decode_ok keep thr_mb maxc = Ok plan ->
  needs_fix plan = false ->
  decode_ok = true /\ reasons plan = [] /\ action plan = "skip".
Proof.
  intros Hplan Hclean.
  pose proof (decide_fix_action w _ _ _ _ _ _ Hplan) as Haction.
  destruct (decide_fix_inv w _ _ _ _ _ _ Hplan)
    as (threshold & _ & Hreasons & Hneeds & _).
  rewrite Hclean in Haction, Hneeds.
  destruct (reasons plan) as [|r rs] eqn:Hrs; [|discriminate].
  repeat split; [|exact Haction].
  destruct decode_ok; [reflexivity|]. discriminate.
Qed.

(** X10: the action of a plan follows the installed tools in a fixed
    priority: nothing to fix gives [skip]; otherwise [ffmpeg] if it is
    installed, else [flac], else [metaflac], else [skip].  The later
    override for oversized covers never changes this choice. *)
Theorem action_follows_tool_priority (w : World) (probe : FlacProbe)
    (decode_ok keep : bool) (thr_mb : pyfloat) (maxc : Z) (plan : FixPlan) :
  decide_fix w probe decode_ok keep thr_mb maxc = Ok plan ->
  action plan =
    (if needs_fix plan then
       if which w "ffmpeg" then "ffmpeg"
       else if which w "flac" then "flac"
       else if which w "metaflac" then "metaflac" else "skip"
     else "skip").
Proof. apply decide_fix_action. Qed.

Lemma action_follows_tool_priority_witness :
  action (mkFixPlan true [reason_meta "8.6MB"] "skip" false) =
    (if needs_fix (mkFixPlan true [reason_meta "8.6MB"] "skip" false) then
       if which quiet_world "ffmpeg" then "ffmpeg"
       else if which quiet_world "flac" then "flac"
       else if which quiet_world "metaflac" then "metaflac" else "skip"
     else "skip").
Proof.
  apply (action_follows_tool_priority quiet_world
           (mkFlacProbe true "OK" true [] None 9000000 0 0 true)
           true false (FFinite 8 0) 1572864).
  reflexivity.
Defined.

(** X11: the plan keeps the cover exactly when the caller asked for it and
    the embedded pictures are not over the cap. *)
Theorem plan_keeps_cover_within_cap (w : World) (probe : FlacProbe)
    (decode_ok keep : bool) (thr_mb : pyfloat) (maxc : Z) (plan : FixPlan) :
  decide_fix w probe decode_ok keep thr_mb maxc = Ok plan ->
  (keep_cover plan = true <-> keep = true /\ picture_bytes_total probe <= maxc).
Proof.
  intros Hplan. rewrite (decide_fix_keep_cover w _ _ _ _ _ _ Hplan).
  rewrite andb_true_iff, negb_true_iff, Z.ltb_ge. reflexivity.
Qed.

Lemma plan_keeps_cover_within_cap_witness :
  keep_cover (mkFixPlan true [reason_cover "2.9MB" "1.5MB"] "metaflac" false) = true <->
  true = true /\
  picture_bytes_total (mkFlacProbe true "OK" true [] None 5000 3000000 0 true)
    <= 1572864.
Proof.
  apply (plan_keeps_cover_within_cap
           (mkWorld (fun _ => None) metaflac_only (fun _ => "tmp0")
              (fun _ _ _ => mkToolResult 0 None) (fun _ => None)
              (fun _ _ => None))
           (mkFlacProbe true "OK" true [] None 5000 3000000 0 true) true true
           (FFinite 8 0) 1572864).
  reflexivity.
Defined.

(** X12: [decide_fix] fails only in its number conversions: with
    ValueError when the metadata threshold is a NaN, and otherwise with
    OverflowError (an infinite or overflowing threshold, or a size beyond
    the float range). *)
Theorem decide_fix_raises_only_conversion_errors (w : World) (probe : FlacProbe)
    (decode_ok keep : bool) (thr_mb : pyfloat) (maxc : Z) (e : exn) :
  decide_fix w probe decode_ok keep thr_mb maxc = Raise e ->
  (thr_mb = FNan /\ e_class e = ValueError) \/
  (thr_mb <> FNan /\ e_class e = OverflowError).
Proof.
  unfold decide_fix.
  destruct (py_int _) as [threshold|e0] eqn:Hthr; cbn [mbind result_bind].
  - assert (Hfin : thr_mb <> FNan) by (intros ->; discriminate).
    intros H. right. split; [exact Hfin|]. revert H.
    destruct (threshold <? total_meta_bytes_with_headers probe);
      [destruct (human_bytes (total_meta_bytes_with_headers probe)) eqn:H1;
         [|cbn [mbind result_bind]; intros [= <-]; exact (human_bytes_raises _ _ H1)]|];
      (destruct (maxc <? picture_bytes_total probe);
        [destruct (human_bytes (picture_bytes_total probe)) eqn:H2;
           [|cbn [mbind result_bind]; intros [= <-]; exact (human_bytes_raises _ _ H2)];
         destruct (human_bytes maxc) eqn:H3;
           [|cbn [mbind result_bind]; intros [= <-]; exact (human_bytes_raises _ _ H3)]|]);
      cbn [mbind result_bind]; discriminate.
  - intros [= <-]. destruct thr_mb as [m ex|neg|].
    + right. split; [discriminate|]. cbn [fmul_1024] in Hthr.
      destruct (_ <=? _) in Hthr; cbn [fmul_1024] in Hthr;
        [|destruct (_ <=? _) in Hthr]; cbn [py_int] in Hthr;
        try discriminate; injection Hthr as <-; reflexivity.
    + right. split; [discriminate|]. injection Hthr as <-. reflexivity.
    + left. split; [reflexivity|]. injection Hthr as <-. reflexivity.
Qed.

Lemma decide_fix_raises_only_conversion_errors_witness :
  (FNan = FNan /\
   e_class (mkExn ValueError "cannot convert float NaN to integer") = ValueError) \/
  (FNan <> FNan /\
   e_class (mkExn ValueError "cannot convert float NaN to integer") = OverflowError).
Proof.
  apply (decide_fix_raises_only_conversion_errors quiet_world
           (mkFlacProbe true "OK" true [] None 0 0 0 true) true true FNan 0).
  reflexivity.
Defined.

(** ** How the processing of a file ends *)

Lemma is_flac_magic (bs : bytes) :
  is_flac (parse_flac_bytes bs) = bool_decide (firstn 4 bs = magic).
Proof.
  destruct (decide (firstn 4 bs = magic)) as [Hmagic|Hmagic].
  - rewrite bool_decide_eq_true_2 by exact Hmagic.
    destruct (parse_flac_bytes_walk bs Hmagic) as (final & _ & ->). reflexivity.
  - rewrite bool_decide_eq_false_2 by exact Hmagic.
    rewrite parse_flac_bytes_not_magic by exact Hmagic. reflexivity.
Qed.

Lemma triple_keeps {A} (Inv : state -> Prop) (m : M A) :
  keeps Inv m -> triple Inv m (fun _ => Inv) (fun _ => True).
Proof.
  intros Hm s H. specialize (Hm s H). destruct (m s) as [[a|e] s']; [exact Hm|exact I].
Qed.

Lemma triple_lift_bind {A B} (r : result A) (k : A -> M B) (P : state -> Prop) Q :
  (forall a, r = Ok a -> triple P (k a) Q (fun _ => True)) ->
  triple P (lift r ≫= k) Q (fun _ => True).
Proof.
  intros Hk s H. rewrite bind_run. unfold lift.
  destruct r as [a|e]; [exact (Hk a eq_refl s H)|exact I].
Qed.

Lemma triple_case {A} (cond : bool) (m1 m2 : M A) P Q E :
  (cond = true -> triple P m1 Q E) -> (cond = false -> triple P m2 Q E) ->
  triple P (if cond then m1 else m2) Q E.
Proof. destruct cond; auto. Qed.

Lemma triple_pre {A} (m : M A) (P P' : state -> Prop) Q E :
  triple P m Q E -> (forall s, P' s -> P s) -> triple P' m Q E.
Proof. intros Hm HP s H. exact (Hm s (HP s H)). Qed.

Lemma triple_post {A} (m : M A) (P : state -> Prop) (Q Q' : A -> state -> Prop) E :
  triple P m Q E -> (forall a s, Q a s -> Q' a s) -> triple P m Q' E.
Proof.
  intros Hm HQ s H. specialize (Hm s H). destruct (m s) as [[a|e] s']; auto.
Qed.

(** The two assignments with which every branch ends. *)
Lemma leaf_run (v msg : string) (s : state) :
  (_ ← set_status v; set_message msg) s =
  (Ok tt, mkState (fs s) (tick s) (log s)
            (mkResult (r_file (st_result s)) v (r_reasons (st_result s))
               (r_action (st_result s)) msg)).
Proof. reflexivity. Qed.

(** A decode check that passes. *)
Lemma decode_passed (w : World) (q : path) (s : state) :
  exists passed msg,
    soundfile_decode_ok w q s =
    (Ok (passed, msg),
     mkState (fs s) (S (tick s)) (log s ++ [EvDecode q passed]) (st_result s)) /\
    (passed = true ->
     sf_import w (tick s) = None /\ sf_read w (tick s) (fs s !! q) = None).
Proof.
  unfold soundfile_decode_ok.
  destruct (sf_import w (tick s)) eqn:Himp;
    [|destruct (sf_read w (tick s) _) eqn:Hread];
    eexists _, _; (split; [reflexivity|]); cbn; intros; try discriminate; auto.
Qed.

(** What [run] does to the store: nothing, or a write to its output. *)
Lemma run_store (w : World) cmd inputs (q : path) (s : state) :
  fs (run w cmd inputs (Some q) s).2 = fs s \/
  exists c, fs (run w cmd inputs (Some q) s).2 = <[q := c]> (fs s).
Proof.
  unfold run. rewrite !bind_run, effect_run.
  destruct (fault w (tick s)); [left; reflexivity|].
  rewrite !bind_run. cbn [get_fs fs].
  destruct (written _) as [c|]; cbn; eauto.
Qed.

Section Outcome.
Context (w : World) (p : path) (b : bytes) (files : gmap path bytes).
Hypothesis Hfile : files !! p = Some b.

Local Abbreviation store := (store_is files).
Local Abbreviation kept := (original_kept p b).
Local Abbreviation anyhow := (fun _ : state => True).

Lemma store_tick s t r : store s -> store (mkState (fs s) t (log s) r).
Proof. exact id. Qed.

Lemma store_fs s m' :
  (forall q, ~ no_file q -> m' !! q = fs s !! q) -> store s -> store (set_fs m' s).
Proof.
  intros Hsame Hs. unfold store_is in *. cbn. rewrite <- Hs.
  apply map_eq. intros q. apply Hsame. intros [].
Qed.

Lemma kept_tick s t r : kept s -> kept (mkState (fs s) t (log s) r).
Proof. exact id. Qed.

Lemma kept_fs s m' :
  (forall q, ~ other_than p q -> m' !! q = fs s !! q) -> kept s -> kept (set_fs m' s).
Proof.
  intros Hsame Hk. unfold original_kept. cbn. rewrite Hsame; [exact Hk|].
  unfold other_than. intros H. apply H. reflexivity.
Qed.

Lemma kept_fresh s td :
  kept s -> filter (under td) (fs s) = ∅ ->
  forall q, td `prefix_of` q -> other_than p q.
Proof.
  intros Hk Hfresh q Hq ->.
  assert (Hin : filter (under td) (fs s) !! p = Some b)
    by (apply map_lookup_filter_Some; split; [exact Hk|exact Hq]).
  rewrite Hfresh, lookup_empty in Hin. discriminate.
Qed.

Lemma store_kept s : store s -> kept s.
Proof. unfold store_is, original_kept. intros ->. exact Hfile. Qed.

Local Ltac side :=
  solve [ exact store_tick | exact store_fs | exact kept_tick | exact kept_fs
        | exact kept_fresh ].
Local Ltac keeps_with L := eapply L; try side.

Lemma triple_parse_original :
  triple store (parse_flac w p)
    (fun probe s => store s /\ probe = parse_flac_bytes b) anyhow.
Proof.
  intros s Hs. unfold parse_flac. rewrite !bind_run, effect_run.
  destruct (fault w (tick s)); [exact I|]. rewrite bind_run. cbn [get_fs fs].
  rewrite Hs, Hfile. cbn. split; reflexivity.
Qed.

Lemma triple_decode_original :
  triple store (soundfile_decode_ok w p)
    (fun dec s => store s /\ (dec.1 = true -> forall s', store s' -> accepted w p s'))
    anyhow.
Proof.
  intros s Hs. destruct (decode_passed w p s) as (passed & msg & -> & Hpass).
  split; [exact Hs|]. cbn [fst]. intros -> s' Hs'. exists (tick s).
  rewrite Hs', <- Hs. apply Hpass. reflexivity.
Qed.

Lemma repair_outcome_rmtree td s t :
  (forall q, td `prefix_of` q -> q <> p) -> repair_outcome w p b s ->
  repair_outcome w p b
    (mkState (filter (fun kv => ~ under td kv) (fs s)) t (log s) (st_result s)).
Proof.
  intros Htd.
  assert (Hsame : filter (fun kv => ~ under td kv) (fs s) !! p = fs s !! p).
  { rewrite map_lookup_filter. destruct (fs s !! p) as [v|]; [|reflexivity].
    cbn. rewrite option_guard_True; [reflexivity|].
    unfold under. cbn. intros Hp. exact (Htd p Hp eq_refl). }
  unfold repair_outcome, original_kept, accepted. cbn. rewrite Hsame. tauto.
Qed.

Lemma triple_with_TemporaryDirectory_kept dir (body : path -> M unit) :
  (forall x, (forall q, dir ++ [x] `prefix_of` q -> q <> p) ->
     triple kept (body (dir ++ [x])) (fun _ => repair_outcome w p b) anyhow) ->
  triple kept (with_TemporaryDirectory w dir body)
    (fun _ => repair_outcome w p b) anyhow.
Proof.
  intros Hbody s H. unfold with_TemporaryDirectory, mkdtemp.
  rewrite !bind_run, effect_run.
  destruct (fault w (tick s)) as [e|]; [exact I|].
  set (s1 := mkState _ _ _ _). set (td := dir ++ [tmp_name w (tick s)]).
  rewrite bind_run. cbn [get_fs].
  destruct (decide (filter (under td) (fs s1) = ∅)) as [Hfresh|]; [|exact I].
  cbn. assert (H1 : kept s1) by exact H.
  pose proof (kept_fresh s1 td H1 Hfresh) as Htd.
  specialize (Hbody _ Htd s1 H1). fold td in Hbody.
  destruct (body td s1) as [[[]|e] s2].
  - unfold rmtree. rewrite bind_run, effect_run.
    destruct (fault w (tick s2)); [exact I|].
    rewrite bind_run. exact (repair_outcome_rmtree td s2 _ Htd Hbody).
  - destruct (rmtree w td s2) as [[u|e'] s3]; exact I.
Qed.

Lemma import_block_store (out : path) (plan : FixPlan) (cover_tmp : option path)
    (s : state) :
  let m : M unit :=
    if keep_cover plan then
      match cover_tmp with
      | Some cover =>
          if which w "metaflac" then
            import_ok ← import_cover_with_metaflac w out cover;
            if (import_ok : bool) then mret tt
            else append_message "（封面导入失败）"
          else mret tt
      | None => mret tt
      end
    else mret tt in
  fs (m s).2 = fs s \/ exists c, fs (m s).2 = <[out := c]> (fs s).
Proof.
  cbn zeta. destruct (keep_cover plan); [|left; reflexivity].
  destruct cover_tmp as [cover|]; [|left; reflexivity].
  destruct (which w "metaflac") eqn:Hmeta; [|left; reflexivity].
  rewrite bind_run. unfold import_cover_with_metaflac. rewrite Hmeta. cbn [negb].
  rewrite bind_run.
  match goal with |- context [run w ?cmd ?ins (Some out) s] =>
    pose proof (run_store w cmd ins out s) as Hrun;
    destruct (run w cmd ins (Some out) s) as [[code|e] s1] end;
    [|exact Hrun].
  cbn [mret M_ret]. destruct (code =? 0); exact Hrun.
Qed.

Lemma outcome_check_and_replace out plan cover ok :
  out <> p -> out <> parent p ++ [name p +:+ ".old"] ->
  triple kept (check_and_replace w p out plan cover ok)
    (fun _ => repair_outcome w p b) anyhow.
Proof.
  intros Hout Hbak s Hk. unfold check_and_replace. rewrite bind_run.
  assert (Hfail : forall s' msg, kept s' ->
            repair_outcome w p b ((_ ← set_status "FAIL"; set_message msg) s').2).
  { intros s' msg Hk'. rewrite leaf_run. left. split; [reflexivity|].
    intros _. exact Hk'. }
  destruct ok; cbn [negb]; [|apply Hfail, Hk].
  unfold path_exists. rewrite !bind_run. cbn [get_fs mret M_ret].
  destruct (fs s !! out) as [c|] eqn:Hc.
  2:{ rewrite bool_decide_eq_false_2 by (intros [? [=]]). apply Hfail, Hk. }
  rewrite bool_decide_eq_true_2 by eauto. cbn [negb]. rewrite bind_run.
  pose proof (import_block_store out plan cover s) as Himp. cbv zeta in Himp.
  match type of Himp with fs (?m s).2 = _ \/ _ =>
    destruct (m s) as [[[]|e] s2] end; [|exact I].
  cbn [snd] in Himp.
  assert (Hk2 : kept s2).
  { unfold original_kept.
    destruct Himp as [->|[c' ->]]; [exact Hk|].
    rewrite lookup_insert_ne by exact Hout. exact Hk. }
  assert (Hc2 : exists c2, fs s2 !! out = Some c2).
  { destruct Himp as [->|[c' ->]]; [eauto|].
    rewrite lookup_insert_eq. eauto. }
  destruct Hc2 as [c2 Hc2]. rewrite bind_run.
  destruct (decode_passed w out s2) as (passed & msg & -> & Hpass).
  cbn [fst snd]. destruct passed; cbn [negb]; [|apply Hfail, Hk2].
  destruct (Hpass eq_refl) as [Himport Hread]. rewrite Hc2 in Hread.
  rewrite bind_run.
  pose proof (atomic_replace_installs_candidate w out p c2 Hout Hbak
                (mkState (fs s2) (S (tick s2)) (log s2 ++ [EvDecode out true])
                   (st_result s2)) Hc2) as Hrep.
  destruct (atomic_replace w out p _) as [[[]|e] s4]; [|exact I].
  rewrite leaf_run. right. split; [reflexivity|].
  exists (tick s2). cbn. rewrite Hrep. split; assumption.
Qed.

Lemma outcome_strip_branch out plan cover :
  ~ no_strip w ->
  triple kept
    (ok ← strip_all_metadata_with_metaflac w p;
     if (ok : bool) then
       dec2 ← soundfile_decode_ok w p;
       let dec2_ok : bool := dec2.1 in
       _ ← set_status (if dec2_ok then "FIXED" else "FAIL");
       set_message (if dec2_ok then "metaflac 清空元数据后验证"
                    else "metaflac 清空后仍不可读")
     else check_and_replace w p out plan cover ok)
    (fun _ => repair_outcome w p b) anyhow.
Proof.
  intros Hns s _. rewrite bind_run.
  destruct (strip_all_metadata_with_metaflac w p s) as [[ok|e] s1]; [|exact I].
  destruct ok.
  - rewrite bind_run.
    destruct (decode_passed w p s1) as (passed & msg & -> & Hpass).
    cbn [fst snd]. cbv zeta. rewrite leaf_run. destruct passed.
    + right. split; [reflexivity|]. exists (tick s1). cbn. apply Hpass. reflexivity.
    + left. split; [reflexivity|]. intros H. destruct (Hns H).
  - unfold check_and_replace. cbn [negb]. rewrite bind_run. cbn [mret M_ret].
    rewrite leaf_run. left. split; [reflexivity|]. intros H. destruct (Hns H).
Qed.

Lemma keeps_kept_backup dst : keeps kept (copy2 w p dst).
Proof.
  destruct (decide (dst = p)) as [->|Hdst]; [|keeps_with keeps_copy2; exact Hdst].
  intros s H. unfold copy2. rewrite !bind_run, effect_run.
  destruct (fault w (tick s)); [exact H|]. rewrite bind_run. cbn [get_fs].
  destruct (decide (p = p)); [exact H|congruence].
Qed.

Lemma action_metaflac_no_strip (plan : FixPlan) :
  action plan =
    (if needs_fix plan then
       if which w "ffmpeg" then "ffmpeg"
       else if which w "flac" then "flac"
       else if which w "metaflac" then "metaflac" else "skip"
     else "skip") ->
  String.eqb (action plan) "metaflac" = true -> ~ no_strip w.
Proof.
  intros Hact Heq Hns. rewrite Hact in Heq. unfold no_strip in Hns.
  destruct (needs_fix plan), (which w "ffmpeg"), (which w "flac"),
    (which w "metaflac"); vm_compute in Heq; try discriminate Heq;
    destruct Hns as [H|[H|H]]; discriminate H.
Qed.

Lemma outcome_process_one_body args :
  triple store (process_one_body w p args) (fun _ => outcome w p b files) anyhow.
Proof.
  unfold process_one_body.
  eapply triple_bind; [apply triple_parse_original|]. intros probe.
  apply triple_case; intros Hflac.
  { intros s [Hs ->]. rewrite leaf_run. left. repeat split; [exact Hs|].
    intros Hm. rewrite is_flac_magic, bool_decide_eq_true_2 in Hflac by exact Hm.
    discriminate. }
  apply (triple_pre _ store); [|intros s [Hs _]; exact Hs].
  eapply triple_bind; [apply triple_decode_original|]. intros dec.
  apply triple_lift_bind. intros max_cover_bytes _.
  apply triple_lift_bind. intros plan Hplan.
  set (P1 := fun s => store s /\
               (dec.1 = true -> forall s', store s' -> accepted w p s')).
  set (v := match reasons plan with [] => _ | _ => _ end).
  apply (triple_bind _ _ _ (fun _ s => P1 s /\ r_reasons (st_result s) = v)).
  { intros s H. split; [exact H|reflexivity]. }
  intros _.
  apply (triple_bind _ _ _ (fun _ s => P1 s /\ r_reasons (st_result s) = v /\
                                        r_action (st_result s) = action plan)).
  { intros s [H Hr]. split; [exact H|]. split; [exact Hr|reflexivity]. }
  intros _. apply triple_case; intros Hneeds.
  { apply negb_true_iff in Hneeds.
    destruct (decide_fix_clean w _ _ _ _ _ _ Hplan Hneeds) as (Hdec & Hrs & Hact).
    intros s ((Hs & Hacc) & Hr & Ha). rewrite leaf_run. right. left.
    split; [reflexivity|]. split; [exact Hs|]. split; [apply (Hacc Hdec), Hs|].
    cbn. rewrite Hr, Ha, Hact. unfold v. rewrite Hrs. split; reflexivity. }
  apply triple_case; intros Hdry.
  { intros s ((Hs & _) & _). rewrite leaf_run. right. right. left.
    split; [reflexivity|exact Hs]. }
  apply (triple_pre _ kept); [|intros s ((Hs & _) & _); apply store_kept, Hs].
  eapply triple_bind.
  { apply triple_keeps. keeps_with keeps_if; [|keeps_with keeps_ret].
    keeps_with keeps_bind; [keeps_with keeps_mkdir|].
    intros _. apply keeps_kept_backup. }
  intros u. cbv beta.
  apply (triple_post _ _ (fun _ => repair_outcome w p b));
    [|intros _ s H; right; right; right; exact H].
  apply triple_with_TemporaryDirectory_kept. intros x Htd.
  assert (Hout : (parent p ++ [x]) ++ [stem p +:+ ".__fixed__.flac"] <> p)
    by (apply Htd; eexists; reflexivity).
  assert (Hbak : (parent p ++ [x]) ++ [stem p +:+ ".__fixed__.flac"]
                 <> parent p ++ [name p +:+ ".old"]).
  { intros H. apply (f_equal length) in H. rewrite !length_app in H.
    cbn in H. lia. }
  eapply triple_bind.
  { apply triple_keeps. keeps_with keeps_if; [|keeps_with keeps_ret].
    keeps_with keeps_export_cover. exact Htd. }
  intros cover_tmp. cbv beta. apply triple_case; intros Hff.
  { eapply triple_bind;
      [apply triple_keeps; keeps_with keeps_reencode_ffmpeg; exact Hout|].
    intros ok. cbv beta. apply outcome_check_and_replace; assumption. }
  apply triple_case; intros Hfl.
  { eapply triple_bind;
      [apply triple_keeps; keeps_with keeps_reencode_flac_cli; exact Hout|].
    intros ok. cbv beta. apply outcome_check_and_replace; assumption. }
  apply triple_case; intros Hmf.
  { apply outcome_strip_branch.
    exact (action_metaflac_no_strip plan (decide_fix_action w _ _ _ _ _ _ Hplan) Hmf). }
  intros s Hk. rewrite leaf_run. left. split; [reflexivity|]. intros _. exact Hk.
Qed.

(** With [--dry-run] the body writes to no file, whether it returns or
    raises. *)
Lemma keeps_store_dry_run args :
  a_dry_run args = true -> keeps store (process_one_body w p args).
Proof.
  intros Hdry. unfold process_one_body.
  assert (Hleaf : forall v msg, keeps store (_ ← set_status v; set_message msg)).
  { intros v msg. keeps_with keeps_bind; [keeps_with keeps_set_status|].
    intros _. keeps_with keeps_set_message. }
  keeps_with keeps_bind; [keeps_with keeps_parse_flac|]. intros probe.
  keeps_with keeps_if; [apply Hleaf|].
  keeps_with keeps_bind.
  { intros s Hs. destruct (decode_run w p s) as (passed & msg & ->). exact Hs. }
  intros dec. keeps_with keeps_bind; [keeps_with keeps_lift|]. intros maxc.
  keeps_with keeps_bind; [keeps_with keeps_lift|]. intros plan.
  keeps_with keeps_bind; [keeps_with keeps_set_reasons|]. intros _.
  keeps_with keeps_bind; [keeps_with keeps_set_action|]. intros _.
  keeps_with keeps_if; [apply Hleaf|]. rewrite Hdry. apply Hleaf.
Qed.

End Outcome.

(** How [process_one] ends: with [ERROR], or as the body left it. *)
Lemma process_one_outcome (w : World) (p : path) (args : Args) (s : state) :
  let out := process_one w p args s in
  r_status out.1 = "ERROR" \/
  exists b, fs s !! p = Some b /\ outcome w p b (fs s) out.2.
Proof.
  cbn zeta. rewrite process_one_run.
  set (s0 := set_result (initial_result p) s).
  destruct (fs s !! p) as [b|] eqn:Hfile.
  - pose proof (outcome_process_one_body w p b (fs s) Hfile args s0 eq_refl) as H.
    destruct (process_one_body w p args s0) as [[[]|e] s1].
    + right. exists b. split; [reflexivity|exact H].
    + left. reflexivity.
  - unfold process_one_body. rewrite bind_run.
    destruct (parse_flac_missing w p s0 Hfile) as [e ->]. left. reflexivity.
Qed.

Lemma process_one_result (w : World) (p : path) (args : Args) (s : state) :
  (process_one w p args s).1 = st_result (process_one w p args s).2.
Proof.
  rewrite process_one_run.
  destruct (process_one_body w p args _) as [[[]|e] s1]; reflexivity.
Qed.

Local Ltac outcome_cases H :=
  destruct H as [H|(b & Hfile &
    [(Hst & Hstore & Hmagic)
    |[(Hst & Hstore & Hacc & Hreasons & Haction)
     |[(Hst & Hstore)|[(Hst & Hkept)|(Hst & Hacc)]]]])].

Lemma process_one_status (w : World) (p : path) (args : Args) (s : state) :
  In (r_status (process_one w p args s).1)
     ["SKIP"; "OK"; "DRYRUN"; "FIXED"; "FAIL"; "ERROR"].
Proof.
  pose proof (process_one_outcome w p args s) as H. cbn zeta in H.
  rewrite process_one_result in *.
  outcome_cases H; try rewrite H; try rewrite Hst; cbn; tauto.
Qed.

(** X13: whatever happens, the status that [process_one] returns is one of
    SKIP, OK, DRYRUN, FIXED, FAIL and ERROR; no path through the body
    leaves it unset or sets anything else. *)
Theorem status_is_one_of_six (w : World) (p : path) (args : Args) (s : state) :
  In (r_status (process_one w p args s).1)
     ["SKIP"; "OK"; "DRYRUN"; "FIXED"; "FAIL"; "ERROR"].
Proof. apply process_one_status. Qed.

(** X14: a file reported as SKIP, OK or DRYRUN was not written to, and
    neither was any other file: the store is the one before the call. *)
Theorem unrepaired_statuses_leave_store (w : World) (p : path) (args : Args)
    (s : state) :
  let out := process_one w p args s in
  In (r_status out.1) ["SKIP"; "OK"; "DRYRUN"] -> fs out.2 = fs s.
Proof.
  cbn zeta. pose proof (process_one_outcome w p args s) as H. cbn zeta in H.
  rewrite process_one_result in *.
  outcome_cases H; try exact (fun _ => Hstore);
    try rewrite H; try rewrite Hst; cbn;
    intros [Hs|[Hs|[Hs|[]]]]; discriminate Hs.
Qed.

Lemma unrepaired_statuses_leave_store_witness :
  fs (process_one quiet_world song no_cover_args
        (start {[ song := rewritten_file ]})).2 =
  fs (start {[ song := rewritten_file ]}).
Proof.
  apply (unrepaired_statuses_leave_store quiet_world song no_cover_args
           (start {[ song := rewritten_file ]})).
  vm_compute. right. left. reflexivity.
Defined.

(** X15: a file reported as OK or FIXED holds bytes that the decoder
    accepts: for OK the bytes it had, for FIXED the bytes of the candidate
    that passed the check before it was moved into place. *)
Theorem ok_and_fixed_are_decodable (w : World) (p : path) (args : Args)
    (s : state) :
  let out := process_one w p args s in
  r_status out.1 = "OK" \/ r_status out.1 = "FIXED" -> accepted w p out.2.
Proof.
  cbn zeta. pose proof (process_one_outcome w p args s) as H. cbn zeta in H.
  rewrite process_one_result in *.
  outcome_cases H; try exact (fun _ => Hacc);
    try rewrite H; try rewrite Hst; intros [Hs|Hs]; discriminate Hs.
Qed.

Lemma ok_and_fixed_are_decodable_witness :
  accepted (failing_at 1000 (mkExn OSError "") ffmpeg_only) song
    (process_one (failing_at 1000 (mkExn OSError "") ffmpeg_only) song
       no_cover_args (start {[ song := cover_heavy_file ]})).2.
Proof.
  apply (ok_and_fixed_are_decodable (failing_at 1000 (mkExn OSError "") ffmpeg_only)
           song no_cover_args (start {[ song := cover_heavy_file ]})).
  right. vm_compute. reflexivity.
Defined.

(** X16: when a re-encoder is installed (or no tool at all), a file
    reported as FAIL still has the bytes it had before the call. *)
Theorem fail_keeps_original_with_reencoder (w : World) (p : path) (args : Args)
    (s : state) :
  let out := process_one w p args s in
  r_status out.1 = "FAIL" -> no_strip w -> fs out.2 !! p = fs s !! p.
Proof.
  cbn zeta. pose proof (process_one_outcome w p args s) as H. cbn zeta in H.
  rewrite process_one_result in *.
  outcome_cases H; try rewrite H; try rewrite Hst; intros Hs Hns;
    try discriminate Hs.
  rewrite Hfile. exact (Hkept Hns).
Qed.

Lemma fail_keeps_original_with_reencoder_witness :
  fs (process_one reencode_then_unreadable song no_cover_args
        (start {[ song := cover_heavy_file ]})).2 !! song =
  fs (start {[ song := cover_heavy_file ]}) !! song.
Proof.
  apply (fail_keeps_original_with_reencoder reencode_then_unreadable song
           no_cover_args (start {[ song := cover_heavy_file ]})).
  - vm_compute. reflexivity.
  - left. reflexivity.
Defined.



(** X18: a file reported as OK has no anomaly recorded: the reasons text is
    the placeholder for an empty list and the action is [skip]. *)
Theorem ok_has_no_reasons (w : World) (p : path) (args : Args) (s : state) :
  let out := process_one w p args s in
  r_status out.1 = "OK" ->
  r_reasons out.1 = "（无）" /\ r_action out.1 = "skip".
Proof.
  cbn zeta. pose proof (process_one_outcome w p args s) as H. cbn zeta in H.
  rewrite process_one_result in *.
  outcome_cases H; try rewrite H; try rewrite Hst; intros Hs;
    try discriminate Hs.
  split; assumption.
Qed.

Lemma ok_has_no_reasons_witness :
  r_reasons (process_one quiet_world song no_cover_args
               (start {[ song := rewritten_file ]})).1 = "（无）" /\
  r_action (process_one quiet_world song no_cover_args
              (start {[ song := rewritten_file ]})).1 = "skip".
Proof.
  apply (ok_has_no_reasons quiet_world song no_cover_args
           (start {[ song := rewritten_file ]})).
  vm_compute. reflexivity.
Defined.

(** X19: with [--dry-run] no file is written, created or removed, whatever
    the outcome, errors included. *)
Theorem dry_run_changes_nothing (w : World) (p : path) (args : Args) (s : state) :
  a_dry_run args = true -> fs (process_one w p args s).2 = fs s.
Proof.
  intros Hdry. rewrite process_one_run.
  pose proof (keeps_store_dry_run w p (fs s) args Hdry
                (set_result (initial_result p) s) eq_refl) as H.
  destruct (process_one_body w p args _) as [[[]|e] s1]; exact H.
Qed.

Lemma dry_run_changes_nothing_witness :
  fs (process_one reencode_then_unreadable song
        (mkArgs true true ["bak"] false (FFinite 0 0) (FFinite 8 0))
        (start {[ song := cover_heavy_file ]})).2 =
  fs (start {[ song := cover_heavy_file ]}).
Proof.
  apply (dry_run_changes_nothing reencode_then_unreadable song
           (mkArgs true true ["bak"] false (FFinite 0 0) (FFinite 8 0))
           (start {[ song := cover_heavy_file ]})).
  reflexivity.
Defined.

(** ** The summary line *)

(** X20: the summary of [main] accounts for every result of [process_one]:
    the three buckets it prints are disjoint, and the results in none of
    them are exactly those with status SKIP. *)
Theorem summary_misses_only_skips (results : list ProcessResult) :
  Forall (fun r => exists w p args s, r = (process_one w p args s).1) results ->
  let sm := summary results in
  sm_total sm =
    (sm_ok sm + sm_fixed sm + sm_fail sm
     + count_if (fun r => String.eqb (r_status r) "SKIP") results)%nat.
Proof.
  cbn zeta. unfold summary. cbn [sm_total sm_ok sm_fixed sm_fail].
  induction 1 as [|r rest (w & p & args & s & ->) _ IH]; [reflexivity|].
  cbn [length count_if]. rewrite IH. unfold status_in.
  pose proof (process_one_status w p args s) as Hst.
  cbn [In] in Hst.
  destruct Hst as [<-|[<-|[<-|[<-|[<-|[<-|[]]]]]]]; cbn; lia.
Qed.

Lemma summary_misses_only_skips_witness :
  let results :=
    [ (process_one quiet_world song no_cover_args
         (start {[ song := rewritten_file ]})).1;
      (process_one quiet_world song no_cover_args (start ∅)).1 ] in
  let sm := summary results in
  sm_total sm =
    (sm_ok sm + sm_fixed sm + sm_fail sm
     + count_if (fun r => String.eqb (r_status r) "SKIP") results)%nat.
Proof.
  apply (summary_misses_only_skips
           [ (process_one quiet_world song no_cover_args
                (start {[ song := rewritten_file ]})).1;
             (process_one quiet_world song no_cover_args (start ∅)).1 ]).
  repeat constructor; eexists _, _, _, _; reflexivity.
Defined.

(** ** More on replacement *)

Lemma with_suffix_old_ok (dst : path) :
  name dst <> "" -> with_suffix dst (suffix dst +:+ ".old") = Ok (old_sibling dst).
Proof.
  intros Hname. unfold with_suffix, old_sibling.
  destruct (String.eqb (name dst) "") eqn:Heq.
  - apply String.eqb_eq in Heq. contradiction.
  - unfold stem, suffix. rewrite string_app_assoc, split_suffix_join. reflexivity.
Qed.

Section Moved.
Context (w : World) (src dst bak : path) (c : bytes).
Hypothesis src_dst : src <> dst.
Hypothesis src_bak : src <> bak.
Hypothesis bak_dst : bak <> dst.

Lemma triple_rename_moves :
  triple (holds src c) (os_rename w src dst) (fun _ => moved src dst c)
    (holds src c).
Proof.
  apply (triple_effect_fs w (fun _ m => _) (fun m => m !! src = Some c)).
  - intros s t H. exact H.
  - intros _ s H. rewrite H. unfold moved. cbn. split.
    + apply lookup_insert_eq.
    + rewrite lookup_insert_ne by congruence. apply lookup_delete_eq.
Qed.

Lemma triple_unlink_source_moves :
  triple (fun s => holds src c s /\ holds dst c s) (unlink w src)
    (fun _ => moved src dst c) (fun _ => True).
Proof.
  apply (triple_effect_fs w (fun _ m => _)
           (fun m => m !! src = Some c /\ m !! dst = Some c)).
  - intros s t H. exact I.
  - intros _ s [Hs Hd]. rewrite Hs. unfold moved. cbn. split.
    + rewrite lookup_delete_ne by exact src_dst. exact Hd.
    + apply lookup_delete_eq.
Qed.

Lemma triple_shutil_move_moves :
  triple (holds src c) (shutil_move w src dst) (fun _ => moved src dst c)
    (fun _ => True).
Proof.
  apply (triple_try_except _ _ _ _ _ (holds src c)).
  - apply triple_rename_moves.
  - intros _. eapply triple_bind; [apply triple_copy_into_place; exact src_dst|].
    intros u. apply triple_unlink_source_moves.
  - intros s _. exact I.
Qed.

Lemma triple_drop_aside_moves :
  triple (moved src dst c)
    (try_except (unlink w bak) any_Exception (fun _ => mret tt))
    (fun _ => moved src dst c) (fun _ => True).
Proof.
  apply (triple_try_except _ _ _ _ _ (moved src dst c)).
  - apply (triple_effect_fs w (fun _ m => _)
             (fun m => m !! dst = Some c /\ m !! src = None)).
    + intros s t H. exact H.
    + intros _ s [Hd Hs]. destruct (fs s !! bak); [|split; assumption].
      unfold moved. cbn. rewrite !lookup_delete_ne by congruence.
      split; assumption.
  - intros _. apply triple_ret.
  - intros s _. exact I.
Qed.

End Moved.

Lemma atomic_replace_moves (w : World) (src dst : path) (c : bytes) :
  src <> dst -> src <> old_sibling dst ->
  triple (holds src c) (atomic_replace w src dst) (fun _ => moved src dst c)
    (fun _ => True).
Proof.
  intros Hsd Hsb. unfold atomic_replace.
  apply (triple_try_except _ _ _ _ _ (holds src c)); [| |intros s _; exact I].
  - eapply triple_bind; [apply triple_path_exists|]. intros there.
    eapply triple_bind.
    + apply triple_if; [apply triple_unlink_other; congruence|].
      apply triple_ret.
    + intros u. apply triple_rename_moves. exact Hsd.
  - intros _ s H. rewrite bind_run. unfold lift.
    destruct (with_suffix dst (suffix dst +:+ ".old")) as [bak|e] eqn:Hbak;
      [|exact I].
    apply with_suffix_old in Hbak as [-> Hbd]. fold (old_sibling dst) in *.
    revert s H. apply (triple_try_except _ _ _ _ _ (fun _ => True));
      [| |intros s _; exact I].
    + apply (triple_bind _ _ _ (fun _ => holds src c));
        [apply triple_path_exists|]. intros there.
      apply (triple_bind _ _ _ (fun _ => holds src c)).
      { apply triple_if.
        - eapply triple_weaken;
            [apply (triple_rename_aside w src dst _ c); assumption
            |auto|auto|intros; exact I].
        - apply triple_ret. }
      intros u. apply (triple_bind _ _ _ (fun _ => moved src dst c));
        [apply triple_shutil_move_moves; exact Hsd|].
      intros u'. apply (triple_bind _ _ _ (fun _ => moved src dst c));
        [apply triple_path_exists|]. intros there'.
      apply triple_if; [apply triple_drop_aside_moves; assumption|apply triple_ret].
    + intros e. eapply triple_bind; [apply triple_trivial|]. intros there.
      eapply triple_bind; [apply triple_trivial|]. intros kept.
      apply triple_then_raise.
Qed.

(** X21: when [atomic_replace] returns, the candidate has been moved, not
    copied: the target has the candidate's bytes and the candidate path is
    empty, on the direct path and on the [.old] fallback alike. *)
Theorem atomic_replace_moves_candidate (w : World) (src dst : path) (c : bytes)
    (s : state) :
  src <> dst -> src <> old_sibling dst ->
  fs s !! src = Some c ->
  (atomic_replace w src dst s).1 = Ok tt ->
  fs (atomic_replace w src dst s).2 !! dst = Some c /\
  fs (atomic_replace w src dst s).2 !! src = None.
Proof.
  intros Hsd Hsb Hsrc Hret.
  pose proof (atomic_replace_moves w src dst c Hsd Hsb s Hsrc) as H.
  destruct (atomic_replace w src dst s) as [[[]|e] s']; [exact H|discriminate Hret].
Qed.

Lemma atomic_replace_moves_candidate_witness :
  let s := start {[ ["music"; "tmp0"; "a.__fixed__.flac"] := rewritten_file;
                    song := cover_heavy_file ]} in
  fs (atomic_replace quiet_world ["music"; "tmp0"; "a.__fixed__.flac"] song s).2
    !! song = Some rewritten_file /\
  fs (atomic_replace quiet_world ["music"; "tmp0"; "a.__fixed__.flac"] song s).2
    !! ["music"; "tmp0"; "a.__fixed__.flac"] = None.
Proof.
  apply (atomic_replace_moves_candidate quiet_world
           ["music"; "tmp0"; "a.__fixed__.flac"] song rewritten_file).
  - discriminate.
  - discriminate.
  - vm_compute. reflexivity.
  - vm_compute. reflexivity.
Defined.

Section ReplaceFrame.
Context (w : World).
Variable Inv : state -> Prop.
Variable W : path -> Prop.
Hypothesis Inv_tick : forall s t r, Inv s -> Inv (mkState (fs s) t (log s) r).
Hypothesis Inv_fs : forall s m',
  (forall q, ~ W q -> m' !! q = fs s !! q) -> Inv s -> Inv (set_fs m' s).

Local Ltac step L := eapply L; try eassumption.

(** [atomic_replace] writes to the candidate, the target and the [.old]
    sibling of the target only. *)
Lemma keeps_atomic_replace_within src dst :
  W src -> W dst -> W (old_sibling dst) -> keeps Inv (atomic_replace w src dst).
Proof.
  intros Hsrc Hdst Hbak. unfold atomic_replace.
  step keeps_try_except.
  - step keeps_bind; [step keeps_path_exists|]. intros there.
    step keeps_bind; [step keeps_if; [step keeps_unlink|step keeps_ret]|].
    intros _. step keeps_os_rename.
  - intros _ s H. rewrite bind_run. unfold lift.
    destruct (with_suffix dst (suffix dst +:+ ".old")) as [bak|e] eqn:Hsfx;
      [|exact H].
    apply with_suffix_old in Hsfx as [-> _]. fold (old_sibling dst).
    revert s H. step keeps_try_except.
    + step keeps_bind; [step keeps_path_exists|]. intros there.
      step keeps_bind; [step keeps_if; [step keeps_os_rename|step keeps_ret]|].
      intros _. step keeps_bind; [step keeps_shutil_move|].
      intros _. step keeps_bind; [step keeps_path_exists|]. intros kept.
      step keeps_if; [|step keeps_ret].
      step keeps_try_except; [step keeps_unlink|intros; step keeps_ret].
    + intros e. step keeps_bind; [step keeps_path_exists|]. intros there.
      step keeps_bind; [step keeps_if; [step keeps_path_exists|step keeps_ret]|].
      intros kept. step keeps_bind; [|intros; step keeps_raise].
      step keeps_if; [|step keeps_ret].
      step keeps_try_except; [step keeps_os_rename|intros; step keeps_ret].
Qed.

End ReplaceFrame.

(** X22: [atomic_replace] touches three paths only.  Whether it returns or
    raises, every file other than the candidate, the target and the [.old]
    sibling of the target is as it was. *)
Theorem atomic_replace_touches_three_paths (w : World) (src dst q : path)
    (s : state) :
  q <> src -> q <> dst -> q <> old_sibling dst ->
  fs (atomic_replace w src dst s).2 !! q = fs s !! q.
Proof.
  intros Hsrc Hdst Hbak.
  apply (keeps_atomic_replace_within w (fun s' => fs s' !! q = fs s !! q)
           (fun x => x <> q)); try congruence.
  - intros s' t r H. exact H.
  - intros s' m' Hsame H. cbn. rewrite Hsame; [exact H|].
    intros Hq. apply Hq. reflexivity.
Qed.

Lemma atomic_replace_touches_three_paths_witness :
  let s := start {[ ["music"; "b.flac"] := cover_heavy_file;
                    song := cover_heavy_file ]} in
  fs (atomic_replace quiet_world ["music"; "tmp0"; "a.__fixed__.flac"] song s).2
    !! ["music"; "b.flac"] = fs s !! ["music"; "b.flac"].
Proof.
  apply (atomic_replace_touches_three_paths quiet_world
           ["music"; "tmp0"; "a.__fixed__.flac"] song ["music"; "b.flac"]);
    discriminate.
Defined.

(** The primitive effects, one step at a time. *)
Lemma path_exists_run (q : path) (s : state) :
  path_exists q s = (Ok (bool_decide (is_Some (fs s !! q))), s).
Proof. reflexivity. Qed.

Lemma unlink_run (w : World) (q : path) (s : state) :
  unlink w q s =
  let s' := mkState (fs s) (S (tick s)) (log s) (st_result s) in
  match fault w (tick s) with
  | Some e => (Raise e, s')
  | None =>
      match fs s !! q with
      | Some _ => (Ok tt, set_fs (delete q (fs s)) s')
      | None => no_such_file q s'
      end
  end.
Proof.
  unfold unlink. rewrite !bind_run, effect_run.
  destruct (fault w (tick s)); [reflexivity|].
  rewrite bind_run. cbn [get_fs fs]. destruct (fs s !! q); reflexivity.
Qed.

Lemma os_rename_run (w : World) (src dst : path) (s : state) :
  os_rename w src dst s =
  let s' := mkState (fs s) (S (tick s)) (log s) (st_result s) in
  match fault w (tick s) with
  | Some e => (Raise e, s')
  | None =>
      match fs s !! src with
      | Some c => (Ok tt, set_fs (<[dst := c]> (delete src (fs s))) s')
      | None => no_such_file src s'
      end
  end.
Proof.
  unfold os_rename. rewrite !bind_run, effect_run.
  destruct (fault w (tick s)); [reflexivity|].
  rewrite bind_run. cbn [get_fs fs]. destruct (fs s !! src); reflexivity.
Qed.


Section Fallback.
Context (w : World) (src dst : path) (c d : bytes) (s : state) (e : exn).
Hypothesis src_dst : src <> dst.
Hypothesis src_bak : src <> old_sibling dst.
Hypothesis named : name dst <> "".
Hypothesis candidate : fs s !! src = Some c.
Hypothesis target : fs s !! dst = Some d.
Hypothesis locked : fault w (tick s) = Some e.
Hypothesis in_use : e_class e = PermissionError.
Hypothesis aside : fault w (S (tick s)) = None.

Local Abbreviation bak := (old_sibling dst).

Lemma old_sibling_differs : bak <> dst.
Proof.
  destruct (with_suffix_old dst bak (with_suffix_old_ok dst named)) as [_ H].
  exact H.
Qed.

(** The state in which the fallback has renamed the target aside. *)
Lemma fallback_enters :
  atomic_replace w src dst s =
  try_except
    (_ ← shutil_move w src dst;
     there ← path_exists bak;
     if (there : bool)
     then try_except (unlink w bak) any_Exception (fun _ => mret tt)
     else mret tt)
    any_Exception
    (fun e' =>
       there ← path_exists dst;
       kept ← (if negb (there : bool) then path_exists bak else mret false);
       _ ← (if (kept : bool)
            then try_except (os_rename w bak dst) any_Exception (fun _ => mret tt)
            else mret tt);
       raise e')
    (mkState (<[bak := d]> (delete dst (fs s))) (S (S (tick s))) (log s)
       (st_result s)).
Proof.
  unfold atomic_replace. unfold try_except at 1.
  rewrite bind_run, path_exists_run, target.
  rewrite bool_decide_eq_true_2 by eauto.
  rewrite bind_run, unlink_run, locked. cbv beta iota zeta. rewrite in_use.
  cbn [is_PermissionError].
  rewrite bind_run. unfold lift. rewrite (with_suffix_old_ok dst named).
  unfold try_except at 1 3.
  rewrite bind_run, path_exists_run. cbn [fs]. rewrite target.
  rewrite bool_decide_eq_true_2 by eauto.
  rewrite bind_run, os_rename_run. cbn [fs tick log st_result]. rewrite aside.
  cbv zeta. cbn [fs]. rewrite target. reflexivity.
Qed.

Lemma fallback_moves :
  fault w (S (S (tick s))) = None ->
  let moved_fs := <[dst := c]> (delete src (<[bak := d]> (delete dst (fs s)))) in
  atomic_replace w src dst s =
  (Ok tt,
   mkState (match fault w (S (S (S (tick s)))) with
            | Some _ => moved_fs
            | None => delete bak moved_fs
            end)
     (S (S (S (S (tick s))))) (log s) (st_result s)).
Proof.
  intros Hmove. pose proof old_sibling_differs as Hbd. cbv zeta.
  rewrite fallback_enters. unfold try_except at 1.
  rewrite bind_run. unfold shutil_move, try_except at 1.
  rewrite os_rename_run. cbn [fs tick log st_result]. rewrite Hmove.
  cbv zeta. cbn [fs].
  rewrite lookup_insert_ne, lookup_delete_ne, candidate by congruence.
  rewrite bind_run, path_exists_run. unfold set_fs. cbn [fs tick log st_result].
  rewrite (lookup_insert_ne _ dst bak), (lookup_delete_ne _ src bak),
    lookup_insert_eq by congruence.
  rewrite bool_decide_eq_true_2 by eauto.
  unfold try_except. rewrite unlink_run. cbn [fs tick log st_result].
  destruct (fault w (S (S (S (tick s))))) as [e'|]; [reflexivity|].
  cbv zeta. cbn [fs].
  rewrite (lookup_insert_ne _ dst bak), (lookup_delete_ne _ src bak),
    lookup_insert_eq by congruence.
  reflexivity.
Qed.


(** X23: a target that cannot be unlinked because it is in use is replaced
    through the fallback: it is renamed to the [.old] sibling, the
    candidate is moved into place and the call returns; the sibling is
    removed again unless that last unlink fails. *)
Theorem locked_target_falls_back :
  fault w (S (S (tick s))) = None ->
  (atomic_replace w src dst s).1 = Ok tt /\
  fs (atomic_replace w src dst s).2 !! dst = Some c /\
  (fault w (S (S (S (tick s)))) = None ->
   fs (atomic_replace w src dst s).2 !! bak = None).
Proof.
  intros Hmove. pose proof old_sibling_differs as Hbd.
  rewrite (fallback_moves Hmove). cbn [fst snd fs].
  split; [reflexivity|]. split.
  - destruct (fault w (S (S (S (tick s))))).
    + apply lookup_insert_eq.
    + rewrite lookup_delete_ne by congruence. apply lookup_insert_eq.
  - intros ->. apply lookup_delete_eq.
Qed.


End Fallback.

Lemma locked_target_falls_back_witness :
  let w := failing_at 0 (mkExn PermissionError "in use") ffmpeg_only in
  let src := ["music"; "tmp0"; "a.__fixed__.flac"] in
  let s := start {[ src := rewritten_file; song := cover_heavy_file ]} in
  (atomic_replace w src song s).1 = Ok tt /\
  fs (atomic_replace w src song s).2 !! song = Some rewritten_file /\
  (fault w (S (S (S (tick s)))) = None ->
   fs (atomic_replace w src song s).2 !! old_sibling song = None).
Proof.
  cbv zeta.
  apply (locked_target_falls_back
           (failing_at 0 (mkExn PermissionError "in use") ffmpeg_only)
           ["music"; "tmp0"; "a.__fixed__.flac"] song rewritten_file
           cover_heavy_file
           (start {[ ["music"; "tmp0"; "a.__fixed__.flac"] := rewritten_file;
                     song := cover_heavy_file ]})
           (mkExn PermissionError "in use")).
  - discriminate.
  - discriminate.
  - discriminate.
  - vm_compute. reflexivity.
  - vm_compute. reflexivity.
  - reflexivity.
  - reflexivity.
  - reflexivity.
  - reflexivity.
Defined.


(** ** The files a run may touch *)

Lemma triple_of_keeps {A} (Inv E : state -> Prop) (m : M A) :
  (forall s, Inv s -> E s) -> keeps Inv m -> triple Inv m (fun _ => Inv) E.
Proof.
  intros HE Hm s H. specialize (Hm s H).
  destruct (m s) as [[a|e] s']; [exact Hm|apply HE, Hm].
Qed.

Lemma keeps_of_triple {A} (Inv : state -> Prop) (m : M A) :
  triple Inv m (fun _ => Inv) Inv -> keeps Inv m.
Proof.
  intros Hm s H. specialize (Hm s H). destruct (m s) as [[a|e] s']; exact Hm.
Qed.

Section Touches.
Context (w : World) (p : path).
Variable Inv : state -> Prop.
Variable W : path -> Prop.          (* the files that may change *)
Variable E : state -> Prop.         (* what holds when a step raises *)
Hypothesis Inv_any : forall s t l r, Inv s -> Inv (mkState (fs s) t l r).
Hypothesis Inv_fs : forall s m',
  (forall q, ~ W q -> m' !! q = fs s !! q) -> Inv s -> Inv (set_fs m' s).
Hypothesis Inv_E : forall s, Inv s -> E s.
Hypothesis scratch : forall A dir (body : path -> M A),
  (forall td, (forall q, td `prefix_of` q -> W q) ->
     triple Inv (body td) (fun _ => Inv) E) ->
  triple Inv (with_TemporaryDirectory w dir body) (fun _ => Inv) E.
Hypothesis W_p : W p.
Hypothesis W_old : W (old_sibling p).

Lemma Inv_same_log s t r : Inv s -> Inv (mkState (fs s) t (log s) r).
Proof. apply Inv_any. Qed.

Local Ltac side := solve [ exact Inv_same_log | exact Inv_fs | eassumption ].
Local Ltac keeps_with L := eapply L; try side.
Local Ltac plain := apply (triple_of_keeps _ _ _ Inv_E).

Lemma keeps_decode_any q : keeps Inv (soundfile_decode_ok w q).
Proof.
  intros s H. destruct (decode_run w q s) as (passed & msg & ->).
  apply Inv_any, H.
Qed.

Lemma keeps_leaf v msg : keeps Inv (_ ← set_status v; set_message msg).
Proof.
  keeps_with keeps_bind; [keeps_with keeps_set_status|].
  intros _. keeps_with keeps_set_message.
Qed.

Lemma keeps_check_and_replace_any out plan cover ok :
  W out -> keeps Inv (check_and_replace w p out plan cover ok).
Proof.
  intros Hout. unfold check_and_replace.
  keeps_with keeps_bind.
  { keeps_with keeps_if; [keeps_with keeps_ret|].
    keeps_with keeps_bind; [keeps_with keeps_path_exists|].
    intros there. keeps_with keeps_ret. }
  intros failed. keeps_with keeps_if; [apply keeps_leaf|].
  keeps_with keeps_bind.
  { keeps_with keeps_if; [|keeps_with keeps_ret].
    destruct cover as [cv|]; [|keeps_with keeps_ret].
    keeps_with keeps_if; [|keeps_with keeps_ret].
    keeps_with keeps_bind; [keeps_with keeps_import_cover|].
    intros import_ok. keeps_with keeps_if;
      [keeps_with keeps_ret|keeps_with keeps_append_message]. }
  intros _. keeps_with keeps_bind; [apply keeps_decode_any|]. intros dec2.
  keeps_with keeps_if; [apply keeps_leaf|].
  keeps_with keeps_bind; [keeps_with keeps_atomic_replace_within|].
  intros _. apply keeps_leaf.
Qed.

Lemma triple_reencode_flac_cli src dst :
  W dst -> triple Inv (reencode_with_flac_cli w src dst) (fun _ => Inv) E.
Proof.
  intros Hdst. unfold reencode_with_flac_cli. apply scratch. intros td Htd.
  plain. keeps_with keeps_bind.
  { keeps_with keeps_run. intros q [= <-]. apply Htd. by exists ["tmp.wav"]. }
  intros code. keeps_with keeps_bind.
  { keeps_with keeps_if; [keeps_with keeps_ret|].
    keeps_with keeps_bind; [keeps_with keeps_path_exists|intros; keeps_with keeps_ret]. }
  intros missing. keeps_with keeps_if; [keeps_with keeps_ret|].
  keeps_with keeps_bind.
  { keeps_with keeps_run. intros q [= <-]. exact Hdst. }
  intros code2. keeps_with keeps_if; [keeps_with keeps_path_exists|keeps_with keeps_ret].
Qed.

(** Lines 266-302: the scratch directory and the repair in it. *)
Lemma triple_repair (plan : FixPlan) :
  triple Inv
    (with_TemporaryDirectory w (parent p) (fun tmpdir =>
       cover_tmp ← (if keep_cover plan && which w "metaflac"
                    then export_cover_with_metaflac w p tmpdir
                    else mret None);
       let out_tmp := tmpdir ++ [stem p +:+ ".__fixed__.flac"] in
       if String.eqb (action plan) "ffmpeg" then
         ok ← reencode_with_ffmpeg w p out_tmp;
         check_and_replace w p out_tmp plan cover_tmp ok
       else if String.eqb (action plan) "flac" then
         ok ← reencode_with_flac_cli w p out_tmp;
         check_and_replace w p out_tmp plan cover_tmp ok
       else if String.eqb (action plan) "metaflac" then
         ok ← strip_all_metadata_with_metaflac w p;
         if (ok : bool) then
           dec2 ← soundfile_decode_ok w p;
           let dec2_ok : bool := dec2.1 in
           _ ← set_status (if dec2_ok then "FIXED" else "FAIL");
           set_message (if dec2_ok then "metaflac 清空元数据后验证"
                        else "metaflac 清空后仍不可读")
         else check_and_replace w p out_tmp plan cover_tmp ok
       else
         _ ← set_status "FAIL";
         set_message "无可用修复工具（请安装 ffmpeg 或 flac）"))
    (fun _ => Inv) E.
Proof.
  apply scratch. intros td Htd.
  assert (Hout : W (td ++ [stem p +:+ ".__fixed__.flac"]))
    by (apply Htd; eexists; reflexivity).
  eapply triple_bind.
  { plain. keeps_with keeps_if; [|keeps_with keeps_ret].
    keeps_with keeps_export_cover. }
  intros cover_tmp. cbv beta zeta. apply triple_if.
  { plain. keeps_with keeps_bind; [keeps_with keeps_reencode_ffmpeg|].
    intros ok. apply keeps_check_and_replace_any, Hout. }
  apply triple_if.
  { eapply triple_bind; [apply triple_reencode_flac_cli, Hout|].
    intros ok. cbv beta. plain. apply keeps_check_and_replace_any, Hout. }
  plain. keeps_with keeps_if; [|apply keeps_leaf].
  keeps_with keeps_bind; [keeps_with keeps_strip|]. intros ok.
  keeps_with keeps_if; [|apply keeps_check_and_replace_any, Hout].
  keeps_with keeps_bind; [apply keeps_decode_any|]. intros dec2.
  apply keeps_leaf.
Qed.

Lemma triple_process_one_body (args : Args) :
  (a_backup args = true -> W (a_backup_dir args ++ [name p])) ->
  triple Inv (process_one_body w p args) (fun _ => Inv) E.
Proof.
  intros Hbk. unfold process_one_body.
  eapply triple_bind; [plain; keeps_with keeps_parse_flac|]. intros probe.
  cbv beta. apply triple_if; [plain; apply keeps_leaf|].
  eapply triple_bind; [plain; apply keeps_decode_any|]. intros dec. cbv beta.
  eapply triple_bind; [plain; keeps_with keeps_lift|]. intros maxc. cbv beta.
  eapply triple_bind; [plain; keeps_with keeps_lift|]. intros plan. cbv beta.
  eapply triple_bind; [plain; keeps_with keeps_set_reasons|]. intros u1. cbv beta.
  eapply triple_bind; [plain; keeps_with keeps_set_action|]. intros u2. cbv beta.
  apply triple_if; [plain; apply keeps_leaf|].
  apply triple_if; [plain; apply keeps_leaf|].
  eapply triple_bind.
  { plain. destruct (a_backup args); [|keeps_with keeps_ret].
    keeps_with keeps_bind; [keeps_with keeps_mkdir|].
    intros _. keeps_with keeps_copy2. apply Hbk. reflexivity. }
  intros u3. cbv beta. apply triple_repair.
Qed.

End Touches.

Lemma scratch_existing (w : World) (q : path) (c : bytes) A dir (body : path -> M A) :
  (forall td, (forall x, td `prefix_of` x -> other_than q x) ->
     triple (original_kept q c) (body td) (fun _ => original_kept q c)
       (original_kept q c)) ->
  triple (original_kept q c) (with_TemporaryDirectory w dir body)
    (fun _ => original_kept q c) (original_kept q c).
Proof.
  intros Hbody. apply triple_of_keeps; [auto|].
  eapply keeps_with_TemporaryDirectory with (W := other_than q);
    [exact (kept_tick q c)|exact (kept_fs q c)|exact (kept_fresh q c)|].
  intros td Htd. apply keeps_of_triple, Hbody, Htd.
Qed.

Lemma scratch_absent (w : World) (q : path) A dir (body : path -> M A) :
  (forall td, (forall x, td `prefix_of` x -> other_than q x) ->
     triple (absent q) (body td) (fun _ => absent q) (fun _ => True)) ->
  triple (absent q) (with_TemporaryDirectory w dir body)
    (fun _ => absent q) (fun _ => True).
Proof.
  intros Hbody s H. unfold with_TemporaryDirectory, mkdtemp.
  rewrite !bind_run, effect_run.
  destruct (fault w (tick s)) as [e|]; [exact I|].
  set (s1 := mkState _ _ _ _). set (td := dir ++ [tmp_name w (tick s)]).
  rewrite bind_run. cbn [get_fs].
  destruct (decide (filter (under td) (fs s1) = ∅)) as [Hfresh|]; [|exact I].
  cbn. assert (H1 : absent q s1) by exact H.
  assert (Hgone : forall s2, absent q s2 \/ td `prefix_of` q ->
            absent q (set_fs (filter (fun kv => ~ under td kv) (fs s2))
                        (mkState (fs s2) (S (tick s2)) (log s2) (st_result s2)))).
  { intros s2 Hq. unfold absent. cbn. apply map_lookup_filter_None.
    destruct Hq as [Hq|Hq]; [left; exact Hq|].
    right. intros v _ Hn. apply Hn. exact Hq. }
  destruct (decide (td `prefix_of` q)) as [Hunder|Hout].
  - destruct (body td s1) as [r s2]. unfold rmtree.
    rewrite bind_run, effect_run.
    destruct (fault w (tick s2)); [exact I|]. rewrite bind_run. cbn [get_fs].
    destruct r as [a|e]; [|exact I]. exact (Hgone s2 (or_intror Hunder)).
  - assert (Htd : forall x, td `prefix_of` x -> other_than q x)
      by (intros x Hx ->; exact (Hout Hx)).
    specialize (Hbody td Htd s1 H1).
    destruct (body td s1) as [[a|e] s2].
    + unfold rmtree. rewrite bind_run, effect_run.
      destruct (fault w (tick s2)); [exact I|]. rewrite bind_run. cbn [get_fs].
      exact (Hgone s2 (or_introl Hbody)).
    + destruct (rmtree w td s2) as [[u|e'] s3]; exact I.
Qed.

Lemma absent_fs (q : path) s m' :
  (forall x, ~ other_than q x -> m' !! x = fs s !! x) -> absent q s ->
  absent q (set_fs m' s).
Proof.
  intros Hsame H. unfold absent. cbn. rewrite Hsame; [exact H|].
  unfold other_than. intros Hq. apply Hq. reflexivity.
Qed.

(** A file that exists and is neither the original, nor its [.old]
    sibling, nor the backup copy, is as it was after the body, whether the
    body returns or raises. *)
Lemma bystander_kept (w : World) (p : path) (args : Args) (q : path) (c : bytes) :
  q <> p -> q <> old_sibling p -> q <> backup_path args p ->
  keeps (original_kept q c) (process_one_body w p args).
Proof.
  intros Hp Hold Hbk. apply keeps_of_triple.
  apply (triple_process_one_body w p (original_kept q c) (other_than q)
           (original_kept q c)); auto.
  - exact (kept_fs q c).
  - intros A dir body. apply scratch_existing.
  - unfold other_than. congruence.
  - unfold other_than. congruence.
  - intros _. unfold other_than. fold (backup_path args p). congruence.
Qed.

(** A path where nothing exists, other than those three, is empty again
    when the body returns: the scratch directories are gone. *)
Lemma no_debris (w : World) (p : path) (args : Args) (q : path) :
  q <> p -> q <> old_sibling p -> q <> backup_path args p ->
  triple (absent q) (process_one_body w p args) (fun _ => absent q)
    (fun _ => True).
Proof.
  intros Hp Hold Hbk.
  apply (triple_process_one_body w p (absent q) (other_than q) (fun _ => True));
    auto.
  - exact (absent_fs q).
  - intros A dir body. apply scratch_absent.
  - unfold other_than. congruence.
  - unfold other_than. congruence.
  - intros _. unfold other_than. fold (backup_path args p). congruence.
Qed.

(** X25: [process_one] never damages a bystander.  A file that exists and
    is neither the processed file, nor its [.old] sibling, nor the backup
    copy has the same bytes afterwards, whatever the outcome, errors
    included. *)
Theorem bystanders_are_untouched (w : World) (p : path) (args : Args)
    (s : state) (q : path) (c : bytes) :
  q <> p -> q <> old_sibling p -> q <> backup_path args p ->
  fs s !! q = Some c ->
  fs (process_one w p args s).2 !! q = Some c.
Proof.
  intros Hp Hold Hbk Hq. rewrite process_one_run.
  pose proof (bystander_kept w p args q c Hp Hold Hbk
                (set_result (initial_result p) s) Hq) as H.
  destruct (process_one_body w p args _) as [[[]|e] s1]; exact H.
Qed.

Lemma bystanders_are_untouched_witness :
  fs (process_one (failing_at 1000 (mkExn OSError "") ffmpeg_only) song
        backup_args
        (start {[ ["music"; "b.flac"] := rewritten_file;
                  song := cover_heavy_file ]})).2 !! ["music"; "b.flac"]
  = Some rewritten_file.
Proof.
  apply (bystanders_are_untouched (failing_at 1000 (mkExn OSError "") ffmpeg_only)
           song backup_args
           (start {[ ["music"; "b.flac"] := rewritten_file;
                     song := cover_heavy_file ]})
           ["music"; "b.flac"] rewritten_file).
  - discriminate.
  - discriminate.
  - discriminate.
  - vm_compute. reflexivity.
Defined.

(** X26: a run that does not end in ERROR leaves nothing behind and
    touches nothing else: every path other than the processed file, its
    [.old] sibling and the backup copy holds what it held before, so the
    scratch directory and all that was written in it are gone. *)
Theorem finished_run_leaves_no_scratch (w : World) (p : path) (args : Args)
    (s : state) (q : path) :
  r_status (process_one w p args s).1 <> "ERROR" ->
  q <> p -> q <> old_sibling p -> q <> backup_path args p ->
  fs (process_one w p args s).2 !! q = fs s !! q.
Proof.
  intros Hst Hp Hold Hbk. rewrite process_one_run in *.
  destruct (fs s !! q) as [c|] eqn:Hq.
  - pose proof (bystander_kept w p args q c Hp Hold Hbk
                  (set_result (initial_result p) s) Hq) as H.
    destruct (process_one_body w p args _) as [[[]|e] s1]; exact H.
  - pose proof (no_debris w p args q Hp Hold Hbk
                  (set_result (initial_result p) s) Hq) as H.
    destruct (process_one_body w p args _) as [[[]|e] s1]; [exact H|].
    cbn in Hst. contradiction.
Qed.

Lemma finished_run_leaves_no_scratch_witness :
  fs (process_one (failing_at 1000 (mkExn OSError "") ffmpeg_only) song
        no_cover_args (start {[ song := cover_heavy_file ]})).2
    !! ["music"; "tmp0"; "a.__fixed__.flac"]
  = fs (start {[ song := cover_heavy_file ]}) !! ["music"; "tmp0"; "a.__fixed__.flac"].
Proof.
  apply (finished_run_leaves_no_scratch
           (failing_at 1000 (mkExn OSError "") ffmpeg_only) song no_cover_args
           (start {[ song := cover_heavy_file ]})
           ["music"; "tmp0"; "a.__fixed__.flac"]).
  - vm_compute. discriminate.
  - discriminate.
  - discriminate.
  - discriminate.
Defined.

Lemma old_sibling_not_backup (args : Args) (p : path) :
  old_sibling p <> backup_path args p.
Proof.
  unfold old_sibling, backup_path. intros Heq.
  apply (f_equal (fun l => List.last l "")) in Heq.
  rewrite !last_last in Heq. apply (f_equal String.length) in Heq.
  rewrite string_app_length in Heq. cbn in Heq. lia.
Qed.

(** With [--backup], a body that returns has stopped before the repair or
    has left the copy of the original in the backup directory. *)
Lemma backup_survives (w : World) (p : path) (b : bytes)
    (files : gmap path bytes) (args : Args) :
  files !! p = Some b -> a_backup args = true ->
  triple (store_is files) (process_one_body w p args)
    (fun _ s => In (r_status (st_result s)) ["SKIP"; "OK"; "DRYRUN"] \/
                original_kept (backup_path args p) b s)
    (fun _ => True).
Proof.
  intros Hfile Hbackup. unfold process_one_body.
  assert (Hleaf : forall v msg, In v ["SKIP"; "OK"; "DRYRUN"] ->
            triple (store_is files) (_ ← set_status v; set_message msg)
              (fun _ s => In (r_status (st_result s)) ["SKIP"; "OK"; "DRYRUN"] \/
                          original_kept (backup_path args p) b s)
              (fun _ => True)).
  { intros v msg Hv s _. rewrite leaf_run. left. exact Hv. }
  eapply triple_bind.
  { apply triple_keeps. eapply keeps_parse_flac. exact (store_tick files). }
  intros probe. cbv beta. apply triple_if; [apply Hleaf; cbn; tauto|].
  eapply triple_bind.
  { apply triple_keeps. intros s Hs.
    destruct (decode_run w p s) as (passed & msg & ->). exact Hs. }
  intros dec. cbv beta.
  eapply triple_bind; [apply triple_keeps, keeps_lift|]. intros maxc. cbv beta.
  eapply triple_bind; [apply triple_keeps, keeps_lift|]. intros plan. cbv beta.
  eapply triple_bind.
  { apply triple_keeps. eapply keeps_set_reasons. exact (store_tick files). }
  intros u1. cbv beta.
  eapply triple_bind.
  { apply triple_keeps. eapply keeps_set_action. exact (store_tick files). }
  intros u2. cbv beta.
  apply triple_if; [apply Hleaf; cbn; tauto|].
  apply triple_if; [apply Hleaf; cbn; tauto|].
  rewrite Hbackup. fold (backup_path args p).
  apply (triple_bind _ _ _
           (fun _ s => original_kept (backup_path args p) b s /\
                       p <> backup_path args p)).
  { intros s Hs. rewrite bind_run. unfold mkdir. rewrite bind_run, effect_run.
    destruct (fault w (tick s)); [exact I|]. cbn [mret M_ret].
    unfold copy2. rewrite !bind_run, effect_run. cbn [fs tick log st_result].
    destruct (fault w (S (tick s))); [exact I|].
    rewrite bind_run. cbn [get_fs fs].
    destruct (decide (p = backup_path args p)) as [|Hne]; [exact I|].
    rewrite Hs, Hfile. cbn. split; [apply lookup_insert_eq|exact Hne]. }
  intros u3 s [Hk Hne].
  pose proof (old_sibling_not_backup args p) as Hold.
  pose proof (triple_repair w p (original_kept (backup_path args p) b)
                (other_than (backup_path args p))
                (original_kept (backup_path args p) b)
                (fun s0 t l r H => H) (kept_fs (backup_path args p) b)
                (fun s0 H => H)
                (fun A dir body =>
                   scratch_existing w (backup_path args p) b A dir body)
                Hne Hold plan) as Hrepair.
  specialize (Hrepair s Hk).
  match goal with |- match ?m s with _ => _ end =>
    destruct (m s) as [[[]|e] s1] end; [right; exact Hrepair|exact I].
Qed.

(** X27: with [--backup], a file reported as FIXED or FAIL has a copy of
    its original bytes in the backup directory: nothing that runs after
    the copy, the in-place strip and the replacement included, writes
    there. *)
Theorem backup_holds_original (w : World) (p : path) (args : Args) (s : state)
    (b : bytes) :
  a_backup args = true -> fs s !! p = Some b ->
  r_status (process_one w p args s).1 = "FIXED" \/
  r_status (process_one w p args s).1 = "FAIL" ->
  fs (process_one w p args s).2 !! backup_path args p = Some b.
Proof.
  intros Hbackup Hfile. rewrite process_one_run.
  pose proof (backup_survives w p b (fs s) args Hfile Hbackup
                (set_result (initial_result p) s) eq_refl) as H.
  destruct (process_one_body w p args _) as [[[]|e] s1]; cbn [fst snd].
  - intros Hst. destruct H as [Hin|H]; [|exact H].
    cbn [In] in Hin.
    destruct Hst as [Hst|Hst]; rewrite Hst in Hin;
      destruct Hin as [Hin|[Hin|[Hin|[]]]]; discriminate Hin.
  - cbn. intros [Hst|Hst]; discriminate Hst.
Qed.

Lemma backup_holds_original_witness :
  fs (process_one reencode_then_unreadable song backup_args
        (start {[ song := cover_heavy_file ]})).2 !! backup_path backup_args song
  = Some cover_heavy_file.
Proof.
  apply (backup_holds_original reencode_then_unreadable song backup_args
           (start {[ song := cover_heavy_file ]}) cover_heavy_file).
  - reflexivity.
  - vm_compute. reflexivity.
  - right. vm_compute. reflexivity.
Defined.

(** ** The magic and the cover export *)

(** X28: the magic is all that [parse_flac] checks.  A file is reported as
    native FLAC exactly when its first four bytes are [fLaC]; then [ok] is
    set and the reason is [OK], however short or damaged the block chain
    after it is. *)
Theorem magic_decides_is_flac (bs : bytes) :
  let pr := parse_flac_bytes bs in
  (is_flac pr = true <-> firstn 4 bs = magic) /\
  ok pr = is_flac pr /\
  (is_flac pr = true -> reason pr = "OK").
Proof.
  cbn zeta. destruct (decide (firstn 4 bs = magic)) as [Hmagic|Hmagic].
  - destruct (parse_flac_bytes_walk bs Hmagic) as (final & _ & ->). cbn.
    repeat split; auto.
  - rewrite (parse_flac_bytes_not_magic bs Hmagic). cbn.
    repeat split; try discriminate. intros H. contradiction.
Qed.

(** X29: a cover path returned by [export_cover_with_metaflac] is the file
    [cover.export] in the scratch directory, and that file exists when the
    call returns; without [metaflac] nothing is returned. *)
Theorem exported_cover_exists (w : World) (src tmpdir out : path) (s s' : state) :
  export_cover_with_metaflac w src tmpdir s = (Ok (Some out), s') ->
  out = tmpdir ++ ["cover.export"] /\ is_Some (fs s' !! out) /\
  which w "metaflac" = true.
Proof.
  unfold export_cover_with_metaflac.
  destruct (which w "metaflac"); cbn [negb]; [|discriminate].
  rewrite bind_run.
  match goal with |- context [run w ?cmd ?ins ?o s] =>
    destruct (run w cmd ins o s) as [[code|e] s1] end; [|discriminate].
  destruct (code =? 0); cbn [negb]; [|discriminate].
  rewrite bind_run, path_exists_run.
  destruct (decide (is_Some (fs s1 !! (tmpdir ++ ["cover.export"])))) as [Hin|Hout].
  - rewrite bool_decide_eq_true_2 by exact Hin. intros [= <- <-]. auto.
  - rewrite bool_decide_eq_false_2 by exact Hout. discriminate.
Qed.

Lemma exported_cover_exists_witness :
  let w := mkWorld (fun _ => None) metaflac_only (fun _ => "tmp0")
             (fun _ _ _ => mkToolResult 0 (Some [xff; xd8])) (fun _ => None)
             (fun _ _ => None) in
  let s := start {[ song := cover_heavy_file ]} in
  ["music"; "tmp0"; "cover.export"] = ["music"; "tmp0"] ++ ["cover.export"] /\
  is_Some (fs (export_cover_with_metaflac w song ["music"; "tmp0"] s).2
             !! ["music"; "tmp0"; "cover.export"]) /\
  which w "metaflac" = true.
Proof.
  cbv zeta.
  apply (exported_cover_exists _ song ["music"; "tmp0"]
           ["music"; "tmp0"; "cover.export"]
           (start {[ song := cover_heavy_file ]})).
  vm_compute. reflexivity.
Defined.
